(** * Connection manager of the game bridge

    A shallow embedding of [GameClient] (game-client.ts) and of the zod
    schemas it uses (types/game.ts).

    The client is event driven: socket, timer and child-process callbacks
    run between the suspension points ([await]) of [connect], [killGame]
    and [sendCommand].  The embedding keeps the client's fields in a record
    [GameClient], the objects the client only holds references to (timers,
    promises, child processes, the socket's outgoing writes) in a record
    [Runtime], and lets an environment [Env] say, for each suspension, how
    long it lasts, which callbacks run meanwhile and how the awaited
    operation ends.

    Approximations, all stated where they are made: numbers are integers
    ([Z]; no NaN, no fractions, printed in plain decimal), strings are byte
    strings, [JSON.parse] and the UTF-8 decoding of a received chunk
    ([chunk.toString("utf-8")]) are functions of the environment, the clock
    does not go backwards, and calls of the client's methods do not
    overlap: while one call is suspended, only callbacks run. *)

From Stdlib Require Import ZArith Lia.
From stdpp Require Import base option list sorting gmap strings pretty.

#[local] Set Warnings "-register-all".
#[local] Open Scope Z_scope.

(** ** JSON values and the schemas of types/game.ts *)

Inductive Json :=
| JNull
| JBool (b : bool)
| JNumber (n : Z)
| JString (s : string)
| JArray (xs : list Json)
| JObject (fields : gmap string Json).

(** JavaScript truthiness of a parsed JSON value. *)
Definition truthy (j : Json) : bool :=
  match j with
  | JNull => false
  | JBool b => b
  | JNumber n => negb (n =? 0)
  | JString s => negb (String.eqb s "")
  | JArray _ | JObject _ => true
  end.

(** [z.string().optional()] applied to the field [k] of an object: absent
    is accepted, a string is accepted, anything else (also [null]) is an
    issue. The outer [option] is the validation, the inner one the field. *)
Definition optional_string (k : string) (o : gmap string Json) : option (option string) :=
  match o !! k with
  | None => Some None
  | Some (JString s) => Some (Some s)
  | Some _ => None
  end.

Definition optional_boolean (k : string) (o : gmap string Json) : option (option bool) :=
  match o !! k with
  | None => Some None
  | Some (JBool b) => Some (Some b)
  | Some _ => None
  end.

Definition required_string (k : string) (o : gmap string Json) : option string :=
  match o !! k with
  | Some (JString s) => Some s
  | _ => None
  end.

Definition required_boolean (k : string) (o : gmap string Json) : option bool :=
  match o !! k with
  | Some (JBool b) => Some b
  | _ => None
  end.

Record GameRequest := {
  req_id : string;
  req_command : string;
  req_args : gmap string Json;
}.

Record GameResponse := {
  id : string;
  success : bool;
  data : option Json;
  image : option string;
  error : option string;
}.

(** [GameResponseSchema.parse]: [None] when zod throws. *)
Definition GameResponseSchema_parse (j : Json) : option GameResponse :=
  match j with
  | JObject o =>
      i ← required_string "id" o;
      s ← required_boolean "success" o;
      img ← optional_string "image" o;
      err ← optional_string "error" o;
      Some {| id := i; success := s; data := o !! "data"; image := img; error := err |}
  | _ => None
  end.

Record CommandArg := {
  arg_type : string;
  arg_optional : option bool;
  arg_description : option string;
}.

Record CommandInfo := {
  name : string;
  description : string;
  args : option (gmap string CommandArg);
}.

Definition CommandArgSchema_parse (j : Json) : option CommandArg :=
  match j with
  | JObject o =>
      t ← required_string "type" o;
      opt ← optional_boolean "optional" o;
      d ← optional_string "description" o;
      Some {| arg_type := t; arg_optional := opt; arg_description := d |}
  | _ => None
  end.

(** [z.record(CommandArgSchema)]: every value of the object must parse. *)
Definition CommandArgs_parse (j : Json) : option (gmap string CommandArg) :=
  match j with
  | JObject o =>
      list_to_map <$> mapM (λ kv, pair kv.1 <$> CommandArgSchema_parse kv.2) (map_to_list o)
  | _ => None
  end.

Definition CommandInfoSchema_parse (j : Json) : option CommandInfo :=
  match j with
  | JObject o =>
      n ← required_string "name" o;
      d ← required_string "description" o;
      a ← match o !! "args" with
          | None => Some None
          | Some ja => Some <$> CommandArgs_parse ja
          end;
      Some {| name := n; description := d; args := a |}
  | _ => None
  end.

(** [ListCommandsResponseSchema.safeParse(data)], reduced to
    [parsed.success ? parsed.data.commands : none]. *)
Definition ListCommandsResponseSchema_safeParse (j : Json) : option (list CommandInfo) :=
  match j with
  | JObject o =>
      match o !! "commands" with
      | Some (JArray xs) => mapM CommandInfoSchema_parse xs
      | _ => None
      end
  | _ => None
  end.

Record Config := {
  projectPath : option string;
  port : Z;
  godotPath : string;
  connectTimeoutMs : Z;
  commandTimeoutMs : Z;
}.

Inductive ConnectionState := disconnected | connecting | connected.

#[global] Instance ConnectionState_eq_dec : EqDecision ConnectionState.
Proof. solve_decision. Defined.

(** ** The client's fields and the objects it refers to *)

(** A [PendingRequest] holds the [resolve] and [reject] functions of one
    promise, the one [sendCommand] returned, and the handle of its timer.
    Both functions are kept as the promise they settle. *)
Record PendingRequest := {
  promise : nat;
  timeoutHandle : nat;
}.

Record GameClient := {
  socket : option nat;
  state : ConnectionState;
  buffer : string;
  pendingRequests : gmap string PendingRequest;
  gameProcess : option nat;
  config : Config;
  availableCommands : list CommandInfo;
}.

Definition set_socket (v : option nat) (c : GameClient) : GameClient :=
  {| socket := v; state := state c; buffer := buffer c;
     pendingRequests := pendingRequests c; gameProcess := gameProcess c;
     config := config c; availableCommands := availableCommands c |}.

Definition set_state (v : ConnectionState) (c : GameClient) : GameClient :=
  {| socket := socket c; state := v; buffer := buffer c;
     pendingRequests := pendingRequests c; gameProcess := gameProcess c;
     config := config c; availableCommands := availableCommands c |}.

Definition set_buffer (v : string) (c : GameClient) : GameClient :=
  {| socket := socket c; state := state c; buffer := v;
     pendingRequests := pendingRequests c; gameProcess := gameProcess c;
     config := config c; availableCommands := availableCommands c |}.

Definition set_pendingRequests (v : gmap string PendingRequest) (c : GameClient) : GameClient :=
  {| socket := socket c; state := state c; buffer := buffer c;
     pendingRequests := v; gameProcess := gameProcess c;
     config := config c; availableCommands := availableCommands c |}.

Definition set_gameProcess (v : option nat) (c : GameClient) : GameClient :=
  {| socket := socket c; state := state c; buffer := buffer c;
     pendingRequests := pendingRequests c; gameProcess := v;
     config := config c; availableCommands := availableCommands c |}.

Definition set_availableCommands (v : list CommandInfo) (c : GameClient) : GameClient :=
  {| socket := socket c; state := state c; buffer := buffer c;
     pendingRequests := pendingRequests c; gameProcess := gameProcess c;
     config := config c; availableCommands := v |}.

(** The constructor: [new GameClient(config)]. *)
Definition new_GameClient (cfg : Config) : GameClient :=
  {| socket := None; state := disconnected; buffer := "";
     pendingRequests := ∅; gameProcess := None;
     config := cfg; availableCommands := [] |}.

(** How a promise ended: [resolve(value)] or [reject(new Error(reason))]. *)
Inductive Settlement (A : Type) :=
| Resolved (value : A)
| Rejected (reason : string).
Arguments Resolved {A} value.
Arguments Rejected {A} reason.

(** The closure [sendCommand] hands to [setTimeout]: it captures the
    request's [id], the promise's [resolve] and [timeout]. *)
Record CommandTimer := {
  timer_id : string;
  timer_promise : nat;
  timer_timeout : Z;
}.

(** One [socket.write(message, callback)]: the request whose JSON text was
    written, and what the callback captures. *)
Record Write := {
  write_socket : nat;
  write_request : GameRequest;
  write_promise : nat;
  write_timer : nat;
}.

(** A [ChildProcess] object: its [killed] flag and the promise of the
    [launchGame] call that spawned it ([None] while that promise is open). *)
Record ChildProcess := {
  killed : bool;
  launch : option (Settlement unit);
}.

Inductive Signal := SIGTERM | SIGKILL.

Inductive Effect :=
| SocketConnect (sock : nat) (to_port : Z)
| SocketDestroy (sock : nat)
| Spawn (pid : nat) (command path : string)
| Kill (pid : nat) (sig : Signal)
| Sleep (ms : Z)
| ConsoleError (text : string).

Record Runtime := {
  now : Z;                                     (* Date.now() *)
  tick : nat;                                  (* suspensions so far *)
  fresh : nat;                                 (* next object handle *)
  timers : gmap nat CommandTimer;              (* armed timeouts *)
  promises : gmap nat (Settlement GameResponse); (* settled sendCommand promises *)
  children : gmap nat ChildProcess;
  writes : list Write;
  effects : list (Z * Effect);                 (* when and what, in order *)
}.

Definition set_timers (v : gmap nat CommandTimer) (rt : Runtime) : Runtime :=
  {| now := now rt; tick := tick rt; fresh := fresh rt; timers := v;
     promises := promises rt; children := children rt; writes := writes rt;
     effects := effects rt |}.

Definition set_promises (v : gmap nat (Settlement GameResponse)) (rt : Runtime) : Runtime :=
  {| now := now rt; tick := tick rt; fresh := fresh rt; timers := timers rt;
     promises := v; children := children rt; writes := writes rt;
     effects := effects rt |}.

Definition set_children (v : gmap nat ChildProcess) (rt : Runtime) : Runtime :=
  {| now := now rt; tick := tick rt; fresh := fresh rt; timers := timers rt;
     promises := promises rt; children := v; writes := writes rt;
     effects := effects rt |}.

Definition set_writes (v : list Write) (rt : Runtime) : Runtime :=
  {| now := now rt; tick := tick rt; fresh := fresh rt; timers := timers rt;
     promises := promises rt; children := children rt; writes := v;
     effects := effects rt |}.

Definition set_fresh (v : nat) (rt : Runtime) : Runtime :=
  {| now := now rt; tick := tick rt; fresh := v; timers := timers rt;
     promises := promises rt; children := children rt; writes := writes rt;
     effects := effects rt |}.

(** Performing an effect appends it to the log, with the time. *)
Definition perform (e : Effect) (rt : Runtime) : Runtime :=
  {| now := now rt; tick := tick rt; fresh := fresh rt; timers := timers rt;
     promises := promises rt; children := children rt; writes := writes rt;
     effects := effects rt ++ [(now rt, e)] |}.

(** A suspension ends: the clock has moved on by [ms]. *)
Definition elapse (ms : Z) (rt : Runtime) : Runtime :=
  {| now := now rt + ms; tick := S (tick rt); fresh := fresh rt;
     timers := timers rt; promises := promises rt; children := children rt;
     writes := writes rt; effects := effects rt |}.

Definition empty_Runtime : Runtime :=
  {| now := 0; tick := 0%nat; fresh := 0%nat; timers := ∅; promises := ∅;
     children := ∅; writes := []; effects := [] |}.

(** Settling a promise: only the first [resolve] or [reject] counts. *)
Definition settle {A} (p : nat) (s : Settlement A)
    (m : gmap nat (Settlement A)) : gmap nat (Settlement A) :=
  match m !! p with
  | Some _ => m
  | None => <[p := s]> m
  end.

Definition resolve (p : nat) (r : GameResponse) (rt : Runtime) : Runtime :=
  set_promises (settle p (Resolved r) (promises rt)) rt.

Definition reject (p : nat) (reason : string) (rt : Runtime) : Runtime :=
  set_promises (settle p (Rejected reason) (promises rt)) rt.

Definition clearTimeout (h : nat) (rt : Runtime) : Runtime :=
  set_timers (delete h (timers rt)) rt.

(** ** The environment *)

Record JsError := {
  code : option string;
  message : string;
}.

(** A 'data' event carries a [Buffer]: the bytes received, cut wherever
    the transport cut the stream. *)
Inductive Event :=
| SocketData (chunk : list Z)
| SocketClose
| SocketError (msg : string)
| TimerFired (h : nat)
| WriteFailed (k : nat) (msg : string)      (* the callback of the k-th write gets an error *)
| ProcessError (pid : nat) (msg : string)
| ProcessExit (pid : nat) (exit_code : option Z).

(** What the environment decides about one suspension. The last three
    fields are read only by the operation they name. *)
Record Turn := {
  turn_ms : N;                  (* time spent beyond the nominal wait *)
  turn_events : list Event;     (* callbacks that run meanwhile, in order *)
  turn_dial : option JsError;   (* a dial: 'connect' ([None]) or 'error' *)
  turn_spawn : option string;   (* a launch: [spawn] throws this message *)
  turn_kill : option bool;      (* [kill(signal)]: its result, or it throws *)
}.

Record Env := {
  JSON_parse : string → option Json;   (* [None] when JSON.parse throws *)
  Buffer_toString : list Z → string;   (* [chunk.toString("utf-8")], chunk by chunk *)
  randomUUID : nat → string;           (* indexed by the allocation counter *)
  turn : nat → Turn;                   (* indexed by the suspension counter *)
}.

Definition Sys : Type := GameClient * Runtime.

(** ** Receiving: [handleMessage], [processBuffer], [handleDisconnect] *)

Definition handleMessage (env : Env) (line : string) (s : Sys) : Sys :=
  let '(c, rt) := s in
  let caught := (c, perform (ConsoleError "[GameClient] Failed to parse message:") rt) in
  match JSON_parse env line with
  | None => caught
  | Some parsed =>
      match GameResponseSchema_parse parsed with
      | None => caught
      | Some response =>
          match pendingRequests c !! id response with
          | Some pending =>
              let rt := clearTimeout (timeoutHandle pending) rt in
              let c := set_pendingRequests (delete (id response) (pendingRequests c)) c in
              (c, resolve (promise pending) response rt)
          | None => (c, rt)
          end
      end
  end.

(** What [handleMessage] decodes from a line, when both [JSON.parse] and
    the schema accept it. *)
Definition decode (env : Env) (line : string) : option GameResponse :=
  JSON_parse env line ≫= GameResponseSchema_parse.

Definition LF : string := String (Ascii.ascii_of_nat 10) "".

Definition is_whitespace (a : Ascii.ascii) : bool :=
  let n := Ascii.nat_of_ascii a in
  ((9 <=? n) && (n <=? 13) || (n =? 32))%nat.

(** [line.trim()] is the empty string, so falsy, exactly when the line has
    whitespace only (here: the ASCII white space and line terminators). *)
Definition trim_is_empty (line : string) : bool :=
  forallb is_whitespace (String.list_ascii_of_string line).

(** The [while (this.buffer.includes("\n"))] loop; [fuel] bounds the
    iterations, each of which shortens the buffer. *)
Fixpoint processBuffer_loop (fuel : nat) (env : Env) (s : Sys) : Sys :=
  match fuel with
  | O => s
  | S fuel' =>
      let '(c, rt) := s in
      match String.index 0 LF (buffer c) with
      | None => s
      | Some newlineIndex =>
          let line := String.substring 0 newlineIndex (buffer c) in
          let rest := String.substring (S newlineIndex)
                        (String.length (buffer c) - S newlineIndex) (buffer c) in
          let c := set_buffer rest c in
          processBuffer_loop fuel' env
            (if trim_is_empty line then (c, rt) else handleMessage env line (c, rt))
      end
  end.

Definition processBuffer (env : Env) (s : Sys) : Sys :=
  processBuffer_loop (S (String.length (buffer s.1))) env s.

Definition connection_lost : string := "Connection lost during command execution".

(** The body of the [for ... of this.pendingRequests] loop. All entries
    are rejected with the same reason, so the outcome does not depend on
    the order in which the entries are visited. *)
Definition reject_pending (rt : Runtime) (entry : string * PendingRequest) : Runtime :=
  reject (promise entry.2) connection_lost (clearTimeout (timeoutHandle entry.2) rt).

Definition handleDisconnect (s : Sys) : Sys :=
  let '(c, rt) := s in
  let c := set_buffer "" (set_socket None (set_state disconnected c)) in
  let rt := foldl reject_pending rt (map_to_list (pendingRequests c)) in
  (set_pendingRequests ∅ c, rt).

(** ** Sending: [isConnected], [sendCommand] and its two callbacks *)

Definition isConnected (c : GameClient) : bool :=
  bool_decide (state c = connected) && bool_decide (socket c ≠ None).

(** [x || d] on an optional number: [undefined] and [0] are falsy. *)
Definition or_number (x : option Z) (d : Z) : Z :=
  match x with
  | Some n => if n =? 0 then d else n
  | None => d
  end.

(** [x || d] on optional strings: [undefined] and [""] are falsy. *)
Definition or_string (x d : option string) : option string :=
  match x with
  | Some s => if String.eqb s "" then d else Some s
  | None => d
  end.

(** [!x] on an optional string: [Some] of it only when it is truthy. *)
Definition nonempty (x : option string) : option string :=
  match x with
  | Some s => if String.eqb s "" then None else Some s
  | None => None
  end.

(** What the caller of [sendCommand] holds: a promise that is already
    fulfilled (the early [return]), or the open promise [p] with timer [h]. *)
Inductive SendResult :=
| Immediate (r : GameResponse)
| Pending (p h : nat).

Definition failure (i : string) (msg : string) : GameResponse :=
  {| id := i; success := false; data := None; image := None; error := Some msg |}.

Definition not_connected : string := "Not connected. Call game_connect first.".

Definition timeout_message (timeout : Z) : string :=
  "Command timeout after " +:+ pretty timeout +:+ "ms".

Definition sendCommand (env : Env) (command : string) (args : gmap string Json)
    (timeoutMs : option Z) (s : Sys) : SendResult * Sys :=
  let '(c, rt) := s in
  match isConnected c, socket c with
  | true, Some sock =>
      let timeout := or_number timeoutMs (commandTimeoutMs (config c)) in
      let id := randomUUID env (fresh rt) in
      let request := {| req_id := id; req_command := command; req_args := args |} in
      let p := fresh rt in
      let h := S (fresh rt) in
      let rt := set_fresh (S (S (fresh rt))) rt in
      let rt := set_timers (<[h := {| timer_id := id; timer_promise := p;
                                      timer_timeout := timeout |}]> (timers rt)) rt in
      let c := set_pendingRequests
                 (<[id := {| promise := p; timeoutHandle := h |}]> (pendingRequests c)) c in
      let rt := set_writes (writes rt ++ [{| write_socket := sock; write_request := request;
                                             write_promise := p; write_timer := h |}]) rt in
      (Pending p h, (c, rt))
  | _, _ => (Immediate (failure "" not_connected), (c, rt))
  end.

(** The timer of a request fires: the closure passed to [setTimeout]. A
    handle that is not armed (cleared, or fired before) cannot fire. *)
Definition timerFired (h : nat) (s : Sys) : Sys :=
  let '(c, rt) := s in
  match timers rt !! h with
  | Some t =>
      let rt := set_timers (delete h (timers rt)) rt in
      let c := set_pendingRequests (delete (timer_id t) (pendingRequests c)) c in
      (c, resolve (timer_promise t)
            (failure (timer_id t) (timeout_message (timer_timeout t))) rt)
  | None => s
  end.

(** The callback of the [k]-th [socket.write] is called with an error. *)
Definition writeFailed (k : nat) (msg : string) (s : Sys) : Sys :=
  let '(c, rt) := s in
  match writes rt !! k with
  | Some w =>
      let i := req_id (write_request w) in
      let rt := clearTimeout (write_timer w) rt in
      let c := set_pendingRequests (delete i (pendingRequests c)) c in
      (c, resolve (write_promise w) (failure i ("Failed to send command: " +:+ msg)) rt)
  | None => s
  end.

(** ** Child-process callbacks and the event loop *)

Definition settle_launch (v : Settlement unit) (ch : ChildProcess) : ChildProcess :=
  {| killed := killed ch;
     launch := match launch ch with Some old => Some old | None => Some v end |}.

Definition set_killed (ch : ChildProcess) : ChildProcess :=
  {| killed := true; launch := launch ch |}.

Definition exit_code_text (exit_code : option Z) : string :=
  match exit_code with
  | Some n => pretty n
  | None => "null"
  end.

Definition processError (pid : nat) (msg : string) (s : Sys) : Sys :=
  let '(c, rt) := s in
  match children rt !! pid with
  | Some _ =>
      (set_gameProcess None c,
       set_children
         (alter (settle_launch (Rejected ("Failed to launch Godot: " +:+ msg))) pid
            (children rt)) rt)
  | None => s
  end.

Definition processExit (pid : nat) (exit_code : option Z) (s : Sys) : Sys :=
  let '(c, rt) := s in
  match children rt !! pid with
  | Some _ =>
      (set_gameProcess None c,
       if decide (state c = connecting) then
         set_children
           (alter (settle_launch
                     (Rejected ("Game process exited unexpectedly with code "
                                +:+ exit_code_text exit_code))) pid
              (children rt)) rt
       else rt)
  | None => s
  end.

Definition handleEvent (env : Env) (s : Sys) (e : Event) : Sys :=
  match e with
  | SocketData chunk =>
      processBuffer env (set_buffer (buffer s.1 +:+ Buffer_toString env chunk) s.1, s.2)
  | SocketClose => handleDisconnect s
  | SocketError msg =>
      handleDisconnect (s.1, perform (ConsoleError "[GameClient] Socket error:") s.2)
  | TimerFired h => timerFired h s
  | WriteFailed k msg => writeFailed k msg s
  | ProcessError pid msg => processError pid msg s
  | ProcessExit pid exit_code => processExit pid exit_code s
  end.

(** A suspension of [nominal] milliseconds: the clock moves on and the
    callbacks the environment schedules run, before the caller resumes. *)
Definition suspend (env : Env) (nominal : Z) (s : Sys) : Turn * Sys :=
  let t := turn env (tick s.2) in
  (t, foldl (handleEvent env) (s.1, elapse (nominal + Z.of_N (turn_ms t)) s.2)
        (turn_events t)).

Definition sleep (env : Env) (ms : Z) (s : Sys) : Sys :=
  (suspend env (Z.max 0 ms) (s.1, perform (Sleep ms) s.2)).2.

(** ** Launching and killing the target process *)

(** [launchGame]: [Some msg] when its promise is rejected with [msg].
    [spawn] may throw; otherwise the promise is resolved by the 100ms timer
    unless an 'error' or 'exit' callback has rejected it before. *)
Definition launchGame (env : Env) (path : string) (s : Sys) : option string * Sys :=
  let '(c, rt) := s in
  match turn_spawn (turn env (tick rt)) with
  | Some msg => (Some msg, (c, rt))
  | None =>
      let pid := fresh rt in
      let rt := perform (Spawn pid (godotPath (config c)) path) (set_fresh (S pid) rt) in
      let rt := set_children (<[pid := {| killed := false; launch := None |}]> (children rt)) rt in
      let c := set_gameProcess (Some pid) c in
      let '(c, rt) := (suspend env 100 (c, rt)).2 in
      match children rt !! pid ≫= launch with
      | Some (Rejected msg) => (Some msg, (c, rt))
      | _ => (None, (c, set_children (alter (settle_launch (Resolved ())) pid (children rt)) rt))
      end
  end.

(** [child.kill(signal)]: [false] when it throws. A delivered signal sets
    the child's [killed] flag. *)
Definition kill (env : Env) (pid : nat) (sig : Signal) (rt : Runtime) : bool * Runtime :=
  let rt := perform (Kill pid sig) rt in
  match turn_kill (turn env (tick rt)) with
  | Some true => (true, set_children (alter set_killed pid (children rt)) rt)
  | Some false => (true, rt)
  | None => (false, rt)
  end.

Definition is_killed (pid : nat) (rt : Runtime) : bool :=
  match children rt !! pid with
  | Some ch => killed ch
  | None => false
  end.

Definition killGame (env : Env) (s : Sys) : Sys :=
  let '(c, rt) := s in
  let '(c, rt) :=
    match socket c with
    | Some sock => (set_socket None c, perform (SocketDestroy sock) rt)
    | None => (c, rt)
    end in
  let '(c, rt) :=
    match gameProcess c with
    | Some pid =>
        let '(returned, rt) := kill env pid SIGTERM rt in
        let '(c, rt) :=
          if returned then
            let '(c, rt) := sleep env 500 (c, rt) in
            match gameProcess c with
            | Some pid' =>
                if is_killed pid' rt then (c, rt) else (c, (kill env pid' SIGKILL rt).2)
            | None => (c, rt)
            end
          else (c, rt) in
        (set_gameProcess None c, rt)
    | None => (c, rt)
    end in
  (set_pendingRequests ∅ (set_buffer "" (set_state disconnected c)), rt).

Definition shutdown (env : Env) (s : Sys) : Sys := killGame env s.

(** ** Connecting *)

(** [tryConnect]: a new socket is dialled; on 'connect' it becomes the
    client's socket, on 'error' it is destroyed and the error is the
    rejection. *)
Definition tryConnect (env : Env) (to_port : Z) (s : Sys) : option JsError * Sys :=
  let '(c, rt) := s in
  let sock := fresh rt in
  let rt := perform (SocketConnect sock to_port) (set_fresh (S sock) rt) in
  let '(t, (c, rt)) := suspend env 0 (c, rt) in
  match turn_dial t with
  | None => (None, (set_socket (Some sock) c, rt))
  | Some err => (Some err, (c, perform (SocketDestroy sock) rt))
  end.

(** Awaiting the promise of a registered request: callbacks run; if none
    of them settles the promise, its timer is what remains to fire. [None]
    when nothing can settle it any more. *)
Definition awaitSettled (env : Env) (p h : nat) (s : Sys)
    : option (Settlement GameResponse * Sys) :=
  let s := (suspend env 0 s).2 in
  match promises s.2 !! p with
  | Some v => Some (v, s)
  | None =>
      let s := timerFired h s in
      match promises s.2 !! p with
      | Some v => Some (v, s)
      | None => None
      end
  end.

(** The [try] block of [fetchCommands] once the response is there. *)
Definition commands_of (response : GameResponse) : list CommandInfo :=
  if success response then
    match data response with
    | Some d =>
        if truthy d then default [] (ListCommandsResponseSchema_safeParse d) else []
    | None => []
    end
  else [].

Definition fetchCommands (env : Env) (s : Sys) : option (list CommandInfo * Sys) :=
  let '(r, s) := sendCommand env "list_commands" ∅ (Some 5000) s in
  match r with
  | Immediate response => Some (commands_of response, s)
  | Pending p h =>
      match awaitSettled env p h s with
      | Some (Resolved response, s) => Some (commands_of response, s)
      | Some (Rejected _, s) =>
          Some ([], (s.1, perform (ConsoleError "[GameClient] Failed to fetch commands:") s.2))
      | None => None
      end
  end.

Record ConnectOptions := {
  opt_projectPath : option string;
  opt_restart : option bool;
  opt_port : option Z;
  opt_timeoutMs : option Z;
}.

(** The object [connect] returns ([gameVersion] is never set). *)
Record ConnectResult := {
  result_connected : bool;
  result_commands : option (list CommandInfo);
  result_error : option string;
}.

Definition no_project_path : string :=
  "No project path specified. Set GAME_PROJECT_PATH or provide project_path parameter.".

Definition waitTime (elapsed : Z) : Z :=
  Z.min (100 * 2 ^ (elapsed / 1000)) 1000.

(** The code after the loop: [lastError?.message || `Connection timeout ...`]. *)
Definition loop_failed (timeoutMs : Z) (lastError : option JsError) (s : Sys)
    : ConnectResult * Sys :=
  let timed_out := "Connection timeout after " +:+ pretty timeoutMs +:+ "ms" in
  ({| result_connected := false; result_commands := None;
      result_error := Some (match lastError with
                            | Some e => if String.eqb (message e) "" then timed_out
                                        else message e
                            | None => timed_out
                            end) |},
   (set_state disconnected s.1, s.2)).

(** The [while (Date.now() - startTime < timeoutMs)] loop. [None] when
    [fuel] iterations do not suffice or the call never resumes. *)
Fixpoint connectLoop (fuel : nat) (env : Env) (path : string) (to_port timeoutMs : Z)
    (startTime : Z) (lastError : option JsError) (s : Sys)
    : option (ConnectResult * Sys) :=
  match fuel with
  | O => None
  | S fuel' =>
      if now s.2 - startTime <? timeoutMs then
        let '(dialled, s) := tryConnect env to_port s in
        match dialled with
        | None =>
            '(commands, (c, rt)) ← fetchCommands env s;
            Some ({| result_connected := true; result_commands := Some commands;
                     result_error := None |},
                  (set_state connected (set_availableCommands commands c), rt))
        | Some err =>
            if bool_decide (code err = Some "ECONNREFUSED") then
              let '(launched, s) :=
                match gameProcess s.1 with
                | None => launchGame env path s
                | Some _ => (None, s)
                end in
              match launched with
              | Some msg =>
                  Some ({| result_connected := false; result_commands := None;
                           result_error := Some ("Failed to launch game: " +:+ msg) |}, s)
              | None =>
                  let elapsed := now s.2 - startTime in
                  let s := sleep env (waitTime elapsed) s in
                  connectLoop fuel' env path to_port timeoutMs startTime (Some err) s
              end
            else Some (loop_failed timeoutMs (Some err) s)
        end
      else Some (loop_failed timeoutMs lastError s)
  end.

(** Enough iterations for the loop: every retry waits at least 1ms. *)
Definition loop_fuel (timeoutMs : Z) : nat := S (Z.to_nat timeoutMs).

Definition connect (env : Env) (options : ConnectOptions) (s : Sys)
    : option (ConnectResult * Sys) :=
  let path := or_string (opt_projectPath options) (projectPath (config s.1)) in
  let to_port := or_number (opt_port options) (port (config s.1)) in
  let timeoutMs := or_number (opt_timeoutMs options) (connectTimeoutMs (config s.1)) in
  match nonempty path with
  | None =>
      Some ({| result_connected := false; result_commands := None;
               result_error := Some no_project_path |}, s)
  | Some path =>
      let s := if bool_decide (opt_restart options = Some true) then killGame env s else s in
      if isConnected s.1 then
        Some ({| result_connected := true;
                 result_commands := Some (availableCommands s.1);
                 result_error := None |}, s)
      else
        let s := (set_state connecting s.1, s.2) in
        let startTime := now s.2 in
        connectLoop (loop_fuel timeoutMs) env path to_port timeoutMs startTime None s
  end.

(** The waits ([this.sleep(ms)]) in a log of effects, in order: when each
    was started and for how long. *)
Definition sleeps_of (log : list (Z * Effect)) : list (Z * Z) :=
  omap (λ te, match te.2 with Sleep ms => Some (te.1, ms) | _ => None end) log.

(** The steps of the retry loop in a log of effects, in order: a socket
    was dialled at a time, or a wait ([this.sleep(ms)]) was started at a
    time for [ms] milliseconds. *)
Inductive RetryStep :=
| Dialled (at_time : Z)
| Waited (at_time : Z) (ms : Z).

Definition retries_of (log : list (Z * Effect)) : list RetryStep :=
  omap (λ te, match te.2 with
              | SocketConnect _ _ => Some (Dialled te.1)
              | Sleep ms => Some (Waited te.1 ms)
              | _ => None
              end) log.

(** A retry schedule that began at [start]: each round is a dial [d] ms
    after the start followed by a wait that begins [e] ms after the start
    and lasts [wait e] ms; a last dial may follow the rounds. *)
Definition schedule (wait : Z → Z) (start : Z) (rounds : list (Z * Z))
    (last : option Z) : list RetryStep :=
  (rounds ≫= λ r, [Dialled (start + r.1); Waited (start + r.2) (wait r.2)])
  ++ (Dialled ∘ Z.add start <$> option_list last).

(** The times of a schedule, in the order of its steps: for each round
    the dial, the begin of the wait and the end of the wait, then the last
    dial. *)
Definition schedule_times (wait : Z → Z) (rounds : list (Z * Z)) (last : option Z)
    : list Z :=
  (rounds ≫= λ r, [r.1; r.2; r.2 + wait r.2]) ++ option_list last.

(** What every callback and every suspension guarantees: the clock does
    not go back, nothing but [connect] itself enters the state
    [connected], no wait is started, nothing is written to the socket, and
    the configuration stays. *)
Record advances (s s' : Sys) : Prop := {
  adv_now : now s.2 ≤ now s'.2;
  adv_state : state s.1 ≠ connected → state s'.1 ≠ connected;
  adv_sleeps : sleeps_of (effects s'.2) = sleeps_of (effects s.2);
  adv_writes : writes s'.2 = writes s.2;
  adv_config : config s'.1 = config s.1;
}.

(** ** Sample configurations, environments and states *)

Definition sample_config : Config :=
  {| projectPath := Some "/game"; port := 6789; godotPath := "godot";
     connectTimeoutMs := 5000; commandTimeoutMs := 10000 |}.

(** GAME_PROJECT_PATH is not set. *)
Definition config_without_path : Config :=
  {| projectPath := None; port := 6789; godotPath := "godot";
     connectTimeoutMs := 5000; commandTimeoutMs := 10000 |}.

Definition no_options : ConnectOptions :=
  {| opt_projectPath := None; opt_restart := None; opt_port := None;
     opt_timeoutMs := None |}.

Definition with_path (path : string) : ConnectOptions :=
  {| opt_projectPath := Some path; opt_restart := None; opt_port := None;
     opt_timeoutMs := None |}.

Definition with_restart_and_path (path : string) : ConnectOptions :=
  {| opt_projectPath := Some path; opt_restart := Some true; opt_port := None;
     opt_timeoutMs := None |}.

Definition with_restart : ConnectOptions :=
  {| opt_projectPath := None; opt_restart := Some true; opt_port := None;
     opt_timeoutMs := None |}.

(** Nothing else happens and the dial is answered at once. *)
Definition quiet : Turn :=
  {| turn_ms := 0; turn_events := []; turn_dial := None; turn_spawn := None;
     turn_kill := Some true |}.

(** Nobody listens on the port; the suspension ends 3ms late. *)
Definition refused : Turn :=
  {| turn_ms := 3; turn_events := [];
     turn_dial := Some {| code := Some "ECONNREFUSED";
                          message := "connect ECONNREFUSED 127.0.0.1:6789" |};
     turn_spawn := None; turn_kill := Some true |}.

(** The [data] of a [list_commands] answer with two commands. *)
Definition two_commands : Json :=
  JObject {[ "commands" :=
    JArray [ JObject {[ "name" := JString "screenshot";
                        "description" := JString "Capture the game viewport" ]};
             JObject {[ "name" := JString "get_player_state";
                        "description" := JString "Get player position and health";
                        "args" := JObject ∅ ]} ] ]}.

Definition screenshot_info : CommandInfo :=
  {| name := "screenshot"; description := "Capture the game viewport"; args := None |}.

Definition player_state_info : CommandInfo :=
  {| name := "get_player_state"; description := "Get player position and health";
     args := Some ∅ |}.

(** The received lines of the examples, by name, with what [JSON.parse]
    makes of them. Any other line is malformed. *)
Definition sample_lines : gmap string Json :=
  {[ "answer to uuid-3 with two commands" :=
       JObject {[ "id" := JString "uuid-3"; "success" := JBool true;
                  "data" := two_commands ]};
     "answer to unknown-id" :=
       JObject {[ "id" := JString "unknown-id"; "success" := JBool true ]};
     "answer without success field" :=
       JObject {[ "id" := JString "uuid-1" ]} ]}.

Definition sample_uuid (n : nat) : string := "uuid-" +:+ pretty n.

(** The chunks of the examples hold ASCII text, which UTF-8 encodes and
    decodes byte by byte. *)
Definition bytes_of (text : string) : list Z :=
  (λ a, Z.of_nat (Ascii.nat_of_ascii a)) <$> String.list_ascii_of_string text.

Definition sample_toString (chunk : list Z) : string :=
  String.string_of_list_ascii ((λ b, Ascii.ascii_of_nat (Z.to_nat b)) <$> chunk).

Definition env_of (turns : nat → Turn) : Env :=
  {| JSON_parse := λ line, sample_lines !! line; Buffer_toString := sample_toString;
     randomUUID := sample_uuid; turn := turns |}.

(** The game already listens. *)
Definition env_listening : Env := env_of (λ _, quiet).

(** The target answers the request with id [uuid-3]: one chunk arrives
    with the answer line. *)
Definition answering : Turn :=
  {| turn_ms := 20;
     turn_events := [SocketData (bytes_of ("answer to uuid-3 with two commands" +:+ LF))];
     turn_dial := None; turn_spawn := None; turn_kill := Some true |}.

(** The game has to be launched: the first dial is refused, the second,
    after the launch and one backoff wait, succeeds. The launched game
    implements [list_commands] with two commands: it answers the request
    awaited in the suspension after the second dial, if there is one. *)
Definition env_refused_once : Env :=
  env_of (λ n, match n with
               | 0%nat => refused
               | 4%nat => answering
               | _ => quiet
               end).

(** Nothing ever listens. *)
Definition env_always_refused : Env := env_of (λ _, refused).

Definition fresh_client : Sys := (new_GameClient sample_config, empty_Runtime).

Definition result_of {A} (r : option (A * Sys)) : option A := fst <$> r.

Definition after (s : Sys) {A} (r : option (A * Sys)) : Sys := from_option snd s r.

(** Connected without a launch. *)
Definition sys_connected : Sys :=
  after fresh_client (connect env_listening no_options fresh_client).

(** Connected, with one [screenshot] request in flight. *)
Definition sys_one_pending : Sys :=
  (sendCommand env_listening "screenshot" ∅ None sys_connected).2.

(** Connected to a game this client launched, no configured project path. *)
Definition sys_launched : Sys :=
  after (new_GameClient config_without_path, empty_Runtime)
    (connect env_refused_once (with_path "/game")
       (new_GameClient config_without_path, empty_Runtime)).

(** ** The tool layer: [game_command] (tools/index.ts) *)

Inductive Content :=
| TextContent (text : string)
| ImageContent (data : string) (mimeType : string).

Record ToolResult := {
  isError : bool;
  content : list Content;
}.

Record GameCommandParams := {
  param_command : string;
  param_args : option (gmap string Json);
  param_timeout_ms : option Z;
}.

(** What the handler takes from the platform: [Buffer.from(_, "base64")],
    which yields bytes or throws an error with a message, and
    [JSON.stringify(_, null, 2)]. *)
Record Platform := {
  Buffer_from_base64 : string → list Z + string;
  JSON_stringify : Json → string;
}.

(** The PNG header test: at least four bytes, [89 50 4E 47]. *)
Definition is_png (decoded : list Z) : bool :=
  match decoded with
  | b0 :: b1 :: b2 :: b3 :: _ => (b0 =? 137) && (b1 =? 80) && (b2 =? 78) && (b3 =? 71)
  | _ => false
  end.

Definition image_content (platform : Platform) (img : string) : Content :=
  match Buffer_from_base64 platform img with
  | inl decoded =>
      if is_png decoded then ImageContent img "image/png"
      else TextContent "[Warning: Image data does not appear to be valid PNG]"
  | inr msg => TextContent ("[Warning: Invalid base64 image data: " +:+ msg +:+ "]")
  end.

(** The content built for a successful response: the image first, then
    the data as text, and a fixed message if there is neither. *)
Definition success_content (platform : Platform) (response : GameResponse) : list Content :=
  let images :=
    match image response with
    | Some img => if String.eqb img "" then [] else [image_content platform img]
    | None => []
    end in
  let texts :=
    match data response with
    | Some (JString text) => [TextContent text]
    | Some d => [TextContent (JSON_stringify platform d)]
    | None => []
    end in
  match images ++ texts with
  | [] => [TextContent "Command executed successfully."]
  | filled => filled
  end.

Definition error_result (text : string) : ToolResult :=
  {| isError := true; content := [TextContent text] |}.

(** The handler of the [game_command] tool. [None] when the awaited
    [sendCommand] never settles. *)
Definition game_command (env : Env) (platform : Platform) (params : GameCommandParams)
    (s : Sys) : option (ToolResult * Sys) :=
  if isConnected s.1 then
    let '(sent, s) :=
      sendCommand env (param_command params) (default ∅ (param_args params))
        (param_timeout_ms params) s in
    '(outcome, s) ← match sent with
                    | Immediate response => Some (Resolved response, s)
                    | Pending p h => awaitSettled env p h s
                    end;
    match outcome with
    | Resolved response =>
        if success response then
          Some ({| isError := false; content := success_content platform response |}, s)
        else
          Some (error_result (match error response with
                              | Some text => if String.eqb text "" then "Command failed"
                                             else text
                              | None => "Command failed"
                              end), s)
    | Rejected reason => Some (error_result ("Command failed: " +:+ reason), s)
    end
  else Some (error_result "Not connected. Call game_connect first.", s).

(** ** Histories of a client *)

(** What can happen to a client: a call of one of its public methods, or
    a callback. The promise [sendCommand] returns stays with the caller;
    the callbacks that settle it come later in the history. *)
Inductive Call :=
| CallConnect (options : ConnectOptions)
| CallSendCommand (command : string) (args : gmap string Json) (timeoutMs : option Z)
| CallKillGame
| Callback (e : Event).

Definition apply_call (env : Env) (s : Sys) (call : Call) : Sys :=
  match call with
  | CallConnect options => after s (connect env options s)
  | CallSendCommand command args timeoutMs => (sendCommand env command args timeoutMs s).2
  | CallKillGame => killGame env s
  | Callback e => handleEvent env s e
  end.

(** The client built from [cfg], after the calls of a history. *)
Definition run (env : Env) (cfg : Config) (history : list Call) : Sys :=
  foldl (apply_call env) (new_GameClient cfg, empty_Runtime) history.

(** The request with identifier [i] was written for the call whose
    promise is [p]. *)
Definition registered (wr : list Write) (p : nat) (i : string) : Prop :=
  ∃ w, w ∈ wr ∧ write_promise w = p ∧ req_id (write_request w) = i.

(** How the pending table, the armed timers, the settled promises and
    the writes hang together. [sendCommand] allocates the promise and the
    timer of a call next to each other, so the timer of promise [p] has
    handle [S p]. The last three: the calls in the pending table are
    open, a settled call has no timer armed, and each call was written
    once. *)
Record coherent (pend : gmap string PendingRequest) (tm : gmap nat CommandTimer)
    (pr : gmap nat (Settlement GameResponse)) (wr : list Write) (fr : nat) : Prop := {
  coh_pending : ∀ i pd, pend !! i = Some pd →
    timeoutHandle pd = S (promise pd) ∧ registered wr (promise pd) i;
  coh_timers : ∀ h t, tm !! h = Some t →
    h = S (timer_promise t) ∧ registered wr (timer_promise t) (timer_id t);
  coh_writes : ∀ w, w ∈ wr →
    write_timer w = S (write_promise w) ∧ (write_timer w < fr)%nat;
  coh_resolved : ∀ p r, pr !! p = Some (Resolved r) → registered wr p (id r);
  coh_settles : ∀ w, w ∈ wr → tm !! write_timer w = None → is_Some (pr !! write_promise w);
  coh_allocated : ∀ p, is_Some (pr !! p) → (p < fr)%nat;
  coh_live : ∀ i pd, pend !! i = Some pd → pr !! promise pd = None;
  coh_spent : ∀ p, is_Some (pr !! p) → tm !! S p = None;
  coh_unique : ∀ w w', w ∈ wr → w' ∈ wr → write_promise w = write_promise w' → w = w';
}.

Definition Coherent (s : Sys) : Prop :=
  coherent (pendingRequests s.1) (timers s.2) (promises s.2) (writes s.2) (fresh s.2).

(** What every operation keeps: outcomes stay, writes are only appended,
    handles are not reused, and coherence is preserved. *)
Record keeps (s s' : Sys) : Prop := {
  keeps_promises : promises s.2 ⊆ promises s'.2;
  keeps_writes : writes s.2 `prefix_of` writes s'.2;
  keeps_fresh : (fresh s.2 ≤ fresh s'.2)%nat;
  keeps_coherent : Coherent s → Coherent s';
}.

(** What every operation guarantees about the timers armed before it:
    they are cancelled or left as they are, never replaced; new handles
    are taken from the allocation counter. *)
Record cancels_only (s s' : Sys) : Prop := {
  co_fresh : (fresh s.2 ≤ fresh s'.2)%nat;
  co_timers : ∀ h t, (h < fresh s.2)%nat →
    timers s'.2 !! h = Some t → timers s.2 !! h = Some t;
}.

(** ** Lines of a text *)

(** The first line of a text and what follows its terminator; [None]
    when the text has no terminator. This is what one iteration of the
    loop of [processBuffer] computes with [indexOf] and [slice]. *)
Fixpoint cut_line (text : string) : option (string * string) :=
  match text with
  | EmptyString => None
  | String a rest =>
      if Ascii.eqb a (Ascii.ascii_of_nat 10) then Some (EmptyString, rest)
      else match cut_line rest with
           | Some (line, rest') => Some (String a line, rest')
           | None => None
           end
  end.

(** ** What callbacks leave alone *)

Definition console_only (log : list (Z * Effect)) : Prop :=
  Forall (λ te, ∃ text, te.2 = ConsoleError text) log.

(** Callbacks only write to the console, never touch the cached command
    list, may drop the reference to the child process but never set one,
    and never reset a child's [killed] flag. *)
Record callback_frame (s s' : Sys) : Prop := {
  cf_log : ∃ log, effects s'.2 = effects s.2 ++ log ∧ console_only log;
  cf_cache : availableCommands s'.1 = availableCommands s.1;
  cf_process : gameProcess s'.1 = gameProcess s.1 ∨ gameProcess s'.1 = None;
  cf_killed : ∀ pid, is_killed pid s.2 = true → is_killed pid s'.2 = true;
}.

(** The ports dialled in a log of effects, in order. *)
Definition dials_of (log : list (Z * Effect)) : list Z :=
  omap (λ te, match te.2 with SocketConnect _ to_port => Some to_port | _ => None end) log.

Definition is_dial (e : Effect) : Prop :=
  match e with SocketConnect _ _ => True | _ => False end.

(** What everything but [tryConnect] guarantees: the cached command list
    stays and no socket is dialled. *)
Record no_dial (s s' : Sys) : Prop := {
  nd_cache : availableCommands s'.1 = availableCommands s.1;
  nd_log : ∃ log, effects s'.2 = effects s.2 ++ log ∧ Forall (λ te, ¬ is_dial te.2) log;
}.

(** ** Sample histories *)

(** The game is launched on the first [connect]; [list_commands] is then
    sent (request [uuid-3], promise 3, timer 4) and answered. *)
Definition history_answered : list Call :=
  [CallConnect no_options;
   CallSendCommand "list_commands" ∅ None;
   Callback (SocketData (bytes_of ("answer to uuid-3 with two commands" +:+ LF)))].

(** A request is sent and not answered; the client is killed and the
    dead socket closes. *)
Definition history_killed : list Call :=
  [CallConnect no_options;
   CallSendCommand "screenshot" ∅ None;
   CallKillGame;
   Callback SocketClose].

(** The response the game sends for request [uuid-3]. *)
Definition two_commands_response : GameResponse :=
  {| id := "uuid-3"; success := true; data := Some two_commands;
     image := None; error := None |}.

(** ** Samples for the tool layer *)

Definition screenshot_params : GameCommandParams :=
  {| param_command := "screenshot"; param_args := None; param_timeout_ms := None |}.

(** The socket closes during the suspension with index 1. *)
Definition env_closing : Env :=
  env_of (λ n, match n with
               | 1%nat => {| turn_ms := 40; turn_events := [SocketClose];
                             turn_dial := None; turn_spawn := None;
                             turn_kill := Some true |}
               | _ => quiet
               end).

(** The game answers request [uuid-1] with an image. *)
Definition env_png : Env :=
  {| JSON_parse := λ line,
       if String.eqb line "answer to uuid-1 with an image" then
         Some (JObject {[ "id" := JString "uuid-1"; "success" := JBool true;
                          "image" := JString "iVBORw0KGgo=" ]})
       else None;
     Buffer_toString := sample_toString;
     randomUUID := sample_uuid;
     turn := λ n, match n with
                  | 1%nat => {| turn_ms := 40;
                                turn_events :=
                                  [SocketData (bytes_of ("answer to uuid-1 with an image"
                                                         +:+ LF))];
                                turn_dial := None; turn_spawn := None;
                                turn_kill := Some true |}
                  | _ => quiet
                  end |}.

(** A platform that decodes the one image of the examples. *)
Definition sample_platform : Platform :=
  {| Buffer_from_base64 := λ text,
       if String.eqb text "iVBORw0KGgo=" then inl [137; 80; 78; 71; 13; 10; 26; 10]
       else inl [];
     JSON_stringify := λ _, "{}" |}.

(** * Properties *)

(** ** Sending while not connected *)

Lemma isConnected_true (c : GameClient) :
  isConnected c = true ↔ state c = connected ∧ socket c ≠ None.
Proof.
  unfold isConnected. rewrite andb_true_iff, !bool_decide_eq_true. tauto.
Qed.

Lemma isConnected_state (c : GameClient) :
  state c ≠ connected → isConnected c = false.
Proof.
  intros H. destruct (isConnected c) eqn:E; [|done].
  apply isConnected_true in E. tauto.
Qed.

Lemma sendCommand_not_connected_guard (env : Env) (command : string)
    (args : gmap string Json) (timeoutMs : option Z) (c : GameClient) (rt : Runtime) :
  state c ≠ connected →
  sendCommand env command args timeoutMs (c, rt)
  = (Immediate (failure "" not_connected), (c, rt)).
Proof.
  intros H. unfold sendCommand. by rewrite (isConnected_state c H).
Qed.

(** C7. A [sendCommand] call made while the state is not [connected]
    returns at once, without throwing, the failure response with the
    message "Not connected. Call game_connect first."; the client and the
    runtime are as before: nothing is registered in the pending table, no
    timer is armed, nothing is written. *)
Theorem sendCommand_not_connected (env : Env) (command : string)
    (args : gmap string Json) (timeoutMs : option Z) (c : GameClient) (rt : Runtime) :
  state c ≠ connected →
  sendCommand env command args timeoutMs (c, rt)
  = (Immediate {| id := ""; success := false; data := None; image := None;
                  error := Some "Not connected. Call game_connect first." |},
     (c, rt)).
Proof.
  intros H. unfold sendCommand. by rewrite (isConnected_state c H).
Qed.

Lemma sendCommand_not_connected_witness :
  sendCommand env_listening "screenshot" ∅ (Some 10000) fresh_client
  = (Immediate {| id := ""; success := false; data := None; image := None;
                  error := Some "Not connected. Call game_connect first." |},
     fresh_client).
Proof.
  apply (sendCommand_not_connected env_listening "screenshot" ∅ (Some 10000)
           (new_GameClient sample_config) empty_Runtime).
  simpl. discriminate.
Defined.

(** ** Lines that are dropped *)

(** C9. A received line that fails validation (malformed JSON, or a value
    the response schema rejects), or that decodes to a response whose
    identifier has no pending entry, is dropped: [handleMessage] returns
    normally, the client is unchanged (in particular every pending entry
    keeps its callback and its timer handle), and so are the armed timers,
    the settled promises and the writes; the only trace is the console
    message of the first case. *)
Theorem handleMessage_drops (env : Env) (line : string) (c : GameClient) (rt : Runtime) :
  (decode env line = None
   ∨ ∃ response, decode env line = Some response
                 ∧ pendingRequests c !! id response = None) →
  ∃ rt', handleMessage env line (c, rt) = (c, rt')
         ∧ timers rt' = timers rt
         ∧ promises rt' = promises rt
         ∧ writes rt' = writes rt
         ∧ (rt' = rt
            ∨ rt' = perform (ConsoleError "[GameClient] Failed to parse message:") rt).
Proof.
  unfold decode, handleMessage. intros [Hbad | (response & Hok & Hnone)].
  - destruct (JSON_parse env line) as [parsed|]; simpl in Hbad.
    + rewrite Hbad. eexists. split; [reflexivity|]. auto.
    + eexists. split; [reflexivity|]. auto.
  - destruct (JSON_parse env line) as [parsed|]; simpl in Hok; [|done].
    rewrite Hok, Hnone. eexists. split; [reflexivity|]. auto.
Qed.

Lemma handleMessage_drops_witness :
  ∃ rt', handleMessage env_listening "answer to unknown-id" sys_one_pending
         = (sys_one_pending.1, rt')
         ∧ timers rt' = timers sys_one_pending.2
         ∧ promises rt' = promises sys_one_pending.2
         ∧ writes rt' = writes sys_one_pending.2
         ∧ (rt' = sys_one_pending.2
            ∨ rt' = perform (ConsoleError "[GameClient] Failed to parse message:")
                      sys_one_pending.2).
Proof.
  apply (handleMessage_drops env_listening "answer to unknown-id"
           sys_one_pending.1 sys_one_pending.2).
  right. eexists. split; vm_compute; reflexivity.
Defined.

(** ** Falsy options *)

Lemma connect_options_ext (env : Env) (o1 o2 : ConnectOptions) (s : Sys) :
  or_string (opt_projectPath o1) (projectPath (config s.1))
  = or_string (opt_projectPath o2) (projectPath (config s.1)) →
  or_number (opt_port o1) (port (config s.1))
  = or_number (opt_port o2) (port (config s.1)) →
  or_number (opt_timeoutMs o1) (connectTimeoutMs (config s.1))
  = or_number (opt_timeoutMs o2) (connectTimeoutMs (config s.1)) →
  opt_restart o1 = opt_restart o2 →
  connect env o1 s = connect env o2 s.
Proof.
  intros Hpath Hport Htime Hrestart. unfold connect.
  by rewrite Hpath, Hport, Htime, Hrestart.
Qed.

(** C10. In [connect], a falsy option (project path [""], port [0],
    timeout [0]) is replaced by the configured value, so the call behaves
    exactly as the call without that option; in [sendCommand], a timeout
    of [0] is replaced by the configured command timeout: the call is the
    call without a timeout, and the timer it arms carries the configured
    timeout. *)
Theorem falsy_options_use_defaults (env : Env) (s : Sys)
    (path : option string) (restart : option bool) (to_port timeoutMs : option Z)
    (command : string) (args : gmap string Json) :
  (or_string (Some "") (projectPath (config s.1)) = projectPath (config s.1)
   ∧ or_number (Some 0) (port (config s.1)) = port (config s.1)
   ∧ or_number (Some 0) (connectTimeoutMs (config s.1)) = connectTimeoutMs (config s.1)
   ∧ or_number (Some 0) (commandTimeoutMs (config s.1)) = commandTimeoutMs (config s.1))
  ∧ connect env {| opt_projectPath := Some ""; opt_restart := restart;
                   opt_port := to_port; opt_timeoutMs := timeoutMs |} s
    = connect env {| opt_projectPath := None; opt_restart := restart;
                     opt_port := to_port; opt_timeoutMs := timeoutMs |} s
  ∧ connect env {| opt_projectPath := path; opt_restart := restart;
                   opt_port := Some 0; opt_timeoutMs := timeoutMs |} s
    = connect env {| opt_projectPath := path; opt_restart := restart;
                     opt_port := None; opt_timeoutMs := timeoutMs |} s
  ∧ connect env {| opt_projectPath := path; opt_restart := restart;
                   opt_port := to_port; opt_timeoutMs := Some 0 |} s
    = connect env {| opt_projectPath := path; opt_restart := restart;
                     opt_port := to_port; opt_timeoutMs := None |} s
  ∧ sendCommand env command args (Some 0) s = sendCommand env command args None s
  ∧ ∀ p h s', sendCommand env command args (Some 0) s = (Pending p h, s') →
              timer_timeout <$> timers s'.2 !! h = Some (commandTimeoutMs (config s.1)).
Proof.
  split; [done|].
  repeat split; try (by apply connect_options_ext).
  intros p h s'. destruct s as [c rt]. unfold sendCommand.
  destruct (isConnected c); [|done].
  destruct (socket c); [|done].
  intros [= <- <- <-]. simpl. by rewrite lookup_insert_eq.
Qed.

(** ** Disconnecting *)

Lemma settle_old {A} (p q : nat) (v w : Settlement A) (m : gmap nat (Settlement A)) :
  m !! q = Some w → settle p v m !! q = Some w.
Proof.
  intros H. unfold settle. destruct (m !! p) eqn:E; [done|].
  rewrite lookup_insert_ne; [done|]. intros ->. congruence.
Qed.

Lemma settle_new {A} (p : nat) (v : Settlement A) (m : gmap nat (Settlement A)) :
  m !! p = None → settle p v m !! p = Some v.
Proof. intros H. unfold settle. rewrite H. apply lookup_insert_eq. Qed.

Lemma settle_other {A} (p q : nat) (v : Settlement A) (m : gmap nat (Settlement A)) :
  p ≠ q → settle p v m !! q = m !! q.
Proof.
  intros H. unfold settle. destruct (m !! p); [done|]. by rewrite lookup_insert_ne.
Qed.

Lemma reject_all_old (l : list (string * PendingRequest)) (rt : Runtime)
    (q : nat) (w : Settlement GameResponse) :
  promises rt !! q = Some w → promises (foldl reject_pending rt l) !! q = Some w.
Proof.
  revert rt. induction l as [|x l IH]; intros rt H; [done|].
  simpl. apply IH. simpl. by apply settle_old.
Qed.

Lemma reject_all_rejects (l : list (string * PendingRequest)) (rt : Runtime)
    (i : string) (pending : PendingRequest) :
  (i, pending) ∈ l →
  promises rt !! promise pending = None →
  promises (foldl reject_pending rt l) !! promise pending = Some (Rejected connection_lost).
Proof.
  revert rt. induction l as [|x l IH]; intros rt Hin Hopen.
  - by apply not_elem_of_nil in Hin.
  - simpl. destruct (decide (promise x.2 = promise pending)) as [Heq | Hne].
    + apply reject_all_old. simpl. rewrite Heq. by apply settle_new.
    + apply elem_of_cons in Hin as [Heq | Hin]; [by subst x|].
      apply IH; [done|]. simpl. by rewrite settle_other.
Qed.

Lemma reject_all_clears (l : list (string * PendingRequest)) (rt : Runtime)
    (i : string) (pending : PendingRequest) :
  (i, pending) ∈ l →
  timers (foldl reject_pending rt l) !! timeoutHandle pending = None.
Proof.
  assert (Hkeep : ∀ l rt h, timers rt !! h = None →
                            timers (foldl reject_pending rt l) !! h = None).
  { clear. induction l as [|x l IH]; intros rt h H; [done|].
    simpl. apply IH. simpl. destruct (decide (timeoutHandle x.2 = h)) as [->|Hne].
    - apply lookup_delete_eq.
    - by rewrite lookup_delete_ne. }
  revert rt. induction l as [|x l IH]; intros rt Hin.
  - by apply not_elem_of_nil in Hin.
  - simpl. apply elem_of_cons in Hin as [Heq | Hin]; [|by apply IH].
    subst x. apply Hkeep. simpl. apply lookup_delete_eq.
Qed.

(** C2, as the code has it. When the socket closes or reports an error,
    every request in the pending table whose call is still open is ended
    by *rejecting* its promise with the error "Connection lost during
    command execution" (the caller's [await] throws; no failure response
    is produced), its timer is cancelled, and afterwards the pending table
    is empty, the state is [disconnected], the socket handle and the
    buffer are cleared. *)
Theorem disconnect_rejects_pending (env : Env) (e : Event) (s : Sys)
    (i : string) (pending : PendingRequest) :
  (e = SocketClose ∨ ∃ msg, e = SocketError msg) →
  pendingRequests s.1 !! i = Some pending →
  promises s.2 !! promise pending = None →
  let s' := handleEvent env s e in
  promises s'.2 !! promise pending
  = Some (Rejected "Connection lost during command execution")
  ∧ timers s'.2 !! timeoutHandle pending = None
  ∧ pendingRequests s'.1 = ∅
  ∧ state s'.1 = disconnected
  ∧ socket s'.1 = None
  ∧ buffer s'.1 = "".
Proof.
  intros He Hin Hopen. destruct s as [c rt]. simpl in Hin, Hopen.
  assert (Hl : (i, pending) ∈ map_to_list (pendingRequests c))
    by by apply elem_of_map_to_list.
  destruct He as [-> | [msg ->]]; simpl;
    (split; [by eapply reject_all_rejects|]);
    (split; [by eapply reject_all_clears|]); done.
Qed.

Lemma disconnect_rejects_pending_witness :
  let s' := handleEvent env_listening sys_one_pending SocketClose in
  promises s'.2 !! 1%nat = Some (Rejected "Connection lost during command execution")
  ∧ timers s'.2 !! 2%nat = None
  ∧ pendingRequests s'.1 = ∅
  ∧ state s'.1 = disconnected
  ∧ socket s'.1 = None
  ∧ buffer s'.1 = "".
Proof.
  apply (disconnect_rejects_pending env_listening SocketClose sys_one_pending
           "uuid-1" {| promise := 1; timeoutHandle := 2 |}).
  - by left.
  - vm_compute. reflexivity.
  - vm_compute. reflexivity.
Defined.

(** C2 as stated fails: with one request pending, a socket close ends
    the call by a rejection, not by a failure response. *)
Lemma disconnect_failure_result_counterexample :
  pendingRequests sys_one_pending.1 !! "uuid-1"
  = Some {| promise := 1; timeoutHandle := 2 |}
  ∧ promises sys_one_pending.2 !! 1%nat = None
  ∧ ¬ ∃ response,
        promises (handleEvent env_listening sys_one_pending SocketClose).2 !! 1%nat
        = Some (Resolved response).
Proof.
  split; [vm_compute; reflexivity|]. split; [vm_compute; reflexivity|].
  intros [response H]. vm_compute in H. discriminate H.
Qed.

(** ** Timeouts *)

(** Callbacks never arm or re-arm a timer: they only cancel. *)
Lemma handleMessage_timers (env : Env) (line : string) (s : Sys) :
  timers (handleMessage env line s).2 ⊆ timers s.2.
Proof.
  destruct s as [c rt]. unfold handleMessage.
  destruct (JSON_parse env line) as [parsed|]; [|done].
  destruct (GameResponseSchema_parse parsed) as [response|]; [|done].
  destruct (pendingRequests c !! id response); [|done].
  simpl. apply delete_subseteq.
Qed.

Lemma processBuffer_loop_timers (fuel : nat) (env : Env) (s : Sys) :
  timers (processBuffer_loop fuel env s).2 ⊆ timers s.2.
Proof.
  revert s. induction fuel as [|fuel IH]; intros [c rt]; [done|].
  cbn [processBuffer_loop]. destruct (String.index 0 LF (buffer c)); [|done].
  etrans; [apply IH|]. destruct (trim_is_empty _); [done|].
  etrans; [apply handleMessage_timers|done].
Qed.

Lemma reject_all_timers (l : list (string * PendingRequest)) (rt : Runtime) :
  timers (foldl reject_pending rt l) ⊆ timers rt.
Proof.
  revert rt. induction l as [|x l IH]; intros rt; [done|].
  simpl. etrans; [apply IH|]. simpl. apply delete_subseteq.
Qed.

Lemma handleEvent_timers (env : Env) (s : Sys) (e : Event) :
  timers (handleEvent env s e).2 ⊆ timers s.2.
Proof.
  destruct s as [c rt]. destruct e; simpl.
  - etrans; [apply processBuffer_loop_timers|]. done.
  - apply reject_all_timers.
  - etrans; [apply reject_all_timers|]. done.
  - destruct (timers rt !! h); [|done]. simpl. apply delete_subseteq.
  - destruct (writes rt !! k); [|done]. simpl. apply delete_subseteq.
  - destruct (children rt !! pid); done.
  - destruct (children rt !! pid); [|done]. simpl. by case_decide.
Qed.

Lemma events_timers (env : Env) (evs : list Event) (s : Sys) :
  timers (foldl (handleEvent env) s evs).2 ⊆ timers s.2.
Proof.
  revert s. induction evs as [|e evs IH]; intros s; [done|].
  simpl. etrans; [apply IH|]. apply handleEvent_timers.
Qed.

(** ** The receive buffer *)

Lemma substring_length_le (s : string) (n m : nat) :
  (String.length (String.substring n m s) ≤ m)%nat.
Proof.
  revert n m. induction s as [|a s IH]; intros [|n] [|m]; simpl; try lia.
  - specialize (IH 0%nat m). lia.
  - apply (IH n 0%nat).
  - apply (IH n (S m)).
Qed.

Lemma handleMessage_buffer (env : Env) (line : string) (s : Sys) :
  buffer (handleMessage env line s).1 = buffer s.1.
Proof.
  destruct s as [c rt]. unfold handleMessage.
  destruct (JSON_parse env line) as [parsed|]; [|done].
  destruct (GameResponseSchema_parse parsed) as [response|]; [|done].
  by destruct (pendingRequests c !! id response).
Qed.

(** The fuel [processBuffer] gives its loop suffices: the loop ends
    because no line terminator is left in the buffer. *)
Lemma processBuffer_loop_exhausts (fuel : nat) (env : Env) (s : Sys) :
  (String.length (buffer s.1) < fuel)%nat →
  String.index 0 LF (buffer (processBuffer_loop fuel env s).1) = None.
Proof.
  revert s. induction fuel as [|fuel IH]; intros [c rt] Hfuel; [simpl in Hfuel; lia|].
  cbn [processBuffer_loop]. simpl in Hfuel.
  destruct (String.index 0 LF (buffer c)) as [n|] eqn:Hindex; [|done].
  apply IH.
  assert (Hlen : (String.length
                    (String.substring (S n) (String.length (buffer c) - S n) (buffer c))
                  < fuel)%nat).
  { pose proof (substring_length_le (buffer c) (S n) (String.length (buffer c) - S n)).
    destruct (buffer c); [done|]. simpl in *. lia. }
  destruct (trim_is_empty _); [done|]. by rewrite handleMessage_buffer.
Qed.

Lemma processBuffer_exhausts (env : Env) (s : Sys) :
  String.index 0 LF (buffer (processBuffer env s).1) = None.
Proof. unfold processBuffer. apply processBuffer_loop_exhausts. lia. Qed.

(** ** What callbacks and suspensions preserve *)

Lemma advances_refl (s : Sys) : advances s s.
Proof. by split. Qed.

Lemma advances_trans (s1 s2 s3 : Sys) :
  advances s1 s2 → advances s2 s3 → advances s1 s3.
Proof.
  intros [] []. split; [lia|auto|congruence|congruence|congruence].
Qed.

Lemma sleeps_of_snoc (t : Z) (e : Effect) (log : list (Z * Effect)) :
  (∀ ms, e ≠ Sleep ms) → sleeps_of (log ++ [(t, e)]) = sleeps_of log.
Proof.
  intros H. unfold sleeps_of. rewrite omap_app. simpl.
  destruct e; try by rewrite app_nil_r. by destruct (H ms).
Qed.

(** Closes [advances s s'] when [s'] differs from [s] by fields the
    relation ignores, or by a console message. *)
Ltac advances_by_frame :=
  split; simpl; rewrite ?sleeps_of_snoc by done; solve [done | lia | congruence].

Lemma handleMessage_advances (env : Env) (line : string) (s : Sys) :
  advances s (handleMessage env line s).
Proof.
  destruct s as [c rt]. unfold handleMessage.
  destruct (JSON_parse env line) as [parsed|]; [|advances_by_frame].
  destruct (GameResponseSchema_parse parsed) as [response|]; [|advances_by_frame].
  destruct (pendingRequests c !! id response); advances_by_frame.
Qed.

Lemma processBuffer_loop_advances (fuel : nat) (env : Env) (s : Sys) :
  advances s (processBuffer_loop fuel env s).
Proof.
  revert s. induction fuel as [|fuel IH]; intros [c rt]; [apply advances_refl|].
  cbn [processBuffer_loop]. destruct (String.index 0 LF (buffer c)); [|apply advances_refl].
  eapply advances_trans; [|apply IH]. destruct (trim_is_empty _); [advances_by_frame|].
  eapply advances_trans; [|apply handleMessage_advances]. advances_by_frame.
Qed.

Lemma reject_all_frame (l : list (string * PendingRequest)) (rt : Runtime) :
  now (foldl reject_pending rt l) = now rt
  ∧ effects (foldl reject_pending rt l) = effects rt
  ∧ writes (foldl reject_pending rt l) = writes rt.
Proof.
  revert rt. induction l as [|x l IH]; intros rt; [done|].
  simpl. destruct (IH (reject_pending rt x)) as (-> & -> & ->). done.
Qed.

Lemma handleDisconnect_advances (s : Sys) : advances s (handleDisconnect s).
Proof.
  destruct s as [c rt]. unfold handleDisconnect.
  destruct (reject_all_frame (map_to_list (pendingRequests c)) rt) as (Hn & He & Hw).
  split; simpl; [lia|done|congruence|congruence|done].
Qed.

Lemma handleEvent_advances (env : Env) (s : Sys) (e : Event) :
  advances s (handleEvent env s e).
Proof.
  destruct s as [c rt]. destruct e; cbn [handleEvent].
  - eapply advances_trans; [|apply processBuffer_loop_advances]. advances_by_frame.
  - apply handleDisconnect_advances.
  - eapply advances_trans; [|apply handleDisconnect_advances]. advances_by_frame.
  - unfold timerFired. destruct (timers rt !! h); advances_by_frame.
  - unfold writeFailed. destruct (writes rt !! k); advances_by_frame.
  - unfold processError. destruct (children rt !! pid); advances_by_frame.
  - unfold processExit. destruct (children rt !! pid); [|advances_by_frame].
    case_decide; advances_by_frame.
Qed.

Lemma events_advances (env : Env) (evs : list Event) (s : Sys) :
  advances s (foldl (handleEvent env) s evs).
Proof.
  revert s. induction evs as [|e evs IH]; intros s; [apply advances_refl|].
  simpl. eapply advances_trans; [apply handleEvent_advances|apply IH].
Qed.

(** A suspension lasts at least its nominal time. *)
Lemma suspend_advances (env : Env) (nominal : Z) (s : Sys) :
  0 ≤ nominal →
  advances s (suspend env nominal s).2
  ∧ now s.2 + nominal ≤ now (suspend env nominal s).2.2.
Proof.
  intros Hn. unfold suspend. cbn [snd].
  set (s1 := (s.1, elapse _ s.2)).
  pose proof (events_advances env (turn_events (turn env (tick s.2))) s1) as [H1 H2 H3 H4 H5].
  subst s1. simpl in *. split; [split|]; simpl; [lia|done|done|done|done|lia].
Qed.

Lemma sleep_advances (env : Env) (ms : Z) (s : Sys) :
  now s.2 + ms ≤ now (sleep env ms s).2
  ∧ (state s.1 ≠ connected → state (sleep env ms s).1 ≠ connected)
  ∧ sleeps_of (effects (sleep env ms s).2) = sleeps_of (effects s.2) ++ [(now s.2, ms)]
  ∧ writes (sleep env ms s).2 = writes s.2
  ∧ config (sleep env ms s).1 = config s.1.
Proof.
  unfold sleep.
  destruct (suspend_advances env (Z.max 0 ms) (s.1, perform (Sleep ms) s.2))
    as [[H1 H2 H3 H4 H5] H6]; [lia|].
  simpl in *. split; [lia|]. split; [done|]. split; [|done].
  rewrite H3. unfold sleeps_of. by rewrite omap_app.
Qed.

Lemma tryConnect_advances (env : Env) (to_port : Z) (s : Sys) :
  advances s (tryConnect env to_port s).2.
Proof.
  destruct s as [c rt]. unfold tryConnect.
  set (rt1 := perform _ _).
  destruct (suspend_advances env 0 (c, rt1)) as [[H1 H2 H3 H4 H5] _]; [lia|].
  destruct (suspend env 0 (c, rt1)) as [t [c2 rt2]]. subst rt1. simpl in *.
  rewrite sleeps_of_snoc in H3 by done.
  destruct (turn_dial t); advances_by_frame.
Qed.

Lemma launchGame_advances (env : Env) (path : string) (s : Sys) :
  advances s (launchGame env path s).2.
Proof.
  destruct s as [c rt]. unfold launchGame.
  destruct (turn_spawn _); [apply advances_refl|].
  set (s1 := (set_gameProcess _ c, _)).
  destruct (suspend_advances env 100 s1) as [[H1 H2 H3 H4 H5] _]; [lia|].
  destruct (suspend env 100 s1).2 as [c2 rt2]. subst s1. simpl in *.
  rewrite sleeps_of_snoc in H3 by done.
  destruct (children rt2 !! fresh rt ≫= launch) as [[|]|]; advances_by_frame.
Qed.

(** Inside the loop of [connect] the state is never [connected], so the
    capability request is answered by the guard of [sendCommand]. *)
Lemma fetchCommands_not_connected (env : Env) (s : Sys) :
  state s.1 ≠ connected → fetchCommands env s = Some ([], s).
Proof.
  intros H. destruct s as [c rt]. unfold fetchCommands.
  by rewrite sendCommand_not_connected_guard.
Qed.

(** ** The backoff schedule *)

Lemma waitTime_bounds (elapsed : Z) :
  0 ≤ elapsed → 100 ≤ waitTime elapsed ≤ 1000.
Proof.
  intros H. unfold waitTime.
  assert (0 ≤ elapsed / 1000) by (apply Z.div_pos; lia).
  assert (1 ≤ 2 ^ (elapsed / 1000)).
  { change 1 with (2 ^ 0). apply Z.pow_le_mono_r; lia. }
  lia.
Qed.

Lemma waitTime_mono (e1 e2 : Z) :
  0 ≤ e1 → e1 ≤ e2 → waitTime e1 ≤ waitTime e2.
Proof.
  intros H0 H. unfold waitTime.
  assert (0 ≤ e1 / 1000) by (apply Z.div_pos; lia).
  assert (e1 / 1000 ≤ e2 / 1000) by (apply Z.div_le_mono; lia).
  assert (2 ^ (e1 / 1000) ≤ 2 ^ (e2 / 1000)) by (apply Z.pow_le_mono_r; lia).
  lia.
Qed.

(** ** The loop of [connect] *)

(** Started in a state other than [connected], with enough fuel, the loop
    returns; a success carries the empty command list; the waits it
    started are the backoff waits, one per retry, each computed from the
    time elapsed since the loop began. *)
Lemma connectLoop_spec (fuel : nat) (env : Env) (path : string)
    (to_port timeoutMs startTime : Z) (lastError : option JsError) (s : Sys) :
  state s.1 ≠ connected →
  startTime ≤ now s.2 →
  Z.max 0 (timeoutMs - (now s.2 - startTime)) < Z.of_nat fuel →
  ∃ r s' elapsed,
    connectLoop fuel env path to_port timeoutMs startTime lastError s = Some (r, s')
    ∧ (result_connected r = true →
       result_commands r = Some [] ∧ availableCommands s'.1 = []
       ∧ state s'.1 = connected)
    ∧ writes s'.2 = writes s.2
    ∧ sleeps_of (effects s'.2)
      = sleeps_of (effects s.2) ++ ((λ e, (startTime + e, waitTime e)) <$> elapsed)
    ∧ Forall (Z.le (now s.2 - startTime)) elapsed
    ∧ StronglySorted Z.le elapsed.
Proof.
  revert lastError s. induction fuel as [|fuel IH]; intros lastError s Hst Hnow Hfuel; [lia|].
  cbn [connectLoop]. destruct (now s.2 - startTime <? timeoutMs) eqn:Hcond.
  2:{ eexists _, _, []. split; [reflexivity|]. simpl.
      rewrite app_nil_r. repeat split; try done; constructor. }
  apply Z.ltb_lt in Hcond.
  pose proof (tryConnect_advances env to_port s) as [A1 A2 A3 A4 _].
  destruct (tryConnect env to_port s) as [dialled s1]. cbn [snd] in *.
  destruct dialled as [err|].
  2:{ rewrite fetchCommands_not_connected by auto. destruct s1 as [c1 rt1].
      eexists _, _, []. split; [reflexivity|]. simpl in *.
      rewrite app_nil_r. repeat split; try done; constructor. }
  case_bool_decide.
  2:{ eexists _, _, []. split; [reflexivity|]. simpl.
      rewrite app_nil_r. repeat split; try done; constructor. }
  assert (∃ launched s2,
            match gameProcess s1.1 with
            | Some _ => (None, s1)
            | None => launchGame env path s1
            end = (launched, s2) ∧ advances s1 s2) as (launched & s2 & -> & [B1 B2 B3 B4 _]).
  { destruct (gameProcess s1.1).
    - eexists _, _. split; [reflexivity|apply advances_refl].
    - pose proof (launchGame_advances env path s1).
      destruct (launchGame env path s1). by eexists _, _. }
  destruct launched as [msg|].
  { eexists _, _, []. split; [reflexivity|]. simpl.
    rewrite app_nil_r. repeat split; try done; try constructor; congruence. }
  set (elapsed := now s2.2 - startTime).
  destruct (sleep_advances env (waitTime elapsed) s2) as (C1 & C2 & C3 & C4 & _).
  assert (100 ≤ waitTime elapsed ≤ 1000) by (apply waitTime_bounds; lia).
  destruct (IH (Some err) (sleep env (waitTime elapsed) s2))
    as (r & s' & rest & Hrun & Hok & Hwr & Hsl & Hlow & Hsorted); [auto|lia|lia|].
  exists r, s', (elapsed :: rest). split; [exact Hrun|]. split; [exact Hok|].
  split; [congruence|]. split; [|split].
  - rewrite Hsl, C3, B3, A3. simpl. rewrite <- app_assoc. simpl.
    do 3 f_equal. subst elapsed. lia.
  - constructor; [lia|]. eapply Forall_impl; [exact Hlow|]. simpl. lia.
  - constructor; [exact Hsorted|]. eapply Forall_impl; [exact Hlow|]. simpl. lia.
Qed.

(** ** [killGame] *)

Lemma kill_frame (env : Env) (pid : nat) (sig : Signal) (rt : Runtime) :
  now (kill env pid sig rt).2 = now rt
  ∧ sleeps_of (effects (kill env pid sig rt).2) = sleeps_of (effects rt)
  ∧ tick (kill env pid sig rt).2 = tick rt.
Proof.
  unfold kill. destruct (turn_kill _) as [[|]|]; simpl;
    by rewrite sleeps_of_snoc.
Qed.

(** Callbacks never open a socket. *)
Lemma handleMessage_socket (env : Env) (line : string) (s : Sys) :
  socket (handleMessage env line s).1 = socket s.1.
Proof.
  destruct s as [c rt]. unfold handleMessage.
  destruct (JSON_parse env line) as [parsed|]; [|done].
  destruct (GameResponseSchema_parse parsed) as [response|]; [|done].
  by destruct (pendingRequests c !! id response).
Qed.

Lemma processBuffer_loop_socket (fuel : nat) (env : Env) (s : Sys) :
  socket (processBuffer_loop fuel env s).1 = socket s.1.
Proof.
  revert s. induction fuel as [|fuel IH]; intros [c rt]; [done|].
  cbn [processBuffer_loop]. destruct (String.index 0 LF (buffer c)); [|done].
  rewrite IH. destruct (trim_is_empty _); [done|]. by rewrite handleMessage_socket.
Qed.

Lemma handleEvent_socket (env : Env) (s : Sys) (e : Event) :
  socket s.1 = None → socket (handleEvent env s e).1 = None.
Proof.
  intros H. destruct s as [c rt]. destruct e; cbn [handleEvent]; try done.
  - unfold processBuffer. by rewrite processBuffer_loop_socket.
  - unfold timerFired. by destruct (timers rt !! h).
  - unfold writeFailed. by destruct (writes rt !! k).
  - unfold processError. by destruct (children rt !! pid).
  - unfold processExit. by destruct (children rt !! pid).
Qed.

Lemma sleep_socket (env : Env) (ms : Z) (s : Sys) :
  socket s.1 = None → socket (sleep env ms s).1 = None.
Proof.
  intros H. unfold sleep, suspend. cbn [snd fst].
  generalize (turn_events (turn env (tick (perform (Sleep ms) s.2)))).
  generalize (elapse (Z.max 0 ms + Z.of_N (turn_ms (turn env (tick (perform (Sleep ms) s.2)))))
                (perform (Sleep ms) s.2)).
  intros rt evs. assert (Hs : socket (s.1, rt).1 = None) by done.
  revert Hs. generalize (s.1, rt). clear.
  induction evs as [|e evs IH]; intros s0 H0; [done|].
  simpl. apply IH. by apply handleEvent_socket.
Qed.

(** [killGame] always ends in [disconnected] with no socket, no child, an
    empty buffer and an empty pending table; the only wait it may start is
    the 500ms grace period. *)
Lemma killGame_spec (env : Env) (s : Sys) :
  let s' := killGame env s in
  state s'.1 = disconnected ∧ socket s'.1 = None ∧ gameProcess s'.1 = None
  ∧ buffer s'.1 = "" ∧ pendingRequests s'.1 = ∅
  ∧ config s'.1 = config s.1
  ∧ now s.2 ≤ now s'.2
  ∧ ∃ grace, (grace = [] ∨ ∃ t, grace = [(t, 500)])
             ∧ sleeps_of (effects s'.2) = sleeps_of (effects s.2) ++ grace.
Proof.
  destruct s as [c rt]. unfold killGame.
  set (s1 := match socket c with
             | Some sock => (set_socket None c, perform (SocketDestroy sock) rt)
             | None => (c, rt)
             end).
  assert (Hs1 : sleeps_of (effects s1.2) = sleeps_of (effects rt)
                ∧ socket s1.1 = None ∧ config s1.1 = config c ∧ now s1.2 = now rt).
  { subst s1. destruct (socket c) eqn:E; simpl; by rewrite ?sleeps_of_snoc. }
  destruct s1 as [c1 rt1]. simpl in Hs1. destruct Hs1 as (Hs1 & Hsock & Hcfg & Hnow).
  destruct (gameProcess c1) as [pid|] eqn:Hproc.
  2:{ simpl. split_and!; try done; [lia|]. exists []. rewrite app_nil_r. auto. }
  destruct (kill_frame env pid SIGTERM rt1) as (Kn & K & _).
  destruct (kill env pid SIGTERM rt1) as [returned rt2]. simpl in K, Kn.
  destruct returned.
  2:{ simpl. split_and!; try done; [lia|].
      exists []. rewrite app_nil_r. split; [auto|congruence]. }
  destruct (sleep_advances env 500 (c1, rt2)) as (Sn & _ & S3 & _ & Hcfg3).
  pose proof (sleep_socket env 500 (c1, rt2) Hsock) as Hsock3.
  destruct (sleep env 500 (c1, rt2)) as [c3 rt3]. simpl in Sn, S3, Hsock3, Hcfg3.
  assert (Hend : ∀ s4 : Sys,
            s4 = match gameProcess c3 with
                 | Some pid' =>
                     if is_killed pid' rt3 then (c3, rt3)
                     else (c3, (kill env pid' SIGKILL rt3).2)
                 | None => (c3, rt3)
                 end →
            sleeps_of (effects s4.2) = sleeps_of (effects rt3) ∧ socket s4.1 = None
            ∧ config s4.1 = config c3 ∧ now s4.2 = now rt3).
  { intros s4 ->. destruct (gameProcess c3) as [pid'|]; [|done].
    destruct (is_killed pid' rt3); [done|]. simpl.
    by destruct (kill_frame env pid' SIGKILL rt3) as (? & ? & _). }
  specialize (Hend _ eq_refl).
  destruct (match gameProcess c3 with Some _ => _ | None => _ end) as [c4 rt4].
  simpl in *. destruct Hend as (Hend & Hsock4 & Hcfg4 & Hnow4).
  split_and!; try done; try congruence; [lia|].
  exists [(now rt2, 500)]. split; [eauto|congruence].
Qed.

(** ** [connect] *)

(** The state in which [connect] enters its loop, for a call that gets
    that far. *)
Lemma connect_unfold (env : Env) (options : ConnectOptions) (s : Sys) (path : string) :
  nonempty (or_string (opt_projectPath options) (projectPath (config s.1))) = Some path →
  let s0 := if bool_decide (opt_restart options = Some true) then killGame env s else s in
  let timeoutMs := or_number (opt_timeoutMs options) (connectTimeoutMs (config s.1)) in
  connect env options s
  = if isConnected s0.1 then
      Some ({| result_connected := true;
               result_commands := Some (availableCommands s0.1);
               result_error := None |}, s0)
    else
      connectLoop (loop_fuel timeoutMs) env path
        (or_number (opt_port options) (port (config s.1))) timeoutMs (now s0.2) None
        (set_state connecting s0.1, s0.2).
Proof. intros H. unfold connect. by rewrite H. Qed.

(** The loop as [connect] starts it. *)
Lemma connectLoop_entered (env : Env) (path : string) (to_port timeoutMs : Z) (s0 : Sys) :
  ∃ r s' elapsed,
    connectLoop (loop_fuel timeoutMs) env path to_port timeoutMs (now s0.2) None
      (set_state connecting s0.1, s0.2) = Some (r, s')
    ∧ (result_connected r = true →
       result_commands r = Some [] ∧ availableCommands s'.1 = []
       ∧ state s'.1 = connected)
    ∧ writes s'.2 = writes s0.2
    ∧ sleeps_of (effects s'.2)
      = sleeps_of (effects s0.2) ++ ((λ e, (now s0.2 + e, waitTime e)) <$> elapsed)
    ∧ Forall (Z.le 0) elapsed
    ∧ StronglySorted Z.le elapsed.
Proof.
  destruct (connectLoop_spec (loop_fuel timeoutMs) env path to_port timeoutMs
              (now s0.2) None (set_state connecting s0.1, s0.2))
    as (r & s' & elapsed & Hrun & Hok & Hwr & Hsl & Hlow & Hsorted).
  - done.
  - simpl. lia.
  - unfold loop_fuel. simpl. lia.
  - exists r, s', elapsed. split_and!; try done.
    eapply Forall_impl; [exact Hlow|]. simpl. lia.
Qed.

(** [connect] always returns: the loop is left after finitely many
    retries, and the capability request never keeps it waiting. *)
Lemma connect_returns (env : Env) (options : ConnectOptions) (s : Sys) :
  ∃ res, connect env options s = Some res.
Proof.
  destruct (nonempty (or_string (opt_projectPath options) (projectPath (config s.1))))
    as [path|] eqn:Hpath.
  - rewrite (connect_unfold env options s path Hpath). cbv zeta.
    set (s0 := if bool_decide _ then _ else _).
    destruct (isConnected s0.1); [by eexists|].
    destruct (connectLoop_entered env path
                (or_number (opt_port options) (port (config s.1)))
                (or_number (opt_timeoutMs options) (connectTimeoutMs (config s.1))) s0)
      as (r & s' & el & -> & _).
    by eexists.
  - unfold connect. rewrite Hpath. by eexists.
Qed.

Lemma waits_sorted (elapsed : list Z) :
  Forall (Z.le 0) elapsed → StronglySorted Z.le elapsed →
  StronglySorted Z.le (waitTime <$> elapsed).
Proof.
  intros Hpos Hsorted. induction Hsorted as [|e l Hl IH Hall]; [constructor|].
  apply Forall_cons in Hpos as [He Hpos]. simpl. constructor; [by apply IH|].
  apply Forall_fmap. eapply Forall_impl; [exact Hall|].
  intros e' Hle. simpl. by apply waitTime_mono.
Qed.

Lemma waits_bounded (elapsed : list Z) :
  Forall (Z.le 0) elapsed → Forall (λ w, w ≤ 1000) (waitTime <$> elapsed).
Proof.
  intros H. apply Forall_fmap. eapply Forall_impl; [exact H|].
  intros e He. simpl. by apply waitTime_bounds.
Qed.

(** The schedule when nothing ever listens, with the default 5000ms
    budget and every suspension 3ms late: the waits, then the times at
    which the first four were started. *)
Example backoff_when_always_refused :
  let log := effects (after fresh_client
                        (connect env_always_refused no_options fresh_client)).2 in
  (sleeps_of log).*2
  = [100; 100; 100; 100; 100; 100; 100; 100; 100;
     200; 200; 200; 200; 200; 400; 400; 400; 800; 1000]
  ∧ take 4 (sleeps_of log).*1 = [106; 212; 318; 424].
Proof. vm_compute. split; reflexivity. Qed.

(** ** [connect] while connected, and with [restart] *)

(** C4, as the code has it. A [connect] call made while the client is
    connected ([isConnected()]: state [connected] and a socket) and
    without [restart] returns at once, and client and runtime are
    unchanged, so nothing is dialled or launched and the state does not
    change. What it returns depends on the project path: when one is
    resolvable (a non-empty [projectPath] option or configured path), the
    result is [connected = true] with the cached command list; when none
    is resolvable, the result is the failure "No project path specified
    ...". *)
Theorem connect_while_connected (env : Env) (options : ConnectOptions) (s : Sys) :
  state s.1 = connected →
  socket s.1 ≠ None →
  opt_restart options ≠ Some true →
  connect env options s
  = Some (match nonempty (or_string (opt_projectPath options)
                            (projectPath (config s.1))) with
          | Some _ => {| result_connected := true;
                         result_commands := Some (availableCommands s.1);
                         result_error := None |}
          | None => {| result_connected := false;
                       result_commands := None;
                       result_error := Some no_project_path |}
          end, s).
Proof.
  intros Hstate Hsock Hrestart.
  destruct (nonempty _) as [path|] eqn:Hpath.
  - rewrite (connect_unfold env options s path Hpath). cbv zeta.
    rewrite bool_decide_eq_false_2 by done.
    assert (isConnected s.1 = true) as -> by by apply isConnected_true.
    done.
  - unfold connect. by rewrite Hpath.
Qed.

Lemma connect_while_connected_witness :
  connect env_listening no_options sys_connected
  = Some ({| result_connected := true;
             result_commands := Some (availableCommands sys_connected.1);
             result_error := None |}, sys_connected)
  ∧ connect env_listening no_options sys_launched
    = Some ({| result_connected := false; result_commands := None;
               result_error := Some no_project_path |}, sys_launched).
Proof.
  split.
  - rewrite (connect_while_connected env_listening no_options sys_connected).
    + vm_compute. reflexivity.
    + vm_compute. reflexivity.
    + vm_compute. discriminate.
    + discriminate.
  - rewrite (connect_while_connected env_listening no_options sys_launched).
    + vm_compute. reflexivity.
    + vm_compute. reflexivity.
    + vm_compute. discriminate.
    + discriminate.
Defined.

(** C4 as stated fails. A client without a configured project path is
    connected by a call that names the path; a second call without options
    and without [restart] finds the state [connected] and still answers
    [connected = false] with the project-path error. *)
Lemma connect_while_connected_counterexample :
  state sys_launched.1 = connected
  ∧ opt_restart no_options ≠ Some true
  ∧ connect env_listening no_options sys_launched
    = Some ({| result_connected := false; result_commands := None;
               result_error := Some no_project_path |}, sys_launched).
Proof.
  split; [vm_compute; reflexivity|]. split; [discriminate|].
  vm_compute. reflexivity.
Qed.

(** C3, as the code has it. With [restart] set and a resolvable project
    path, [connect] first tears down socket and target process exactly as
    [killGame] does, and then proceeds as the same call without [restart]
    does from the state [killGame] leaves. Without a resolvable project
    path the call fails with the project-path error before the restart is
    looked at: nothing is torn down. *)
Theorem connect_restart (env : Env) (options : ConnectOptions) (s : Sys) :
  opt_restart options = Some true →
  connect env options s
  = match nonempty (or_string (opt_projectPath options) (projectPath (config s.1))) with
    | Some _ =>
        connect env {| opt_projectPath := opt_projectPath options;
                       opt_restart := None;
                       opt_port := opt_port options;
                       opt_timeoutMs := opt_timeoutMs options |} (killGame env s)
    | None =>
        Some ({| result_connected := false; result_commands := None;
                 result_error := Some no_project_path |}, s)
    end.
Proof.
  intros Hrestart.
  destruct (killGame_spec env s) as (_ & _ & _ & _ & _ & Hcfg & _).
  destruct (nonempty _) as [path|] eqn:Hpath.
  2:{ unfold connect. by rewrite Hpath. }
  rewrite (connect_unfold env options s path Hpath). cbv zeta.
  rewrite bool_decide_eq_true_2 by done.
  rewrite (connect_unfold env _ (killGame env s) path); simpl; rewrite Hcfg; done.
Qed.

Lemma connect_restart_witness :
  connect env_listening (with_restart_and_path "/game") sys_launched
  = connect env_listening (with_path "/game") (killGame env_listening sys_launched).
Proof.
  rewrite (connect_restart env_listening (with_restart_and_path "/game") sys_launched eq_refl).
  cbv [with_restart_and_path with_path opt_projectPath opt_port opt_timeoutMs
       or_string nonempty String.eqb Ascii.eqb Bool.eqb].
  reflexivity.
Defined.

(** C3 as stated fails. The client is connected to a game it launched and
    no project path is resolvable: a [connect] call with [restart] returns
    the project-path error and leaves everything as it was (socket, child
    process, state, no effect performed), whereas [killGame] would have
    cleared the socket and the child. *)
Lemma connect_restart_counterexample :
  opt_restart with_restart = Some true
  ∧ connect env_listening with_restart sys_launched
    = Some ({| result_connected := false; result_commands := None;
               result_error := Some no_project_path |}, sys_launched)
  ∧ socket sys_launched.1 = Some 2%nat
  ∧ gameProcess sys_launched.1 = Some 1%nat
  ∧ state sys_launched.1 = connected
  ∧ socket (killGame env_listening sys_launched).1 = None
  ∧ gameProcess (killGame env_listening sys_launched).1 = None.
Proof.
  split_and!; vm_compute; reflexivity.
Qed.

(** ** The capability list *)

(** Every [connect] call that goes through the loop and succeeds reports
    the empty command list, whatever the target would answer: when
    [fetchCommands] runs the state is still [connecting] (or, after a
    disconnect callback, [disconnected]), so [sendCommand] returns its
    not-connected failure and nothing is written. *)
Lemma connect_success_without_commands (env : Env) (options : ConnectOptions) (s : Sys)
    (res : ConnectResult * Sys) :
  connect env options s = Some res →
  isConnected s.1 = false ∨ opt_restart options = Some true →
  result_connected res.1 = true →
  result_commands res.1 = Some [] ∧ availableCommands res.2.1 = [].
Proof.
  intros Hrun Hentry Hok.
  destruct (nonempty (or_string (opt_projectPath options) (projectPath (config s.1))))
    as [path|] eqn:Hpath.
  2:{ unfold connect in Hrun. rewrite Hpath in Hrun. injection Hrun as <-. done. }
  rewrite (connect_unfold env options s path Hpath) in Hrun. cbv zeta in Hrun.
  set (s0 := if bool_decide _ then _ else _) in Hrun.
  assert (Hs0 : isConnected s0.1 = false).
  { subst s0. case_bool_decide as Hr.
    - apply isConnected_state.
      destruct (killGame_spec env s) as (-> & _). done.
    - by destruct Hentry. }
  rewrite Hs0 in Hrun.
  destruct (connectLoop_entered env path
              (or_number (opt_port options) (port (config s.1)))
              (or_number (opt_timeoutMs options) (connectTimeoutMs (config s.1))) s0)
    as (r & s' & elapsed & Hloop & Hempty & _).
  rewrite Hloop in Hrun. injection Hrun as <-. simpl in *.
  destruct (Hempty Hok) as (? & ? & _). done.
Qed.

(** C1 fails on the code. The first dial is refused, the game is
    launched, the second dial succeeds, and the game would answer
    [list_commands] with two commands: [connect] returns
    [connected = true] with an empty command list and caches the empty
    list; the request is never written to the socket. Issued again once
    [connect] has returned, the same [fetchCommands] obtains the two
    commands. *)
Theorem connect_loses_command_list :
  ∃ s',
    connect env_refused_once no_options fresh_client
    = Some ({| result_connected := true; result_commands := Some [];
               result_error := None |}, s')
    ∧ (effects s'.2).*2 = [SocketConnect 0 6789; SocketDestroy 0; Spawn 1 "godot" "/game";
                           Sleep 100; SocketConnect 2 6789]
    ∧ writes s'.2 = []
    ∧ availableCommands s'.1 = []
    ∧ state s'.1 = connected
    ∧ result_of (fetchCommands env_refused_once s')
      = Some [screenshot_info; player_state_info].
Proof.
  eexists. split; [vm_compute; reflexivity|].
  split_and!; vm_compute; reflexivity.
Qed.

(** ** Timers and [killGame] *)

(** The paths that pair removal with cancellation: a matching response
    removes the entry and clears its timer. *)
Lemma handleMessage_cancels_timer (env : Env) (line : string) (c : GameClient)
    (rt : Runtime) (response : GameResponse) (pending : PendingRequest) :
  decode env line = Some response →
  pendingRequests c !! id response = Some pending →
  let s' := handleMessage env line (c, rt) in
  pendingRequests s'.1 !! id response = None
  ∧ timers s'.2 !! timeoutHandle pending = None.
Proof.
  unfold decode, handleMessage. intros Hdec Hpending.
  destruct (JSON_parse env line) as [parsed|]; simpl in Hdec; [|done].
  rewrite Hdec, Hpending. simpl. split; apply lookup_delete_eq.
Qed.

(** So does the callback of a failed write. *)
Lemma writeFailed_cancels_timer (k : nat) (msg : string) (s : Sys) (w : Write) :
  writes s.2 !! k = Some w →
  let s' := writeFailed k msg s in
  pendingRequests s'.1 !! req_id (write_request w) = None
  ∧ timers s'.2 !! write_timer w = None.
Proof.
  destruct s as [c rt]. simpl. intros Hw. unfold writeFailed. rewrite Hw. simpl.
  split; apply lookup_delete_eq.
Qed.

(** Without a child process [killGame] runs to its end without a
    suspension: it empties the pending table and touches neither the
    timers nor the promises. *)
Lemma killGame_keeps_timers (env : Env) (s : Sys) :
  gameProcess s.1 = None →
  pendingRequests (killGame env s).1 = ∅
  ∧ timers (killGame env s).2 = timers s.2
  ∧ promises (killGame env s).2 = promises s.2.
Proof.
  destruct s as [c rt]. simpl. intros Hproc. unfold killGame.
  destruct (socket c); simpl; rewrite Hproc; done.
Qed.

(** C5 fails on the code for [killGame]. With one request in flight and
    no child process, [killGame] removes the entry from the pending table
    but leaves its timer armed and its call open; when the timer fires,
    long after the kill, the call is resolved with the timeout failure. *)
Theorem killGame_does_not_cancel_timer :
  let s' := killGame env_listening sys_one_pending in
  pendingRequests sys_one_pending.1 !! "uuid-1"
  = Some {| promise := 1; timeoutHandle := 2 |}
  ∧ pendingRequests s'.1 = ∅
  ∧ timers s'.2 !! 2%nat
    = Some {| timer_id := "uuid-1"; timer_promise := 1; timer_timeout := 10000 |}
  ∧ promises s'.2 !! 1%nat = None
  ∧ promises (handleEvent env_listening s' (TimerFired 2)).2 !! 1%nat
    = Some (Resolved {| id := "uuid-1"; success := false; data := None; image := None;
                        error := Some "Command timeout after 10000ms" |}).
Proof.
  split_and!; vm_compute; reflexivity.
Qed.

(** * Further properties of the client *)

(** ** Coherence of table, timers, promises and writes *)

Lemma settle_subseteq {A} (p : nat) (v : Settlement A) (m : gmap nat (Settlement A)) :
  m ⊆ settle p v m.
Proof.
  unfold settle. destruct (m !! p) eqn:E; [done|]. by apply insert_subseteq.
Qed.

Lemma settle_is_Some {A} (p : nat) (v : Settlement A) (m : gmap nat (Settlement A)) :
  is_Some (settle p v m !! p).
Proof.
  unfold settle. destruct (m !! p) eqn:E; [by rewrite E|].
  rewrite lookup_insert_eq. by eexists.
Qed.

Lemma settle_lookup {A} (p q : nat) (v w : Settlement A) (m : gmap nat (Settlement A)) :
  settle p v m !! q = Some w → m !! q = Some w ∨ (q = p ∧ w = v).
Proof.
  unfold settle. destruct (m !! p) eqn:E; [auto|].
  destruct (decide (p = q)) as [->|Hne].
  - rewrite lookup_insert_eq. intros [= <-]. auto.
  - rewrite lookup_insert_ne by done. auto.
Qed.

Lemma registered_app (wr : list Write) (w : Write) (p : nat) (i : string) :
  registered wr p i → registered (wr ++ [w]) p i.
Proof.
  intros (w' & Hin & Hp & Hi). exists w'. split; [|done].
  apply elem_of_app. by left.
Qed.

Lemma coherent_empty : coherent ∅ ∅ ∅ [] 0.
Proof.
  split.
  - intros i pd H. by rewrite lookup_empty in H.
  - intros h t H. by rewrite lookup_empty in H.
  - intros w Hw. by apply not_elem_of_nil in Hw.
  - intros p r H. by rewrite lookup_empty in H.
  - intros w Hw. by apply not_elem_of_nil in Hw.
  - intros p [v Hv]. by rewrite lookup_empty in Hv.
  - intros i pd H. by rewrite lookup_empty in H.
  - intros p _. apply lookup_empty.
  - intros w w' Hw. by apply not_elem_of_nil in Hw.
Qed.

Lemma coherent_pending_subseteq pend pend' tm pr wr fr :
  pend' ⊆ pend → coherent pend tm pr wr fr → coherent pend' tm pr wr fr.
Proof.
  intros Hsub []. split; try done.
  - intros i pd Hpd. apply coh_pending0. by eapply lookup_weaken.
  - intros i pd Hpd. eapply coh_live0. by eapply lookup_weaken.
Qed.

Lemma coherent_fresh pend tm pr wr (fr fr' : nat) :
  (fr ≤ fr')%nat → coherent pend tm pr wr fr → coherent pend tm pr wr fr'.
Proof.
  intros Hle []. split; try done.
  - intros w Hw. destruct (coh_writes0 w Hw). split; [done|lia].
  - intros p Hp. specialize (coh_allocated0 p Hp). lia.
Qed.

(** The step every settling callback performs: cancel the timer of a
    registered call and settle its promise; the table keeps no entry of
    that call. *)
Lemma coherent_cancel_settle pend pend' tm pr wr fr (p : nat) (i : string)
    (v : Settlement GameResponse) :
  pend' ⊆ pend →
  (∀ j pd, pend' !! j = Some pd → promise pd ≠ p) →
  registered wr p i →
  (∀ r, v = Resolved r → id r = i) →
  coherent pend tm pr wr fr →
  coherent pend' (delete (S p) tm) (settle p v pr) wr fr.
Proof.
  intros Hsub Hgone Hreg Hid []. split; try done.
  - intros j pd Hpd. apply coh_pending0. by eapply lookup_weaken.
  - intros h t Ht. apply coh_timers0. eapply lookup_weaken; [exact Ht|apply delete_subseteq].
  - intros q r Hq. apply settle_lookup in Hq as [Hq | [-> Hv]]; [by apply coh_resolved0|].
    by rewrite (Hid r (eq_sym Hv)).
  - intros w Hw Hgone'. destruct (coh_writes0 w Hw) as [Hpair _].
    destruct (decide (write_promise w = p)) as [<-|Hne]; [apply settle_is_Some|].
    rewrite lookup_delete_ne in Hgone' by (rewrite Hpair; lia).
    destruct (coh_settles0 w Hw Hgone') as [x Hx]. exists x.
    eapply lookup_weaken; [exact Hx|apply settle_subseteq].
  - intros q [x Hq]. apply settle_lookup in Hq as [Hq | [-> _]]; [by apply coh_allocated0|].
    destruct Hreg as (w & Hw & <- & _). destruct (coh_writes0 w Hw). lia.
  - intros j pd Hpd. pose proof (Hgone j pd Hpd) as Hne.
    unfold settle. destruct (pr !! p); [|rewrite lookup_insert_ne by done];
      eapply coh_live0; by eapply lookup_weaken.
  - intros q [x Hq]. apply lookup_delete_None.
    apply settle_lookup in Hq as [Hq | [-> _]]; [|by left].
    right. by apply coh_spent0.
Qed.

(** Registering a call, as [sendCommand] does. *)
Lemma coherent_register pend tm pr wr fr (i : string) (timeout : Z) (w : Write) :
  write_promise w = fr → write_timer w = S fr → req_id (write_request w) = i →
  coherent pend tm pr wr fr →
  coherent (<[i := {| promise := fr; timeoutHandle := S fr |}]> pend)
    (<[S fr := {| timer_id := i; timer_promise := fr; timer_timeout := timeout |}]> tm)
    pr (wr ++ [w]) (S (S fr)).
Proof.
  intros Hp Ht Hi [].
  assert (Hnew : registered (wr ++ [w]) fr i).
  { exists w. split; [|done]. apply elem_of_app. right. by apply list_elem_of_singleton. }
  split.
  - intros j pd Hpd. destruct (decide (i = j)) as [->|Hne].
    + rewrite lookup_insert_eq in Hpd. by injection Hpd as <-.
    + rewrite lookup_insert_ne in Hpd by done.
      destruct (coh_pending0 j pd Hpd). split; [done|]. by apply registered_app.
  - intros h t Hh. destruct (decide (S fr = h)) as [<-|Hne].
    + rewrite lookup_insert_eq in Hh. by injection Hh as <-.
    + rewrite lookup_insert_ne in Hh by done.
      destruct (coh_timers0 h t Hh). split; [done|]. by apply registered_app.
  - intros w' Hw'. apply elem_of_app in Hw' as [Hw' | Hw'].
    + destruct (coh_writes0 w' Hw'). split; [done|lia].
    + apply list_elem_of_singleton in Hw' as ->. rewrite Hp, Ht. split; [done|lia].
  - intros q r Hq. by apply registered_app, coh_resolved0.
  - intros w' Hw' Hgone. apply elem_of_app in Hw' as [Hw' | Hw'].
    + destruct (coh_writes0 w' Hw'). apply coh_settles0; [done|].
      rewrite lookup_insert_ne in Hgone by lia. done.
    + apply list_elem_of_singleton in Hw' as ->. rewrite Ht, lookup_insert_eq in Hgone. done.
  - intros q Hq. specialize (coh_allocated0 q Hq). lia.
  - intros j pd Hpd. destruct (decide (i = j)) as [->|Hne].
    + rewrite lookup_insert_eq in Hpd. injection Hpd as <-. simpl.
      destruct (pr !! fr) eqn:E; [|done].
      specialize (coh_allocated0 fr (mk_is_Some _ _ E)). lia.
    + rewrite lookup_insert_ne in Hpd by done. by eapply coh_live0.
  - intros q Hq. specialize (coh_allocated0 q Hq).
    rewrite lookup_insert_ne by lia. by apply coh_spent0.
  - assert (Hold : ∀ w', w' ∈ wr → write_promise w' ≠ fr).
    { intros w' Hw'. destruct (coh_writes0 w' Hw'). lia. }
    intros w1 w2 H1 H2 Heq.
    apply elem_of_app in H1 as [H1 | H1]; apply elem_of_app in H2 as [H2 | H2].
    + by apply coh_unique0.
    + apply list_elem_of_singleton in H2 as ->. destruct (Hold w1 H1). congruence.
    + apply list_elem_of_singleton in H1 as ->. destruct (Hold w2 H2). congruence.
    + apply list_elem_of_singleton in H1 as ->. by apply list_elem_of_singleton in H2 as ->.
Qed.

Lemma keeps_refl (s : Sys) : keeps s s.
Proof. by split. Qed.

Lemma keeps_trans (s1 s2 s3 : Sys) : keeps s1 s2 → keeps s2 s3 → keeps s1 s3.
Proof.
  intros [] []. split; [by etrans|by etrans|lia|auto].
Qed.

(** Closes [keeps s s'] when [s'] differs from [s] in fields that
    coherence does not mention. *)
Ltac keeps_by_frame := split; simpl; [done | done | lia | done].

Lemma keeps_cancel_settle (c c' : GameClient) (rt : Runtime) (h p : nat) (i : string)
    (v : Settlement GameResponse) :
  pendingRequests c' ⊆ pendingRequests c →
  (Coherent (c, rt) →
   h = S p ∧ registered (writes rt) p i ∧ (∀ r, v = Resolved r → id r = i)
   ∧ ∀ j pd, pendingRequests c' !! j = Some pd → promise pd ≠ p) →
  keeps (c, rt) (c', set_promises (settle p v (promises rt)) (clearTimeout h rt)).
Proof.
  intros Hsub Hcall. split; simpl; [apply settle_subseteq|done|lia|].
  intros Hcoh. destruct (Hcall Hcoh) as (-> & Hreg & Hid & Hgone).
  unfold Coherent in *. simpl in *.
  by eapply coherent_cancel_settle.
Qed.

(** Two entries of the pending table never belong to the same call. *)
Lemma coherent_entries_differ pend tm pr wr fr (i j : string) (pd pd' : PendingRequest) :
  coherent pend tm pr wr fr →
  pend !! i = Some pd → pend !! j = Some pd' → promise pd = promise pd' → i = j.
Proof.
  intros Hcoh Hi Hj Heq.
  destruct (coh_pending _ _ _ _ _ Hcoh _ _ Hi) as [_ (w & Hw & Hp & <-)].
  destruct (coh_pending _ _ _ _ _ Hcoh _ _ Hj) as [_ (w' & Hw' & Hp' & <-)].
  by rewrite (coh_unique _ _ _ _ _ Hcoh w w' Hw Hw') by congruence.
Qed.

Lemma handleMessage_keeps (env : Env) (line : string) (s : Sys) :
  keeps s (handleMessage env line s).
Proof.
  destruct s as [c rt]. unfold handleMessage.
  destruct (JSON_parse env line) as [parsed|]; [|keeps_by_frame].
  destruct (GameResponseSchema_parse parsed) as [response|]; [|keeps_by_frame].
  destruct (pendingRequests c !! id response) as [pending|] eqn:Hpending; [|keeps_by_frame].
  apply (keeps_cancel_settle c _ rt _ _ (id response)); [apply delete_subseteq|].
  intros Hcoh. destruct (coh_pending _ _ _ _ _ Hcoh _ _ Hpending) as [Hpair Hreg].
  split_and!; [done|done|by intros r [= <-]|].
  intros j pd Hj Heq. simpl in Hj. apply lookup_delete_Some in Hj as [Hne Hj]. destruct Hne.
  by apply (coherent_entries_differ _ _ _ _ _ _ _ _ _ Hcoh Hpending Hj).
Qed.

Lemma processBuffer_loop_keeps (fuel : nat) (env : Env) (s : Sys) :
  keeps s (processBuffer_loop fuel env s).
Proof.
  revert s. induction fuel as [|fuel IH]; intros [c rt]; [apply keeps_refl|].
  cbn [processBuffer_loop]. destruct (String.index 0 LF (buffer c)); [|apply keeps_refl].
  eapply keeps_trans; [|apply IH]. destruct (trim_is_empty _); [keeps_by_frame|].
  eapply keeps_trans; [|apply handleMessage_keeps]. keeps_by_frame.
Qed.

Lemma reject_all_fresh (l : list (string * PendingRequest)) (rt : Runtime) :
  fresh (foldl reject_pending rt l) = fresh rt.
Proof.
  revert rt. induction l as [|x l IH]; intros rt; [done|]. simpl. by rewrite IH.
Qed.

(** Rejecting the calls of a list of entries, once the table is empty. *)
Lemma reject_all_keeps (c : GameClient) (l : list (string * PendingRequest)) (rt : Runtime) :
  pendingRequests c = ∅ →
  (∀ x, x ∈ l →
        timeoutHandle x.2 = S (promise x.2) ∧ registered (writes rt) (promise x.2) x.1) →
  keeps (c, rt) (c, foldl reject_pending rt l).
Proof.
  intros Hempty. revert rt. induction l as [|x l IH]; intros rt Hl; [apply keeps_refl|].
  simpl. eapply keeps_trans; [|apply IH].
  - apply (keeps_cancel_settle c c rt _ _ x.1); [done|].
    intros _. destruct (Hl x) as [Hpair Hreg]; [by left|].
    split_and!; try done. intros j pd Hj. by rewrite Hempty, lookup_empty in Hj.
  - intros y Hy. apply Hl. by right.
Qed.

Lemma handleDisconnect_keeps (s : Sys) : keeps s (handleDisconnect s).
Proof.
  destruct s as [c rt]. unfold handleDisconnect.
  set (c1 := set_buffer "" (set_socket None (set_state disconnected c))).
  set (l := map_to_list (pendingRequests c1)).
  split; simpl.
  - apply map_subseteq_spec. intros q w Hq. by apply reject_all_old.
  - destruct (reject_all_frame l rt) as (_ & _ & ->). done.
  - by rewrite reject_all_fresh.
  - intros Hcoh.
    assert (Hl : ∀ x, x ∈ l →
              timeoutHandle x.2 = S (promise x.2)
              ∧ registered (writes rt) (promise x.2) x.1).
    { intros [i pd] Hx. apply elem_of_map_to_list in Hx.
      exact (coh_pending _ _ _ _ _ Hcoh _ _ Hx). }
    destruct (reject_all_keeps (set_pendingRequests ∅ c1) l rt) as [_ _ _ Hk]; [done|done|].
    apply Hk. clear Hk. unfold Coherent in *. cbn [fst snd pendingRequests set_pendingRequests] in *.
    eapply coherent_pending_subseteq; [|exact Hcoh]. apply map_empty_subseteq.
Qed.

Lemma timerFired_keeps (h : nat) (s : Sys) : keeps s (timerFired h s).
Proof.
  destruct s as [c rt]. unfold timerFired.
  destruct (timers rt !! h) as [t|] eqn:Ht; [|apply keeps_refl].
  apply (keeps_cancel_settle c _ rt _ _ (timer_id t)); [apply delete_subseteq|].
  intros Hcoh. destruct (coh_timers _ _ _ _ _ Hcoh _ _ Ht) as [Hpair Hreg].
  split_and!; [done|done|by intros r [= <-]|].
  intros j pd Hj Heq. simpl in Hj. apply lookup_delete_Some in Hj as [Hne Hj]. destruct Hne.
  destruct Hreg as (w & Hw & Hp & <-).
  destruct (coh_pending _ _ _ _ _ Hcoh _ _ Hj) as [_ (w' & Hw' & Hp' & <-)].
  by rewrite (coh_unique _ _ _ _ _ Hcoh w w' Hw Hw') by congruence.
Qed.

Lemma writeFailed_keeps (k : nat) (msg : string) (s : Sys) : keeps s (writeFailed k msg s).
Proof.
  destruct s as [c rt]. unfold writeFailed.
  destruct (writes rt !! k) as [w|] eqn:Hw; [|apply keeps_refl].
  apply (keeps_cancel_settle c _ rt _ _ (req_id (write_request w))); [apply delete_subseteq|].
  intros Hcoh.
  assert (Hin : w ∈ writes rt) by (apply list_elem_of_lookup; eauto).
  destruct (coh_writes _ _ _ _ _ Hcoh _ Hin) as [Hpair _].
  split_and!; [done|by exists w|by intros r [= <-]|].
  intros j pd Hj Heq. simpl in Hj. apply lookup_delete_Some in Hj as [Hne Hj]. destruct Hne.
  destruct (coh_pending _ _ _ _ _ Hcoh _ _ Hj) as [_ (w' & Hw' & Hp' & <-)].
  by rewrite (coh_unique _ _ _ _ _ Hcoh w w' Hin Hw') by congruence.
Qed.

Lemma handleEvent_keeps (env : Env) (s : Sys) (e : Event) : keeps s (handleEvent env s e).
Proof.
  destruct s as [c rt]. destruct e; cbn [handleEvent].
  - eapply keeps_trans; [|apply processBuffer_loop_keeps]. keeps_by_frame.
  - apply handleDisconnect_keeps.
  - eapply keeps_trans; [|apply handleDisconnect_keeps]. keeps_by_frame.
  - apply timerFired_keeps.
  - apply writeFailed_keeps.
  - unfold processError. destruct (children rt !! pid); keeps_by_frame.
  - unfold processExit. destruct (children rt !! pid); [|keeps_by_frame].
    case_decide; keeps_by_frame.
Qed.

Lemma events_keeps (env : Env) (evs : list Event) (s : Sys) :
  keeps s (foldl (handleEvent env) s evs).
Proof.
  revert s. induction evs as [|e evs IH]; intros s; [apply keeps_refl|].
  simpl. eapply keeps_trans; [apply handleEvent_keeps|apply IH].
Qed.

Lemma suspend_keeps (env : Env) (nominal : Z) (s : Sys) :
  keeps s (suspend env nominal s).2.
Proof.
  unfold suspend. cbn [snd].
  eapply keeps_trans; [|apply events_keeps]. destruct s. keeps_by_frame.
Qed.

Lemma sleep_keeps (env : Env) (ms : Z) (s : Sys) : keeps s (sleep env ms s).
Proof.
  unfold sleep. eapply keeps_trans; [|apply suspend_keeps]. destruct s. keeps_by_frame.
Qed.

Lemma kill_keeps (env : Env) (c : GameClient) (pid : nat) (sig : Signal) (rt : Runtime) :
  keeps (c, rt) (c, (kill env pid sig rt).2).
Proof.
  unfold kill. destruct (turn_kill _) as [[|]|]; keeps_by_frame.
Qed.

Lemma killGame_keeps (env : Env) (s : Sys) : keeps s (killGame env s).
Proof.
  destruct s as [c rt]. unfold killGame.
  set (s1 := match socket c with
             | Some sock => (set_socket None c, perform (SocketDestroy sock) rt)
             | None => (c, rt)
             end).
  assert (H1 : keeps (c, rt) s1) by (subst s1; destruct (socket c); keeps_by_frame).
  destruct s1 as [c1 rt1].
  assert (Hlast : ∀ c' rt', keeps (c, rt) (c', rt') →
            keeps (c, rt)
              (set_pendingRequests ∅ (set_buffer "" (set_state disconnected c')), rt')).
  { intros c' rt' H. eapply keeps_trans; [exact H|].
    split; simpl; [done|done|lia|].
    apply coherent_pending_subseteq. apply map_empty_subseteq. }
  destruct (gameProcess c1) as [pid|]; [|by apply Hlast].
  pose proof (kill_keeps env c1 pid SIGTERM rt1) as H2.
  destruct (kill env pid SIGTERM rt1) as [returned rt2]. cbn [snd] in H2.
  destruct returned.
  2:{ apply Hlast. eapply keeps_trans; [exact H1|].
      eapply keeps_trans; [exact H2|]. keeps_by_frame. }
  pose proof (sleep_keeps env 500 (c1, rt2)) as H3.
  destruct (sleep env 500 (c1, rt2)) as [c3 rt3].
  assert (H4 : keeps (c3, rt3)
                 match gameProcess c3 with
                 | Some pid' =>
                     if is_killed pid' rt3 then (c3, rt3)
                     else (c3, (kill env pid' SIGKILL rt3).2)
                 | None => (c3, rt3)
                 end).
  { destruct (gameProcess c3) as [pid'|]; [|apply keeps_refl].
    destruct (is_killed pid' rt3); [apply keeps_refl|apply kill_keeps]. }
  destruct (match gameProcess c3 with Some _ => _ | None => _ end) as [c4 rt4].
  apply Hlast. eapply keeps_trans; [exact H1|]. eapply keeps_trans; [exact H2|].
  eapply keeps_trans; [exact H3|]. eapply keeps_trans; [exact H4|]. keeps_by_frame.
Qed.

Lemma keeps_set_fresh (c c' : GameClient) (rt : Runtime) (n : nat) :
  pendingRequests c' = pendingRequests c → (fresh rt ≤ n)%nat →
  keeps (c, rt) (c', set_fresh n rt).
Proof.
  intros Hp Hn. split; simpl; [done|done|done|].
  unfold Coherent. simpl. rewrite Hp. by apply coherent_fresh.
Qed.

Lemma tryConnect_keeps (env : Env) (to_port : Z) (s : Sys) :
  keeps s (tryConnect env to_port s).2.
Proof.
  destruct s as [c rt]. unfold tryConnect.
  set (rt1 := perform _ _).
  assert (H1 : keeps (c, rt) (c, rt1)).
  { eapply keeps_trans; [apply (keeps_set_fresh c c rt (S (fresh rt))); [done|lia]|].
    subst rt1. keeps_by_frame. }
  pose proof (suspend_keeps env 0 (c, rt1)) as H2.
  destruct (suspend env 0 (c, rt1)) as [t [c2 rt2]]. cbn [snd] in H2.
  eapply keeps_trans; [exact H1|]. eapply keeps_trans; [exact H2|].
  destruct (turn_dial t); keeps_by_frame.
Qed.

Lemma launchGame_keeps (env : Env) (path : string) (s : Sys) :
  keeps s (launchGame env path s).2.
Proof.
  destruct s as [c rt]. unfold launchGame.
  destruct (turn_spawn _); [apply keeps_refl|].
  set (s1 := (set_gameProcess _ c, _)).
  assert (H1 : keeps (c, rt) s1).
  { eapply keeps_trans; [apply (keeps_set_fresh c c rt (S (fresh rt))); [done|lia]|].
    subst s1. keeps_by_frame. }
  pose proof (suspend_keeps env 100 s1) as H2.
  destruct (suspend env 100 s1).2 as [c2 rt2].
  eapply keeps_trans; [exact H1|]. eapply keeps_trans; [exact H2|].
  destruct (children rt2 !! fresh rt ≫= launch) as [[|]|]; keeps_by_frame.
Qed.

Lemma sendCommand_keeps (env : Env) (command : string) (args : gmap string Json)
    (timeoutMs : option Z) (s : Sys) :
  keeps s (sendCommand env command args timeoutMs s).2.
Proof.
  destruct s as [c rt]. unfold sendCommand.
  destruct (isConnected c); [|apply keeps_refl].
  destruct (socket c) as [sock|]; [|apply keeps_refl].
  split; simpl; [done|by apply prefix_app_r|lia|].
  unfold Coherent. simpl. by apply coherent_register.
Qed.

Lemma awaitSettled_keeps (env : Env) (p h : nat) (s : Sys)
    (v : Settlement GameResponse) (s' : Sys) :
  awaitSettled env p h s = Some (v, s') → keeps s s'.
Proof.
  unfold awaitSettled. intros H.
  pose proof (suspend_keeps env 0 s) as H1.
  destruct (promises (suspend env 0 s).2.2 !! p); [by injection H as _ <-|].
  pose proof (timerFired_keeps h (suspend env 0 s).2) as H2.
  destruct (promises (timerFired h (suspend env 0 s).2).2 !! p); [|done].
  injection H as _ <-. by eapply keeps_trans.
Qed.

Lemma fetchCommands_keeps (env : Env) (s : Sys) (commands : list CommandInfo) (s' : Sys) :
  fetchCommands env s = Some (commands, s') → keeps s s'.
Proof.
  unfold fetchCommands. intros H.
  pose proof (sendCommand_keeps env "list_commands" ∅ (Some 5000) s) as H1.
  destruct (sendCommand env "list_commands" ∅ (Some 5000) s) as [r s1]. cbn [snd] in H1.
  destruct r as [response | p h]; [by injection H as _ <-|].
  destruct (awaitSettled env p h s1) as [[v s2]|] eqn:Hawait; [|done].
  apply awaitSettled_keeps in Hawait.
  destruct v; injection H as _ <-.
  - by eapply keeps_trans.
  - eapply keeps_trans; [exact H1|]. eapply keeps_trans; [exact Hawait|].
    destruct s2. keeps_by_frame.
Qed.

Lemma connectLoop_keeps (fuel : nat) (env : Env) (path : string)
    (to_port timeoutMs startTime : Z) (lastError : option JsError) (s : Sys)
    (res : ConnectResult * Sys) :
  connectLoop fuel env path to_port timeoutMs startTime lastError s = Some res →
  keeps s res.2.
Proof.
  revert lastError s. induction fuel as [|fuel IH]; intros lastError s H; [done|].
  cbn [connectLoop] in H. destruct (now s.2 - startTime <? timeoutMs).
  2:{ injection H as <-. destruct s. keeps_by_frame. }
  pose proof (tryConnect_keeps env to_port s) as H1.
  destruct (tryConnect env to_port s) as [dialled s1]. cbn [snd] in H1.
  destruct dialled as [err|].
  2:{ destruct (fetchCommands env s1) as [[commands [c2 rt2]]|] eqn:Hfetch; [|done].
      apply fetchCommands_keeps in Hfetch. simpl in H. injection H as <-.
      eapply keeps_trans; [exact H1|]. eapply keeps_trans; [exact Hfetch|]. keeps_by_frame. }
  case_bool_decide.
  2:{ injection H as <-. eapply keeps_trans; [exact H1|]. destruct s1. keeps_by_frame. }
  assert (∃ launched s2,
            match gameProcess s1.1 with
            | Some _ => (None, s1)
            | None => launchGame env path s1
            end = (launched, s2) ∧ keeps s1 s2) as (launched & s2 & Heq & H2).
  { destruct (gameProcess s1.1).
    - eexists _, _. split; [reflexivity|apply keeps_refl].
    - pose proof (launchGame_keeps env path s1).
      destruct (launchGame env path s1). by eexists _, _. }
  rewrite Heq in H. destruct launched as [msg|].
  { injection H as <-. by eapply keeps_trans. }
  apply IH in H. eapply keeps_trans; [exact H1|]. eapply keeps_trans; [exact H2|].
  eapply keeps_trans; [apply sleep_keeps|exact H].
Qed.

Lemma connect_keeps (env : Env) (options : ConnectOptions) (s : Sys)
    (res : ConnectResult * Sys) :
  connect env options s = Some res → keeps s res.2.
Proof.
  unfold connect. intros H.
  destruct (nonempty _) as [path|]; [|injection H as <-; apply keeps_refl].
  set (s0 := if bool_decide _ then _ else _) in H.
  assert (H0 : keeps s s0).
  { subst s0. case_bool_decide; [apply killGame_keeps|apply keeps_refl]. }
  destruct (isConnected s0.1); [injection H as <-; exact H0|].
  apply connectLoop_keeps in H. eapply keeps_trans; [exact H0|].
  eapply keeps_trans; [|exact H]. destruct s0. keeps_by_frame.
Qed.

Lemma apply_call_keeps (env : Env) (s : Sys) (call : Call) :
  keeps s (apply_call env s call).
Proof.
  destruct call; simpl.
  - destruct (connect env options s) as [res|] eqn:H; [|apply keeps_refl].
    simpl. by eapply connect_keeps.
  - apply sendCommand_keeps.
  - apply killGame_keeps.
  - apply handleEvent_keeps.
Qed.

Lemma history_keeps (env : Env) (history : list Call) (s : Sys) :
  keeps s (foldl (apply_call env) s history).
Proof.
  revert s. induction history as [|call history IH]; intros s; [apply keeps_refl|].
  simpl. eapply keeps_trans; [apply apply_call_keeps|apply IH].
Qed.

Lemma run_coherent (env : Env) (cfg : Config) (history : list Call) :
  Coherent (run env cfg history).
Proof.
  unfold run. apply history_keeps. apply coherent_empty.
Qed.

(** ** Timers are cancelled, never replaced *)

Lemma cancels_only_refl (s : Sys) : cancels_only s s.
Proof. split; [lia|auto]. Qed.

Lemma cancels_only_trans (s1 s2 s3 : Sys) :
  cancels_only s1 s2 → cancels_only s2 s3 → cancels_only s1 s3.
Proof.
  intros [F1 T1] [F2 T2]. split; [lia|].
  intros h t Hh Ht. apply T1; [done|]. apply T2; [lia|done].
Qed.

(** Closes [cancels_only s s'] when [s'] has the timers and the
    allocation counter of [s]. *)
Ltac cancels_only_frame := split; simpl; [lia | auto].

(** An operation that arms no timer. *)
Lemma cancels_only_subseteq (s s' : Sys) :
  keeps s s' → timers s'.2 ⊆ timers s.2 → cancels_only s s'.
Proof.
  intros [_ _ Hfresh _] Hsub. split; [done|].
  intros h t _ Ht. by eapply lookup_weaken.
Qed.

Lemma suspend_timers (env : Env) (nominal : Z) (s : Sys) :
  timers (suspend env nominal s).2.2 ⊆ timers s.2.
Proof.
  unfold suspend. cbn [snd]. etrans; [apply events_timers|]. done.
Qed.

Lemma sleep_timers (env : Env) (ms : Z) (s : Sys) :
  timers (sleep env ms s).2 ⊆ timers s.2.
Proof.
  unfold sleep. etrans; [apply suspend_timers|]. done.
Qed.

Lemma kill_timers (env : Env) (pid : nat) (sig : Signal) (rt : Runtime) :
  timers (kill env pid sig rt).2 = timers rt.
Proof.
  unfold kill. by destruct (turn_kill _) as [[|]|].
Qed.

Lemma killGame_timers (env : Env) (s : Sys) :
  timers (killGame env s).2 ⊆ timers s.2.
Proof.
  destruct s as [c rt]. change (timers (c, rt).2) with (timers rt). unfold killGame.
  set (s1 := match socket c with
             | Some sock => (set_socket None c, perform (SocketDestroy sock) rt)
             | None => (c, rt)
             end).
  assert (H1 : timers s1.2 = timers rt) by (subst s1; by destruct (socket c)).
  destruct s1 as [c1 rt1]. simpl in H1. rewrite <- H1. clear H1.
  destruct (gameProcess c1) as [pid|]; [|done].
  pose proof (kill_timers env pid SIGTERM rt1) as H2.
  destruct (kill env pid SIGTERM rt1) as [returned rt2]. cbn [snd] in H2.
  rewrite <- H2. clear H2.
  destruct returned; [|done].
  pose proof (sleep_timers env 500 (c1, rt2)) as H3.
  destruct (sleep env 500 (c1, rt2)) as [c3 rt3]. simpl in H3.
  destruct (gameProcess c3) as [pid'|]; [|done].
  destruct (is_killed pid' rt3); [done|].
  simpl. by rewrite kill_timers.
Qed.

Lemma tryConnect_timers (env : Env) (to_port : Z) (s : Sys) :
  timers (tryConnect env to_port s).2.2 ⊆ timers s.2.
Proof.
  destruct s as [c rt]. unfold tryConnect.
  set (rt1 := perform _ _).
  pose proof (suspend_timers env 0 (c, rt1)) as H.
  destruct (suspend env 0 (c, rt1)) as [t [c2 rt2]]. subst rt1. simpl in H.
  by destruct (turn_dial t).
Qed.

Lemma launchGame_timers (env : Env) (path : string) (s : Sys) :
  timers (launchGame env path s).2.2 ⊆ timers s.2.
Proof.
  destruct s as [c rt]. unfold launchGame.
  destruct (turn_spawn _); [done|].
  set (s1 := (set_gameProcess _ c, _)).
  pose proof (suspend_timers env 100 s1) as H.
  destruct (suspend env 100 s1).2 as [c2 rt2]. subst s1. simpl in H.
  by destruct (children rt2 !! fresh rt ≫= launch) as [[|]|].
Qed.

Lemma sendCommand_cancels_only (env : Env) (command : string) (args : gmap string Json)
    (timeoutMs : option Z) (s : Sys) :
  cancels_only s (sendCommand env command args timeoutMs s).2.
Proof.
  destruct s as [c rt]. unfold sendCommand.
  destruct (isConnected c); [|apply cancels_only_refl].
  destruct (socket c) as [sock|]; [|apply cancels_only_refl].
  split; simpl; [lia|].
  intros h t Hh Ht. rewrite lookup_insert_ne in Ht by lia. done.
Qed.

Lemma awaitSettled_cancels_only (env : Env) (p h : nat) (s : Sys)
    (v : Settlement GameResponse) (s' : Sys) :
  awaitSettled env p h s = Some (v, s') → cancels_only s s'.
Proof.
  intros H. apply cancels_only_subseteq; [by eapply awaitSettled_keeps|].
  unfold awaitSettled in H.
  pose proof (suspend_timers env 0 s) as H1.
  destruct (promises (suspend env 0 s).2.2 !! p); [by injection H as _ <-|].
  pose proof (handleEvent_timers env (suspend env 0 s).2 (TimerFired h)) as H2.
  cbn [handleEvent] in H2.
  destruct (promises (timerFired h (suspend env 0 s).2).2 !! p); [|done].
  injection H as _ <-. by etrans.
Qed.

Lemma fetchCommands_cancels_only (env : Env) (s : Sys) (commands : list CommandInfo)
    (s' : Sys) :
  fetchCommands env s = Some (commands, s') → cancels_only s s'.
Proof.
  unfold fetchCommands. intros H.
  pose proof (sendCommand_cancels_only env "list_commands" ∅ (Some 5000) s) as H1.
  destruct (sendCommand env "list_commands" ∅ (Some 5000) s) as [r s1]. cbn [snd] in H1.
  destruct r as [response | p h]; [by injection H as _ <-|].
  destruct (awaitSettled env p h s1) as [[v s2]|] eqn:Hawait; [|done].
  apply awaitSettled_cancels_only in Hawait.
  destruct v; injection H as _ <-.
  - by eapply cancels_only_trans.
  - eapply cancels_only_trans; [exact H1|]. eapply cancels_only_trans; [exact Hawait|].
    destruct s2. cancels_only_frame.
Qed.

Lemma connectLoop_cancels_only (fuel : nat) (env : Env) (path : string)
    (to_port timeoutMs startTime : Z) (lastError : option JsError) (s : Sys)
    (res : ConnectResult * Sys) :
  connectLoop fuel env path to_port timeoutMs startTime lastError s = Some res →
  cancels_only s res.2.
Proof.
  revert lastError s. induction fuel as [|fuel IH]; intros lastError s H; [done|].
  cbn [connectLoop] in H. destruct (now s.2 - startTime <? timeoutMs).
  2:{ injection H as <-. destruct s. cancels_only_frame. }
  pose proof (cancels_only_subseteq _ _ (tryConnect_keeps env to_port s)
                (tryConnect_timers env to_port s)) as H1.
  destruct (tryConnect env to_port s) as [dialled s1]. cbn [snd] in H1.
  destruct dialled as [err|].
  2:{ destruct (fetchCommands env s1) as [[commands [c2 rt2]]|] eqn:Hfetch; [|done].
      apply fetchCommands_cancels_only in Hfetch. simpl in H. injection H as <-.
      eapply cancels_only_trans; [exact H1|]. destruct Hfetch. by split. }
  case_bool_decide.
  2:{ injection H as <-. eapply cancels_only_trans; [exact H1|].
      destruct s1. cancels_only_frame. }
  assert (∃ launched s2,
            match gameProcess s1.1 with
            | Some _ => (None, s1)
            | None => launchGame env path s1
            end = (launched, s2) ∧ cancels_only s1 s2) as (launched & s2 & Heq & H2).
  { destruct (gameProcess s1.1).
    - eexists _, _. split; [reflexivity|apply cancels_only_refl].
    - pose proof (cancels_only_subseteq _ _ (launchGame_keeps env path s1)
                    (launchGame_timers env path s1)).
      destruct (launchGame env path s1). by eexists _, _. }
  rewrite Heq in H. destruct launched as [msg|].
  { injection H as <-. by eapply cancels_only_trans. }
  apply IH in H. eapply cancels_only_trans; [exact H1|].
  eapply cancels_only_trans; [exact H2|].
  eapply cancels_only_trans; [|exact H].
  apply cancels_only_subseteq; [apply sleep_keeps|apply sleep_timers].
Qed.

Lemma connect_cancels_only (env : Env) (options : ConnectOptions) (s : Sys)
    (res : ConnectResult * Sys) :
  connect env options s = Some res → cancels_only s res.2.
Proof.
  unfold connect. intros H.
  destruct (nonempty _) as [path|]; [|injection H as <-; apply cancels_only_refl].
  set (s0 := if bool_decide _ then _ else _) in H.
  assert (H0 : cancels_only s s0).
  { subst s0. case_bool_decide; [|apply cancels_only_refl].
    apply cancels_only_subseteq; [apply killGame_keeps|apply killGame_timers]. }
  destruct (isConnected s0.1); [injection H as <-; exact H0|].
  apply connectLoop_cancels_only in H. eapply cancels_only_trans; [exact H0|].
  eapply cancels_only_trans; [|exact H]. destruct s0. cancels_only_frame.
Qed.

Lemma apply_call_cancels_only (env : Env) (s : Sys) (call : Call) :
  cancels_only s (apply_call env s call).
Proof.
  destruct call; simpl.
  - destruct (connect env options s) as [res|] eqn:H; [|apply cancels_only_refl].
    simpl. by eapply connect_cancels_only.
  - apply sendCommand_cancels_only.
  - apply cancels_only_subseteq; [apply killGame_keeps|apply killGame_timers].
  - apply cancels_only_subseteq; [apply handleEvent_keeps|apply handleEvent_timers].
Qed.

Lemma history_cancels_only (env : Env) (history : list Call) (s : Sys) :
  cancels_only s (foldl (apply_call env) s history).
Proof.
  revert s. induction history as [|call history IH]; intros s; [apply cancels_only_refl|].
  simpl. eapply cancels_only_trans; [apply apply_call_cancels_only|apply IH].
Qed.

(** C6. A [sendCommand] call registers a request. Whatever happens
    afterwards (callbacks, further [sendCommand] calls, [connect] and
    [killGame] calls, in any order), if the call is still open and its
    timer still armed when the timer fires, the call is resolved with the
    failure response whose message is "Command timeout after <timeout>ms"
    ([timeout] being the call's own timeout or, without one, the
    configured command timeout, whatever timeouts later calls have), the
    entry is gone from the pending table, the timer is spent, and nothing
    is written again: the request is not retried. *)
Theorem sendCommand_timeout (env : Env) (command : string) (args : gmap string Json)
    (timeoutMs : option Z) (s s1 : Sys) (p h : nat) (history : list Call) :
  sendCommand env command args timeoutMs s = (Pending p h, s1) →
  let s2 := foldl (apply_call env) s1 history in
  promises s2.2 !! p = None →
  is_Some (timers s2.2 !! h) →
  let s3 := handleEvent env s2 (TimerFired h) in
  let i := randomUUID env (fresh s.2) in
  let timeout := or_number timeoutMs (commandTimeoutMs (config s.1)) in
  promises s3.2 !! p
  = Some (Resolved {| id := i; success := false; data := None; image := None;
                      error := Some ("Command timeout after " +:+ pretty timeout +:+ "ms") |})
  ∧ pendingRequests s3.1 !! i = None
  ∧ timers s3.2 !! h = None
  ∧ writes s3.2 = writes s2.2.
Proof.
  intros Hsend s2 Hopen [t Ht] s3 i timeout.
  assert (Hreg : timers s1.2 !! h
                 = Some {| timer_id := i; timer_promise := p; timer_timeout := timeout |}
                 ∧ (h < fresh s1.2)%nat).
  { destruct s as [c rt]. unfold sendCommand in Hsend.
    destruct (isConnected c); [|done]. destruct (socket c); [|done].
    injection Hsend as <- <- <-. simpl. split; [apply lookup_insert_eq|lia]. }
  destruct Hreg as [Hreg Hh].
  assert (Ht' : timers s1.2 !! h = Some t).
  { by apply (co_timers _ _ (history_cancels_only env history s1)). }
  rewrite Hreg in Ht'. injection Ht' as <-.
  subst s3. simpl. unfold timerFired. destruct s2 as [c2 rt2]. simpl in *.
  rewrite Ht. simpl. split; [by apply settle_new|].
  split; [apply lookup_delete_eq|]. split; [apply lookup_delete_eq|done].
Qed.

(** A second call with another timeout, an undecodable line, a
    [killGame] and a [connect] come between the call and its timer. *)
Lemma sendCommand_timeout_witness :
  let s2 := foldl (apply_call env_listening) sys_one_pending
              [CallSendCommand "get_player_state" ∅ (Some 2000);
               Callback (SocketData (bytes_of "answer without success field"));
               Callback (SocketData (bytes_of LF));
               CallKillGame;
               CallConnect no_options] in
  let s3 := handleEvent env_listening s2 (TimerFired 2) in
  promises s3.2 !! 1%nat
  = Some (Resolved {| id := "uuid-1"; success := false; data := None; image := None;
                      error := Some "Command timeout after 10000ms" |})
  ∧ pendingRequests s3.1 !! "uuid-1" = None
  ∧ timers s3.2 !! 2%nat = None
  ∧ writes s3.2 = writes s2.2.
Proof.
  apply (sendCommand_timeout env_listening "screenshot" ∅ None sys_connected
           sys_one_pending 1 2
           [CallSendCommand "get_player_state" ∅ (Some 2000);
            Callback (SocketData (bytes_of "answer without success field"));
            Callback (SocketData (bytes_of LF));
            CallKillGame;
            CallConnect no_options]).
  - vm_compute. reflexivity.
  - vm_compute. reflexivity.
  - vm_compute. eexists. reflexivity.
Defined.

(** ** Calls and their outcomes *)

(** X1. A settled call leaves nothing behind. In every history of a
    client, once a [sendCommand] call is settled, then whatever follows
    (callbacks, further [sendCommand], [connect] and [killGame] calls):
    its outcome stays as it is, the timer of its request is not armed, so
    it cannot fire for this call any more, and no entry of the pending
    table belongs to the call, so no later response, write failure or
    disconnect reaches it. *)
Theorem settled_call_leaves_nothing (env : Env) (cfg : Config) (history later : list Call)
    (p : nat) (v : Settlement GameResponse) :
  let s := run env cfg history in
  promises s.2 !! p = Some v →
  let s' := foldl (apply_call env) s later in
  promises s'.2 !! p = Some v
  ∧ (∀ w, w ∈ writes s'.2 → write_promise w = p → timers s'.2 !! write_timer w = None)
  ∧ (∀ i pd, pendingRequests s'.1 !! i = Some pd → promise pd ≠ p).
Proof.
  intros s Hv s'.
  assert (Hv' : promises s'.2 !! p = Some v).
  { eapply lookup_weaken; [exact Hv|]. apply history_keeps. }
  assert (Hcoh : Coherent s').
  { apply history_keeps. apply run_coherent. }
  split; [exact Hv'|]. split.
  - intros w Hw <-. destruct (coh_writes _ _ _ _ _ Hcoh w Hw) as [-> _].
    apply (coh_spent _ _ _ _ _ Hcoh). by eexists.
  - intros i pd Hpd Heq. pose proof (coh_live _ _ _ _ _ Hcoh i pd Hpd) as Hopen.
    rewrite Heq in Hopen. congruence.
Qed.

Lemma settled_call_leaves_nothing_witness :
  let s' := foldl (apply_call env_refused_once)
              (run env_refused_once sample_config history_answered)
              [CallSendCommand "screenshot" ∅ None;
               Callback (TimerFired 4);
               Callback (SocketData (bytes_of ("answer to uuid-3 with two commands"
                                               +:+ LF)));
               Callback SocketClose; CallKillGame] in
  promises s'.2 !! 3%nat = Some (Resolved two_commands_response)
  ∧ (∀ w, w ∈ writes s'.2 → write_promise w = 3%nat → timers s'.2 !! write_timer w = None)
  ∧ (∀ i pd, pendingRequests s'.1 !! i = Some pd → promise pd ≠ 3%nat).
Proof.
  apply (settled_call_leaves_nothing env_refused_once sample_config history_answered).
  vm_compute. reflexivity.
Defined.

(** X2. No cross-resolution. In every history of a client, a call that
    was resolved with a response was resolved with a response carrying the
    identifier of its own request: the request written for that call has
    the response's [id]. *)
Theorem resolution_matches_request (env : Env) (cfg : Config) (history : list Call)
    (p : nat) (r : GameResponse) :
  promises (run env cfg history).2 !! p = Some (Resolved r) →
  ∃ w, w ∈ writes (run env cfg history).2
       ∧ write_promise w = p
       ∧ req_id (write_request w) = id r.
Proof.
  intros H. exact (coh_resolved _ _ _ _ _ (run_coherent env cfg history) p r H).
Qed.

Lemma resolution_matches_request_witness :
  ∃ w, w ∈ writes (run env_refused_once sample_config history_answered).2
       ∧ write_promise w = 3%nat
       ∧ req_id (write_request w) = id two_commands_response.
Proof.
  apply (resolution_matches_request env_refused_once sample_config history_answered).
  vm_compute. reflexivity.
Defined.

(** X3. No call outlives its timer. In every history, for every request
    that was written, the call is settled at the latest when its timer
    handle fires: either it is settled already, or the timer is still
    armed and firing it resolves the call. This holds also after
    [killGame], which empties the pending table without settling. *)
Theorem call_settled_when_timer_fires (env : Env) (cfg : Config) (history : list Call)
    (w : Write) :
  w ∈ writes (run env cfg history).2 →
  is_Some (promises (handleEvent env (run env cfg history)
                       (TimerFired (write_timer w))).2 !! write_promise w).
Proof.
  intros Hw. pose proof (run_coherent env cfg history) as Hcoh.
  destruct (run env cfg history) as [c rt]. unfold Coherent in Hcoh. simpl in *.
  unfold timerFired. destruct (timers rt !! write_timer w) as [t|] eqn:Ht.
  - destruct (coh_timers _ _ _ _ _ Hcoh _ _ Ht) as [Hpair _].
    destruct (coh_writes _ _ _ _ _ Hcoh _ Hw) as [Hpair' _].
    assert (timer_promise t = write_promise w) as -> by lia.
    simpl. apply settle_is_Some.
  - simpl. by apply (coh_settles _ _ _ _ _ Hcoh).
Qed.

Lemma call_settled_when_timer_fires_witness :
  is_Some (promises (handleEvent env_listening
                       (run env_listening sample_config history_killed)
                       (TimerFired 2)).2 !! 1%nat).
Proof.
  apply (call_settled_when_timer_fires env_listening sample_config history_killed
           {| write_socket := 0;
              write_request := {| req_id := "uuid-1"; req_command := "screenshot";
                                  req_args := ∅ |};
              write_promise := 1; write_timer := 2 |}).
  vm_compute. apply list_elem_of_here.
Defined.

Lemma coherent_timer_allocated pend tm pr wr fr (h : nat) :
  coherent pend tm pr wr fr → is_Some (tm !! h) → (h < fr)%nat.
Proof.
  intros Hcoh [t Ht]. destruct (coh_timers _ _ _ _ _ Hcoh _ _ Ht) as [-> (w & Hw & <- & _)].
  destruct (coh_writes _ _ _ _ _ Hcoh _ Hw) as [<- ?]. done.
Qed.

(** X4. Round trip of a command. In a state reached by any history, a
    [sendCommand] that registers a request, followed by a line that
    decodes to a response with the request's identifier, resolves exactly
    this call with exactly this response; the entry leaves the pending
    table, its timer is cancelled, and no other call or timer is touched.
    The same line received again is ignored. *)
Theorem response_resolves_its_call (env : Env) (command : string)
    (args : gmap string Json) (timeoutMs : option Z) (s s1 : Sys) (p h : nat)
    (line : string) (response : GameResponse) :
  Coherent s →
  sendCommand env command args timeoutMs s = (Pending p h, s1) →
  decode env line = Some response →
  id response = randomUUID env (fresh s.2) →
  let s2 := handleMessage env line s1 in
  promises s.2 !! p = None
  ∧ promises s2.2 = <[p := Resolved response]> (promises s.2)
  ∧ pendingRequests s2.1 = delete (id response) (pendingRequests s.1)
  ∧ timers s2.2 = timers s.2
  ∧ handleMessage env line s2 = s2.
Proof.
  intros Hcoh Hsend Hdec Hid. destruct s as [c rt]. unfold Coherent in Hcoh. simpl in *.
  unfold sendCommand in Hsend.
  destruct (isConnected c); [|done]. destruct (socket c) as [sock|]; [|done].
  injection Hsend as <- <- <-.
  assert (Hopen : promises rt !! fresh rt = None).
  { destruct (promises rt !! fresh rt) eqn:E; [|done].
    pose proof (coh_allocated _ _ _ _ _ Hcoh (fresh rt) (mk_is_Some _ _ E)). lia. }
  assert (Hunarmed : timers rt !! S (fresh rt) = None).
  { destruct (timers rt !! S (fresh rt)) eqn:E; [|done].
    pose proof (coherent_timer_allocated _ _ _ _ _ _ Hcoh (mk_is_Some _ _ E)). lia. }
  unfold decode in Hdec.
  destruct (JSON_parse env line) as [parsed|] eqn:Hparse; simpl in Hdec; [|done].
  assert (Hstep : ∀ c' rt' pd, pendingRequests c' !! id response = pd →
            handleMessage env line (c', rt')
            = match pd with
              | Some pending =>
                  (set_pendingRequests (delete (id response) (pendingRequests c')) c',
                   resolve (promise pending) response
                     (clearTimeout (timeoutHandle pending) rt'))
              | None => (c', rt')
              end).
  { intros c' rt' pd <-. unfold handleMessage. by rewrite Hparse, Hdec. }
  cbv zeta. erewrite Hstep by (simpl; rewrite Hid; apply lookup_insert_eq).
  cbv beta iota. erewrite Hstep by (simpl; apply lookup_delete_eq).
  simpl. split; [done|]. split.
  { unfold settle. by rewrite Hopen. }
  split; [by rewrite Hid, delete_insert_eq|].
  split; [by rewrite delete_insert_eq, delete_id|]. done.
Qed.

Lemma response_resolves_its_call_witness :
  let s := run env_refused_once sample_config [CallConnect no_options] in
  let s2 := handleMessage env_refused_once "answer to uuid-3 with two commands"
              (sendCommand env_refused_once "list_commands" ∅ None s).2 in
  promises s.2 !! 3%nat = None
  ∧ promises s2.2 = <[3%nat := Resolved two_commands_response]> (promises s.2)
  ∧ pendingRequests s2.1 = delete (id two_commands_response) (pendingRequests s.1)
  ∧ timers s2.2 = timers s.2
  ∧ handleMessage env_refused_once "answer to uuid-3 with two commands" s2 = s2.
Proof.
  apply (response_resolves_its_call env_refused_once "list_commands" ∅ None
           (run env_refused_once sample_config [CallConnect no_options])
           (sendCommand env_refused_once "list_commands" ∅ None
              (run env_refused_once sample_config [CallConnect no_options])).2
           3 4 "answer to uuid-3 with two commands" two_commands_response).
  - apply run_coherent.
  - vm_compute. reflexivity.
  - vm_compute. reflexivity.
  - vm_compute. reflexivity.
Defined.

(** X5. Response and timeout exclude each other. For a pending request
    whose timer is armed and a line that decodes to a response with its
    identifier: if the timer fires first, the late response changes
    nothing; if the response comes first, the timer handle can no longer
    fire. *)
Theorem response_and_timeout_exclude (env : Env) (s : Sys) (i : string)
    (pending : PendingRequest) (t : CommandTimer) (line : string)
    (response : GameResponse) :
  pendingRequests s.1 !! i = Some pending →
  timers s.2 !! timeoutHandle pending = Some t →
  timer_id t = i →
  decode env line = Some response →
  id response = i →
  let h := timeoutHandle pending in
  handleMessage env line (timerFired h s) = timerFired h s
  ∧ timerFired h (handleMessage env line s) = handleMessage env line s.
Proof.
  intros Hpending Ht Htid Hdec Hid. destruct s as [c rt]. simpl in Hpending, Ht.
  unfold decode in Hdec.
  destruct (JSON_parse env line) as [parsed|] eqn:Hparse; simpl in Hdec; [|done].
  cbv zeta. split.
  - unfold timerFired. rewrite Ht. unfold handleMessage. rewrite Hparse, Hdec. simpl.
    by rewrite Hid, Htid, lookup_delete_eq.
  - unfold handleMessage. rewrite Hparse, Hdec, Hid, Hpending.
    unfold timerFired. simpl. by rewrite lookup_delete_eq.
Qed.

Lemma response_and_timeout_exclude_witness :
  let s := run env_refused_once sample_config
             [CallConnect no_options; CallSendCommand "list_commands" ∅ None] in
  let line := "answer to uuid-3 with two commands" in
  handleMessage env_refused_once line (timerFired 4 s) = timerFired 4 s
  ∧ timerFired 4 (handleMessage env_refused_once line s)
    = handleMessage env_refused_once line s.
Proof.
  apply (response_and_timeout_exclude env_refused_once
           (run env_refused_once sample_config
              [CallConnect no_options; CallSendCommand "list_commands" ∅ None])
           "uuid-3" {| promise := 3; timeoutHandle := 4 |}
           {| timer_id := "uuid-3"; timer_promise := 3; timer_timeout := 10000 |}
           "answer to uuid-3 with two commands" two_commands_response);
    vm_compute; reflexivity.
Defined.

(** ** [killGame] and [shutdown] *)

(** X7. [killGame] is idempotent: called on the state it leaves, it performs
    no effect and changes nothing, so it is safe to call when already
    disconnected. *)
Theorem killGame_idempotent (env env' : Env) (s : Sys) :
  killGame env' (killGame env s) = killGame env s.
Proof.
  destruct (killGame_spec env s) as (Hstate & Hsock & Hproc & Hbuf & Hpend & _).
  destruct (killGame env s) as [c rt]. simpl in *.
  unfold killGame. rewrite Hsock, Hproc.
  destruct c. simpl in *. by subst.
Qed.

(** ** Framing of the received stream *)

Lemma substring_whole (s : string) : String.substring 0 (String.length s) s = s.
Proof. induction s as [|a s IH]; simpl; [done|by rewrite IH]. Qed.

Lemma substring_none (s : string) : String.substring 0 0 s = "".
Proof. by destruct s. Qed.

Transparent String.prefix.

(** [indexOf("\n")] and the two [slice]s, by structural recursion. *)
Lemma index_cut_line (s : string) :
  match cut_line s with
  | Some (line, rest) =>
      String.index 0 LF s = Some (String.length line)
      ∧ String.substring 0 (String.length line) s = line
      ∧ String.substring (S (String.length line))
          (String.length s - S (String.length line)) s = rest
  | None => String.index 0 LF s = None
  end.
Proof.
  unfold LF. induction s as [|a s IH]; [done|].
  cbn [cut_line String.index String.prefix].
  destruct (Ascii.eqb_spec a (Ascii.ascii_of_nat 10)) as [->|Hne].
  - destruct (Ascii.ascii_dec _ _) as [_|Hbad]; [|done].
    assert (String.prefix "" s = true) as -> by by destruct s.
    simpl. rewrite Nat.sub_0_r. split_and!; try done. apply substring_whole.
  - destruct (Ascii.ascii_dec _ _) as [Heq|_]; [by destruct Hne|].
    destruct (cut_line s) as [[line rest]|].
    + destruct IH as (-> & Hline & Hrest). simpl. rewrite Hline. done.
    + by rewrite IH.
Qed.

Lemma cut_line_shorter (s line rest : string) :
  cut_line s = Some (line, rest) → (String.length rest < String.length s)%nat.
Proof.
  revert line. induction s as [|a s IH]; intros line; [done|].
  simpl. destruct (Ascii.eqb _ _); [intros [= _ <-]; lia|].
  destruct (cut_line s) as [[l r]|]; [|done].
  intros [= _ <-]. specialize (IH l eq_refl). lia.
Qed.

Lemma cut_line_app (s line rest more : string) :
  cut_line s = Some (line, rest) → cut_line (s +:+ more) = Some (line, rest +:+ more).
Proof.
  revert line. induction s as [|a s IH]; intros line; [done|].
  change (String a s +:+ more) with (String a (s +:+ more)).
  cbn [cut_line]. destruct (Ascii.eqb _ _); [by intros [= <- <-]|].
  destruct (cut_line s) as [[l r]|]; [|done].
  intros [= <- <-]. by rewrite (IH l eq_refl).
Qed.

Lemma append_assoc (s1 s2 s3 : string) : (s1 +:+ s2) +:+ s3 = s1 +:+ (s2 +:+ s3).
Proof.
  induction s1 as [|a s1 IH]; [done|].
  change (String a ((s1 +:+ s2) +:+ s3) = String a (s1 +:+ (s2 +:+ s3))). by f_equal.
Qed.

(** One iteration of the loop of [processBuffer]. *)
Lemma processBuffer_loop_step (fuel : nat) (env : Env) (c : GameClient) (rt : Runtime) :
  processBuffer_loop (S fuel) env (c, rt)
  = match cut_line (buffer c) with
    | Some (line, rest) =>
        processBuffer_loop fuel env
          (if trim_is_empty line then (set_buffer rest c, rt)
           else handleMessage env line (set_buffer rest c, rt))
    | None => (c, rt)
    end.
Proof.
  cbn [processBuffer_loop]. pose proof (index_cut_line (buffer c)) as H.
  destruct (cut_line (buffer c)) as [[line rest]|].
  - destruct H as (-> & -> & ->). done.
  - by rewrite H.
Qed.

Lemma set_buffer_twice (x y : string) (c : GameClient) :
  set_buffer x (set_buffer y c) = set_buffer x c.
Proof. done. Qed.

(** [handleMessage] neither reads nor writes the buffer. *)
Lemma handleMessage_set_buffer (env : Env) (line text : string) (c : GameClient)
    (rt : Runtime) :
  handleMessage env line (set_buffer text c, rt)
  = (set_buffer text (handleMessage env line (c, rt)).1, (handleMessage env line (c, rt)).2).
Proof.
  unfold handleMessage.
  destruct (JSON_parse env line) as [parsed|]; [|done].
  destruct (GameResponseSchema_parse parsed) as [response|]; [|done].
  simpl. by destruct (pendingRequests c !! id response).
Qed.

(** The lines taken from a text, with the state in which the client is
    left: the loop of [processBuffer] without its fuel. *)
Lemma processBuffer_loop_fuel (fuel fuel' : nat) (env : Env) (text : string)
    (c : GameClient) (rt : Runtime) :
  (String.length text < fuel)%nat → (String.length text < fuel')%nat →
  processBuffer_loop fuel env (set_buffer text c, rt)
  = processBuffer_loop fuel' env (set_buffer text c, rt).
Proof.
  revert fuel' text c rt. induction fuel as [|fuel IH]; intros fuel' text c rt H H'; [lia|].
  destruct fuel' as [|fuel']; [lia|].
  rewrite !processBuffer_loop_step. cbn [buffer set_buffer].
  destruct (cut_line text) as [[line rest]|] eqn:Hcut; [|done].
  apply cut_line_shorter in Hcut. rewrite !set_buffer_twice.
  destruct (trim_is_empty line).
  - apply (IH fuel' rest c rt); lia.
  - rewrite handleMessage_set_buffer. apply IH; lia.
Qed.

Lemma processBuffer_loop_app (fuel : nat) (env : Env) (text more : string)
    (c : GameClient) (rt : Runtime) :
  (String.length text < fuel)%nat →
  processBuffer env (set_buffer (text +:+ more) c, rt)
  = processBuffer env
      (set_buffer (buffer (processBuffer_loop fuel env (set_buffer text c, rt)).1 +:+ more)
         (processBuffer_loop fuel env (set_buffer text c, rt)).1,
       (processBuffer_loop fuel env (set_buffer text c, rt)).2).
Proof.
  revert text c rt. induction fuel as [|fuel IH]; intros text c rt H; [lia|].
  rewrite processBuffer_loop_step. cbn [buffer set_buffer].
  destruct (cut_line text) as [[line rest]|] eqn:Hcut; [|done].
  unfold processBuffer at 1. cbn [fst]. rewrite processBuffer_loop_step.
  cbn [buffer set_buffer]. rewrite (cut_line_app _ _ _ more Hcut).
  rewrite !set_buffer_twice.
  pose proof (cut_line_shorter _ _ _ Hcut) as Hshort.
  assert (Hgo : ∀ c' rt',
            processBuffer_loop (String.length ((text +:+ more)))
              env (set_buffer (rest +:+ more) c', rt')
            = processBuffer env (set_buffer (rest +:+ more) c', rt')).
  { intros c' rt'. unfold processBuffer. apply processBuffer_loop_fuel; cbn [buffer set_buffer fst].
    - pose proof (cut_line_shorter _ _ _ (cut_line_app _ _ _ more Hcut)). lia.
    - lia. }
  destruct (trim_is_empty line).
  - rewrite Hgo. apply IH. lia.
  - rewrite !handleMessage_set_buffer. rewrite Hgo. apply IH. lia.
Qed.

Lemma append_empty (s : string) : s +:+ "" = s.
Proof.
  induction s as [|a s IH]; [done|].
  change (String a (s +:+ "") = String a s). by f_equal.
Qed.

Lemma cut_line_Some (s line rest : string) :
  cut_line s = Some (line, rest) → s = line +:+ LF +:+ rest.
Proof.
  revert line. induction s as [|a s IH]; intros line; [done|].
  cbn [cut_line]. destruct (Ascii.eqb_spec a (Ascii.ascii_of_nat 10)) as [->|Hne].
  - by intros [= <- <-].
  - destruct (cut_line s) as [[l r]|]; [|done].
    intros [= <- <-]. rewrite (IH l eq_refl) at 1.
    change (String a l +:+ LF +:+ r) with (String a (l +:+ LF +:+ r)). done.
Qed.

(** The loop of [processBuffer] takes whole lines from the front of the
    text and leaves the rest in the buffer. *)
Lemma processBuffer_loop_takes_lines (fuel : nat) (env : Env) (text : string)
    (c : GameClient) (rt : Runtime) :
  ∃ lines,
    text = lines +:+ buffer (processBuffer_loop fuel env (set_buffer text c, rt)).1
    ∧ (lines = "" ∨ ∃ l, lines = l +:+ LF).
Proof.
  revert text c rt. induction fuel as [|fuel IH]; intros text c rt.
  { exists "". split; [done|by left]. }
  rewrite processBuffer_loop_step. cbn [buffer set_buffer].
  destruct (cut_line text) as [[line rest]|] eqn:Hcut.
  2:{ exists "". split; [done|by left]. }
  apply cut_line_Some in Hcut. rewrite set_buffer_twice.
  set (s1 := if trim_is_empty line then _ else _).
  assert (∃ c' rt', s1 = (set_buffer rest c', rt')) as (c' & rt' & Hs1).
  { subst s1. destruct (trim_is_empty line); [by eexists _, _|].
    rewrite handleMessage_set_buffer. by eexists _, _. }
  clearbody s1. subst s1.
  destruct (IH rest c' rt') as (lines & Hrest & Hlines).
  exists (line +:+ LF +:+ lines). split.
  - rewrite Hcut. rewrite Hrest at 1. by rewrite !append_assoc.
  - right. destruct Hlines as [->|[l ->]].
    + exists line. by rewrite append_empty.
    + exists (line +:+ LF +:+ l). by rewrite !append_assoc.
Qed.

(** X8. After each chunk of received data the buffer holds exactly the
    trailing partial line: the decoded text (old buffer and chunk) is a
    sequence of complete lines, each ended by a line terminator, followed
    by what is kept in the buffer, and the kept part holds no line
    terminator. Nothing of an incomplete line is lost. *)
Theorem buffer_keeps_only_partial_line (env : Env) (s : Sys) (chunk : list Z) :
  let text := buffer s.1 +:+ Buffer_toString env chunk in
  let kept := buffer (handleEvent env s (SocketData chunk)).1 in
  String.index 0 LF kept = None
  ∧ ∃ lines, text = lines +:+ kept ∧ (lines = "" ∨ ∃ l, lines = l +:+ LF).
Proof.
  cbv zeta. split.
  - cbn [handleEvent]. unfold processBuffer. apply processBuffer_loop_exhausts. lia.
  - destruct s as [c rt]. cbn [handleEvent fst snd]. unfold processBuffer.
    apply processBuffer_loop_takes_lines.
Qed.

(** X9. The framing does not depend on how the stream is cut into
    chunks, as long as the cut does not fall inside a character. Each
    chunk is decoded on its own; when decoding [a] and [b] separately
    gives the text of decoding them together (always so for ASCII
    chunks), receiving [a] and then [b] leaves the client and the runtime
    exactly as receiving [a ++ b] in one chunk: the same lines are handled
    in the same order and the same partial line is kept. *)
Theorem chunking_is_irrelevant (env : Env) (s : Sys) (a b : list Z) :
  Buffer_toString env (a ++ b) = Buffer_toString env a +:+ Buffer_toString env b →
  handleEvent env (handleEvent env s (SocketData a)) (SocketData b)
  = handleEvent env s (SocketData (a ++ b)).
Proof.
  intros Hcut. destruct s as [c rt]. cbn [handleEvent fst snd].
  rewrite Hcut, <- append_assoc.
  rewrite (processBuffer_loop_app (S (String.length (buffer c +:+ Buffer_toString env a))) env
             (buffer c +:+ Buffer_toString env a) (Buffer_toString env b) c rt) by lia.
  done.
Qed.

Lemma chunking_is_irrelevant_witness :
  handleEvent env_refused_once
    (handleEvent env_refused_once (run env_refused_once sample_config
                                     [CallConnect no_options;
                                      CallSendCommand "list_commands" ∅ None])
       (SocketData (bytes_of "answer to uuid-3 ")))
    (SocketData (bytes_of ("with two commands" +:+ LF)))
  = handleEvent env_refused_once
      (run env_refused_once sample_config
         [CallConnect no_options; CallSendCommand "list_commands" ∅ None])
      (SocketData (bytes_of "answer to uuid-3 " ++ bytes_of ("with two commands" +:+ LF))).
Proof.
  apply (chunking_is_irrelevant env_refused_once).
  vm_compute. reflexivity.
Defined.

(** X10. Lines of white space are ignored: when the buffer and the
    received chunk consist of white space and line terminators only,
    nothing is decoded and nothing changes but the buffer, which keeps
    the blank partial line. *)
Theorem blank_lines_are_ignored (env : Env) (c : GameClient) (rt : Runtime)
    (chunk : list Z) :
  trim_is_empty (buffer c +:+ Buffer_toString env chunk) = true →
  ∃ rest, handleEvent env (c, rt) (SocketData chunk) = (set_buffer rest c, rt)
          ∧ trim_is_empty rest = true.
Proof.
  cbn [handleEvent fst snd]. unfold processBuffer. cbn [fst buffer set_buffer].
  generalize (S (String.length (buffer c +:+ Buffer_toString env chunk))).
  generalize (buffer c +:+ Buffer_toString env chunk). intros text fuel. revert text.
  assert (Hcut : ∀ text line rest, cut_line text = Some (line, rest) →
            trim_is_empty text = true →
            trim_is_empty line = true ∧ trim_is_empty rest = true).
  { unfold trim_is_empty. induction text as [|a text IH]; intros line rest; [done|].
    simpl. destruct (Ascii.eqb _ _).
    - intros [= <- <-] [_ H]%andb_true_iff. done.
    - destruct (cut_line text) as [[l r]|]; [|done].
      intros [= <- <-] [Ha H]%andb_true_iff. destruct (IH l r eq_refl H) as [Hl Hr].
      simpl. by rewrite Ha, Hl, Hr. }
  induction fuel as [|fuel IH]; intros text Hblank; [by exists text|].
  rewrite processBuffer_loop_step. cbn [buffer set_buffer].
  destruct (cut_line text) as [[line rest]|] eqn:Hline; [|by exists text].
  destruct (Hcut _ _ _ Hline Hblank) as [-> Hrest].
  rewrite set_buffer_twice. by apply IH.
Qed.

Lemma blank_lines_are_ignored_witness :
  ∃ rest, handleEvent env_listening sys_one_pending
            (SocketData (bytes_of (" " +:+ LF +:+ LF +:+ "  ")))
          = (set_buffer rest sys_one_pending.1, sys_one_pending.2)
          ∧ trim_is_empty rest = true.
Proof.
  apply (blank_lines_are_ignored env_listening sys_one_pending.1 sys_one_pending.2
           (bytes_of (" " +:+ LF +:+ LF +:+ "  "))).
  vm_compute. reflexivity.
Defined.

(** ** What callbacks leave alone *)

Lemma callback_frame_refl (s : Sys) : callback_frame s s.
Proof.
  split; auto. exists []. split; [by rewrite app_nil_r|constructor].
Qed.

Lemma callback_frame_trans (s1 s2 s3 : Sys) :
  callback_frame s1 s2 → callback_frame s2 s3 → callback_frame s1 s3.
Proof.
  intros [(l1 & E1 & F1) C1 P1 K1] [(l2 & E2 & F2) C2 P2 K2]. split.
  - exists (l1 ++ l2). split; [by rewrite E2, E1, app_assoc|by apply Forall_app].
  - congruence.
  - destruct P2 as [P2|P2]; [rewrite P2; exact P1|by right].
  - auto.
Qed.

(** Closes [callback_frame s s'] for a step that writes at most one
    console message and drops at most the child reference. *)
Ltac callback_frame_step :=
  split; simpl;
  [ first [ by (exists []; split; [by rewrite app_nil_r|constructor])
          | by (eexists [_]; split; [reflexivity|repeat constructor; by eexists]) ]
  | done
  | by auto
  | by auto ].

Lemma handleMessage_frame (env : Env) (line : string) (s : Sys) :
  callback_frame s (handleMessage env line s).
Proof.
  destruct s as [c rt]. unfold handleMessage.
  destruct (JSON_parse env line) as [parsed|]; [|callback_frame_step].
  destruct (GameResponseSchema_parse parsed) as [response|]; [|callback_frame_step].
  destruct (pendingRequests c !! id response); callback_frame_step.
Qed.

Lemma processBuffer_loop_frame (fuel : nat) (env : Env) (s : Sys) :
  callback_frame s (processBuffer_loop fuel env s).
Proof.
  revert s. induction fuel as [|fuel IH]; intros [c rt]; [apply callback_frame_refl|].
  cbn [processBuffer_loop].
  destruct (String.index 0 LF (buffer c)); [|apply callback_frame_refl].
  eapply callback_frame_trans; [|apply IH].
  destruct (trim_is_empty _); [callback_frame_step|].
  eapply callback_frame_trans; [|apply handleMessage_frame]. callback_frame_step.
Qed.

Lemma reject_all_children (l : list (string * PendingRequest)) (rt : Runtime) :
  children (foldl reject_pending rt l) = children rt.
Proof.
  revert rt. induction l as [|x l IH]; intros rt; [done|]. simpl. by rewrite IH.
Qed.

Lemma handleDisconnect_frame (s : Sys) : callback_frame s (handleDisconnect s).
Proof.
  destruct s as [c rt]. unfold handleDisconnect.
  destruct (reject_all_frame (map_to_list (pendingRequests c)) rt) as (_ & He & _).
  pose proof (reject_all_children (map_to_list (pendingRequests c)) rt) as Hc.
  split; simpl.
  - exists []. split; [by rewrite app_nil_r|constructor].
  - done.
  - by left.
  - intros pid. unfold is_killed. simpl in Hc. by rewrite Hc.
Qed.

Lemma is_killed_alter (f : ChildProcess → ChildProcess) (pid pid' : nat) (rt : Runtime) :
  (∀ ch, killed ch = true → killed (f ch) = true) →
  is_killed pid rt = true →
  is_killed pid (set_children (alter f pid' (children rt)) rt) = true.
Proof.
  intros Hf. unfold is_killed. simpl.
  destruct (decide (pid' = pid)) as [->|Hne].
  - rewrite lookup_alter_eq. destruct (children rt !! pid); simpl; [apply Hf|done].
  - by rewrite lookup_alter_ne.
Qed.

Lemma handleEvent_frame (env : Env) (s : Sys) (e : Event) :
  callback_frame s (handleEvent env s e).
Proof.
  destruct s as [c rt]. destruct e; cbn [handleEvent].
  - eapply callback_frame_trans; [|apply processBuffer_loop_frame]. callback_frame_step.
  - apply handleDisconnect_frame.
  - eapply callback_frame_trans; [|apply handleDisconnect_frame]. callback_frame_step.
  - unfold timerFired. destruct (timers rt !! h); callback_frame_step.
  - unfold writeFailed. destruct (writes rt !! k); callback_frame_step.
  - unfold processError. destruct (children rt !! pid); [|apply callback_frame_refl].
    split; simpl; [exists []; split; [by rewrite app_nil_r|constructor]|done|by right|].
    intros pid'. by apply (is_killed_alter _ pid' pid rt).
  - unfold processExit. destruct (children rt !! pid); [|apply callback_frame_refl].
    case_decide.
    + split; simpl; [exists []; split; [by rewrite app_nil_r|constructor]|done|by right|].
      intros pid'. by apply (is_killed_alter _ pid' pid rt).
    + callback_frame_step.
Qed.

Lemma events_frame (env : Env) (evs : list Event) (s : Sys) :
  callback_frame s (foldl (handleEvent env) s evs).
Proof.
  revert s. induction evs as [|e evs IH]; intros s; [apply callback_frame_refl|].
  simpl. eapply callback_frame_trans; [apply handleEvent_frame|apply IH].
Qed.

(** A suspension: time passes, callbacks run. *)
Lemma suspend_frame (env : Env) (nominal : Z) (s : Sys) :
  callback_frame s (suspend env nominal s).2.
Proof.
  unfold suspend. cbn [snd].
  eapply callback_frame_trans; [|apply events_frame]. destruct s. callback_frame_step.
Qed.

(** ** What only [tryConnect] does *)

Lemma no_dial_refl (s : Sys) : no_dial s s.
Proof. split; [done|]. exists []. split; [by rewrite app_nil_r|constructor]. Qed.

Lemma no_dial_trans (s1 s2 s3 : Sys) : no_dial s1 s2 → no_dial s2 s3 → no_dial s1 s3.
Proof.
  intros [C1 (l1 & E1 & F1)] [C2 (l2 & E2 & F2)]. split; [congruence|].
  exists (l1 ++ l2). split; [by rewrite E2, E1, app_assoc|by apply Forall_app].
Qed.

Lemma callback_frame_no_dial (s s' : Sys) : callback_frame s s' → no_dial s s'.
Proof.
  intros [(l & E & F) C _ _]. split; [done|]. exists l. split; [done|].
  eapply Forall_impl; [exact F|]. intros te [text ->]. simpl. tauto.
Qed.

(** Closes [no_dial s s'] for a step that performs one effect other
    than a dial. *)
Ltac no_dial_step :=
  split; simpl;
  [ done
  | first [ by (exists []; split; [by rewrite app_nil_r|constructor])
          | by (eexists [_]; split; [reflexivity|repeat constructor; simpl; tauto]) ] ].

Lemma sleep_no_dial (env : Env) (ms : Z) (s : Sys) : no_dial s (sleep env ms s).
Proof.
  unfold sleep. eapply no_dial_trans; [|apply callback_frame_no_dial, suspend_frame].
  destruct s. no_dial_step.
Qed.

Lemma kill_no_dial (env : Env) (c : GameClient) (pid : nat) (sig : Signal) (rt : Runtime) :
  no_dial (c, rt) (c, (kill env pid sig rt).2).
Proof.
  unfold kill. destruct (turn_kill _) as [[|]|]; no_dial_step.
Qed.

Lemma launchGame_no_dial (env : Env) (path : string) (s : Sys) :
  no_dial s (launchGame env path s).2.
Proof.
  destruct s as [c rt]. unfold launchGame.
  destruct (turn_spawn _); [apply no_dial_refl|].
  set (s1 := (set_gameProcess _ c, _)).
  assert (H1 : no_dial (c, rt) s1) by (subst s1; no_dial_step).
  pose proof (callback_frame_no_dial _ _ (suspend_frame env 100 s1)) as H2.
  destruct (suspend env 100 s1).2 as [c2 rt2].
  eapply no_dial_trans; [exact H1|]. eapply no_dial_trans; [exact H2|].
  destruct (children rt2 !! fresh rt ≫= launch) as [[|]|]; no_dial_step.
Qed.

Lemma killGame_no_dial (env : Env) (s : Sys) : no_dial s (killGame env s).
Proof.
  destruct s as [c rt]. unfold killGame.
  set (s1 := match socket c with
             | Some sock => (set_socket None c, perform (SocketDestroy sock) rt)
             | None => (c, rt)
             end).
  assert (H1 : no_dial (c, rt) s1) by (subst s1; destruct (socket c); no_dial_step).
  destruct s1 as [c1 rt1].
  assert (Hlast : ∀ c' rt', no_dial (c, rt) (c', rt') →
            no_dial (c, rt)
              (set_pendingRequests ∅ (set_buffer "" (set_state disconnected c')), rt')).
  { intros c' rt' H. eapply no_dial_trans; [exact H|]. no_dial_step. }
  destruct (gameProcess c1) as [pid|]; [|by apply Hlast].
  pose proof (kill_no_dial env c1 pid SIGTERM rt1) as H2.
  destruct (kill env pid SIGTERM rt1) as [returned rt2]. cbn [snd] in H2.
  destruct returned.
  2:{ apply Hlast. eapply no_dial_trans; [exact H1|].
      eapply no_dial_trans; [exact H2|]. no_dial_step. }
  pose proof (sleep_no_dial env 500 (c1, rt2)) as H3.
  destruct (sleep env 500 (c1, rt2)) as [c3 rt3].
  assert (H4 : no_dial (c3, rt3)
                 match gameProcess c3 with
                 | Some pid' =>
                     if is_killed pid' rt3 then (c3, rt3)
                     else (c3, (kill env pid' SIGKILL rt3).2)
                 | None => (c3, rt3)
                 end).
  { destruct (gameProcess c3) as [pid'|]; [|apply no_dial_refl].
    destruct (is_killed pid' rt3); [apply no_dial_refl|apply kill_no_dial]. }
  destruct (match gameProcess c3 with Some _ => _ | None => _ end) as [c4 rt4].
  apply Hlast. eapply no_dial_trans; [exact H1|]. eapply no_dial_trans; [exact H2|].
  eapply no_dial_trans; [exact H3|]. eapply no_dial_trans; [exact H4|]. no_dial_step.
Qed.

(** X6. Whatever the client's state and whatever happens during the
    grace period, [killGame] (and [shutdown]) returns with the state
    [disconnected], no socket, no child process, an empty buffer and an
    empty pending table; [isConnected()] is false afterwards and the
    configuration and the cached command list are as before. *)
Theorem killGame_postcondition (env : Env) (s : Sys) :
  let s' := shutdown env s in
  state s'.1 = disconnected
  ∧ socket s'.1 = None
  ∧ gameProcess s'.1 = None
  ∧ buffer s'.1 = ""
  ∧ pendingRequests s'.1 = ∅
  ∧ isConnected s'.1 = false
  ∧ config s'.1 = config s.1
  ∧ availableCommands s'.1 = availableCommands s.1.
Proof.
  unfold shutdown.
  destruct (killGame_spec env s) as (Hstate & Hsock & Hproc & Hbuf & Hpend & Hcfg & _).
  destruct (killGame_no_dial env s) as [Hcache _].
  cbv zeta. split_and!; try done. apply isConnected_state. by rewrite Hstate.
Qed.

Lemma no_dial_dials (s s' : Sys) :
  no_dial s s' → dials_of (effects s'.2) = dials_of (effects s.2).
Proof.
  intros [_ (l & -> & F)]. unfold dials_of. rewrite omap_app.
  assert (omap (λ te : Z * Effect,
                  match te.2 with SocketConnect _ to_port => Some to_port | _ => None end) l
          = []) as ->; [|by rewrite app_nil_r].
  induction F as [|te l Hte F IH]; [done|].
  simpl. destruct te as [t0 []]; simpl in *; tauto.
Qed.

(** One dial: the log gains the dial, then console messages and possibly
    the destruction of the failed socket; the cache stays; a successful
    dial leaves the client with a socket. *)
Lemma tryConnect_one_dial (env : Env) (to_port : Z) (s : Sys) :
  availableCommands (tryConnect env to_port s).2.1 = availableCommands s.1
  ∧ dials_of (effects (tryConnect env to_port s).2.2) = dials_of (effects s.2) ++ [to_port]
  ∧ ((tryConnect env to_port s).1 = None →
     socket (tryConnect env to_port s).2.1 ≠ None).
Proof.
  destruct s as [c rt]. unfold tryConnect.
  set (rt1 := perform _ _).
  pose proof (callback_frame_no_dial _ _ (suspend_frame env 0 (c, rt1))) as Hnd.
  pose proof (no_dial_dials _ _ Hnd) as Hd. destruct Hnd as [C _].
  destruct (suspend env 0 (c, rt1)) as [t [c2 rt2]]. subst rt1. simpl in C, Hd.
  assert (Hd' : dials_of (effects rt2) = dials_of (effects rt) ++ [to_port]).
  { rewrite Hd. unfold dials_of. by rewrite omap_app. }
  destruct (turn_dial t); simpl; split_and!; try done.
  unfold dials_of in *. by rewrite omap_app, Hd', app_nil_r.
Qed.

Lemma append_nonempty (a : Ascii.ascii) (s t : string) : String a s +:+ t ≠ "".
Proof. change (String a (s +:+ t) ≠ ""). done. Qed.

(** ** What [connect] reports and how often it dials *)

Lemma connectLoop_account (fuel : nat) (env : Env) (path : string)
    (to_port timeoutMs startTime : Z) (lastError : option JsError) (s : Sys)
    (r : ConnectResult) (s' : Sys) :
  state s.1 ≠ connected →
  startTime ≤ now s.2 →
  connectLoop fuel env path to_port timeoutMs startTime lastError s = Some (r, s') →
  (∃ n : nat,
     dials_of (effects s'.2) = dials_of (effects s.2) ++ replicate n to_port
     ∧ 100 * Z.of_nat n ≤ Z.max 0 (timeoutMs - (now s.2 - startTime) + 99))
  ∧ (result_connected r = true ∧ result_error r = None
     ∧ result_commands r = Some (availableCommands s'.1) ∧ isConnected s'.1 = true
     ∨ result_connected r = false ∧ result_commands r = None
       ∧ (∃ msg, result_error r = Some msg ∧ msg ≠ "")
       ∧ availableCommands s'.1 = availableCommands s.1 ∧ isConnected s'.1 = false).
Proof.
  revert lastError s. induction fuel as [|fuel IH]; intros lastError s Hst Hnow Hrun; [done|].
  cbn [connectLoop] in Hrun.
  unfold loop_failed in Hrun.
  assert (Hfailed : ∀ (e : option JsError) (text : string),
            match e with
            | Some e => if String.eqb (message e) "" then "Connection timeout after " +:+ text
                        else message e
            | None => "Connection timeout after " +:+ text
            end ≠ "").
  { intros e text. destruct e as [e|]; [|apply append_nonempty].
    destruct (String.eqb (message e) "") eqn:E; [apply append_nonempty|].
    by apply String.eqb_neq. }
  destruct (now s.2 - startTime <? timeoutMs) eqn:Hcond.
  2:{ injection Hrun as <- <-. split.
      - exists 0%nat. simpl. rewrite app_nil_r. split; [done|lia].
      - right. simpl. split_and!; try done.
        eexists. split; [reflexivity|apply Hfailed]. }
  apply Z.ltb_lt in Hcond.
  pose proof (tryConnect_advances env to_port s) as [A1 A2 _ _ _].
  destruct (tryConnect_one_dial env to_port s) as (Acache & Adial & Asock).
  destruct (tryConnect env to_port s) as [dialled s1]. cbn [fst snd] in *.
  assert (Hone : ∀ s2 : Sys, dials_of (effects s2.2) = dials_of (effects s1.2) →
            ∃ n : nat,
              dials_of (effects s2.2) = dials_of (effects s.2) ++ replicate n to_port
              ∧ 100 * Z.of_nat n ≤ Z.max 0 (timeoutMs - (now s.2 - startTime) + 99)).
  { intros s2 H2. exists 1%nat. rewrite H2, Adial. split; [done|lia]. }
  destruct dialled as [err|].
  2:{ rewrite fetchCommands_not_connected in Hrun by auto. destruct s1 as [c1 rt1].
      simpl in Hrun. injection Hrun as <- <-. split; [by apply (Hone (_, rt1))|].
      left. split_and!; try done. apply isConnected_true. simpl. auto. }
  case_bool_decide.
  2:{ injection Hrun as <- <-. split; [by apply (Hone (_, s1.2))|].
      right. simpl. split_and!; try done.
      eexists. split; [reflexivity|apply (Hfailed (Some err))]. }
  assert (∃ launched s2,
            match gameProcess s1.1 with
            | Some _ => (None, s1)
            | None => launchGame env path s1
            end = (launched, s2) ∧ advances s1 s2 ∧ no_dial s1 s2)
    as (launched & s2 & Heq & [B1 B2 _ _ _] & Bnd).
  { destruct (gameProcess s1.1).
    - eexists _, _. split; [reflexivity|]. split; [apply advances_refl|apply no_dial_refl].
    - pose proof (launchGame_advances env path s1).
      pose proof (launchGame_no_dial env path s1).
      destruct (launchGame env path s1). by eexists _, _. }
  rewrite Heq in Hrun. pose proof (no_dial_dials _ _ Bnd) as Bdial.
  destruct Bnd as [Bcache _].
  destruct launched as [msg|].
  { injection Hrun as <- <-. split; [by apply Hone|].
    right. split_and!; try done.
    - eexists. split; [reflexivity|apply append_nonempty].
    - congruence.
    - apply isConnected_state. auto. }
  set (elapsed := now s2.2 - startTime) in Hrun.
  destruct (sleep_advances env (waitTime elapsed) s2) as (C1 & C2 & _).
  pose proof (sleep_no_dial env (waitTime elapsed) s2) as Cnd.
  pose proof (no_dial_dials _ _ Cnd) as Cdial. destruct Cnd as [Ccache _].
  assert (100 ≤ waitTime elapsed ≤ 1000) by (apply waitTime_bounds; lia).
  destruct (IH _ _ (C2 (B2 (A2 Hst))) ltac:(lia) Hrun) as [(n & Hn & Hbound) Hres].
  split.
  - exists (S n). rewrite Hn, Cdial, Bdial, Adial, <- app_assoc. split; [done|lia].
  - destruct Hres as [Hok | (? & ? & ? & Hcache & ?)]; [by left|].
    right. split_and!; try done. congruence.
Qed.

(** X11. What [connect] reports agrees with the client it leaves. A
    success carries no error, returns exactly the command list that is
    cached afterwards, and leaves [isConnected()] true. A failure carries
    no command list and a non-empty error message and leaves the cached
    command list as it was; if a project path was resolvable it also
    leaves [isConnected()] false. *)
Theorem connect_result_agrees (env : Env) (options : ConnectOptions) (s : Sys)
    (r : ConnectResult) (s' : Sys) :
  connect env options s = Some (r, s') →
  if result_connected r then
    result_error r = None
    ∧ result_commands r = Some (availableCommands s'.1)
    ∧ isConnected s'.1 = true
  else
    result_commands r = None
    ∧ (∃ msg, result_error r = Some msg ∧ msg ≠ "")
    ∧ availableCommands s'.1 = availableCommands s.1
    ∧ (nonempty (or_string (opt_projectPath options) (projectPath (config s.1))) ≠ None →
       isConnected s'.1 = false).
Proof.
  intros Hrun.
  destruct (nonempty (or_string (opt_projectPath options) (projectPath (config s.1))))
    as [path|] eqn:Hpath.
  2:{ unfold connect in Hrun. rewrite Hpath in Hrun. injection Hrun as <- <-. simpl.
      split_and!; try done. by eexists. }
  rewrite (connect_unfold env options s path Hpath) in Hrun. cbv zeta in Hrun.
  set (s0 := if bool_decide _ then _ else _) in Hrun.
  assert (Hcache : availableCommands s0.1 = availableCommands s.1).
  { subst s0. case_bool_decide; [apply killGame_no_dial|done]. }
  destruct (isConnected s0.1) eqn:Hconn.
  { injection Hrun as <- <-. simpl. done. }
  apply connectLoop_account in Hrun as [_ Hres]; [|done|simpl; lia].
  destruct Hres as [(-> & ? & ? & ?) | (-> & ? & ? & ? & ?)]; [done|].
  split_and!; try done. simpl in *. congruence.
Qed.

Lemma connect_result_agrees_witness :
  ∃ r s', connect env_always_refused no_options fresh_client = Some (r, s')
  ∧ if result_connected r then
      result_error r = None
      ∧ result_commands r = Some (availableCommands s'.1)
      ∧ isConnected s'.1 = true
    else
      result_commands r = None
      ∧ (∃ msg, result_error r = Some msg ∧ msg ≠ "")
      ∧ availableCommands s'.1 = availableCommands fresh_client.1
      ∧ (nonempty (or_string (opt_projectPath no_options)
                     (projectPath (config fresh_client.1))) ≠ None →
         isConnected s'.1 = false).
Proof.
  destruct (connect env_always_refused no_options fresh_client) as [[r s']|] eqn:Hrun.
  - exists r, s'. split; [reflexivity|].
    exact (connect_result_agrees env_always_refused no_options fresh_client r s' Hrun).
  - vm_compute in Hrun. discriminate Hrun.
Defined.

(** X12. One [connect] call dials only the port it resolved, and at most
    [ceil(timeoutMs / 100)] times: a dial is only started while the
    budget is not used up, and every retry waits at least 100ms first. *)
Theorem connect_dials_bounded (env : Env) (options : ConnectOptions) (s : Sys)
    (res : ConnectResult * Sys) :
  connect env options s = Some res →
  let to_port := or_number (opt_port options) (port (config s.1)) in
  let timeoutMs := or_number (opt_timeoutMs options) (connectTimeoutMs (config s.1)) in
  ∃ n : nat,
    dials_of (effects res.2.2) = dials_of (effects s.2) ++ replicate n to_port
    ∧ 100 * Z.of_nat n ≤ Z.max 0 (timeoutMs + 99).
Proof.
  intros Hrun to_port timeoutMs.
  assert (Hnone : dials_of (effects res.2.2) = dials_of (effects s.2) →
            ∃ n : nat,
              dials_of (effects res.2.2) = dials_of (effects s.2) ++ replicate n to_port
              ∧ 100 * Z.of_nat n ≤ Z.max 0 (timeoutMs + 99)).
  { intros H. exists 0%nat. simpl. rewrite app_nil_r. split; [done|lia]. }
  destruct (nonempty (or_string (opt_projectPath options) (projectPath (config s.1))))
    as [path|] eqn:Hpath.
  2:{ unfold connect in Hrun. rewrite Hpath in Hrun. injection Hrun as <-. by apply Hnone. }
  rewrite (connect_unfold env options s path Hpath) in Hrun. cbv zeta in Hrun.
  set (s0 := if bool_decide _ then _ else _) in Hrun.
  assert (Hdials : dials_of (effects s0.2) = dials_of (effects s.2)).
  { subst s0. case_bool_decide; [apply no_dial_dials, killGame_no_dial|done]. }
  destruct (isConnected s0.1) eqn:Hconn.
  { injection Hrun as <-. by apply Hnone. }
  destruct res as [r s'].
  apply connectLoop_account in Hrun as [(n & Hn & Hbound) _]; [|done|simpl; lia].
  exists n. simpl in *. rewrite Hn, Hdials. split; [done|].
  fold timeoutMs in Hbound. lia.
Qed.

Lemma connect_dials_bounded_witness :
  ∃ res, connect env_always_refused no_options fresh_client = Some res
  ∧ ∃ n : nat,
      dials_of (effects res.2.2)
      = dials_of (effects fresh_client.2)
        ++ replicate n (or_number (opt_port no_options) (port (config fresh_client.1)))
      ∧ 100 * Z.of_nat n
        ≤ Z.max 0 (or_number (opt_timeoutMs no_options)
                     (connectTimeoutMs (config fresh_client.1)) + 99).
Proof.
  destruct (connect env_always_refused no_options fresh_client) as [res|] eqn:Hrun.
  - exists res. split; [reflexivity|].
    exact (connect_dials_bounded env_always_refused no_options fresh_client res Hrun).
  - vm_compute in Hrun. discriminate Hrun.
Defined.

(** ** Escalation in [killGame] *)

(** ** The backoff between retries *)

Lemma retries_of_app (l1 l2 : list (Z * Effect)) :
  retries_of (l1 ++ l2) = retries_of l1 ++ retries_of l2.
Proof. unfold retries_of. apply omap_app. Qed.

Lemma retries_of_no_dial (log : list (Z * Effect)) :
  Forall (λ te, ¬ is_dial te.2) log →
  retries_of log = (λ w, Waited w.1 w.2) <$> sleeps_of log.
Proof.
  induction 1 as [|[t e] log He _ IH]; [done|].
  change (retries_of ((t, e) :: log))
    with (from_option (λ x, x :: retries_of log) (retries_of log)
            (match e with
             | SocketConnect _ _ => Some (Dialled t)
             | Sleep ms => Some (Waited t ms)
             | _ => None
             end)).
  change (sleeps_of ((t, e) :: log))
    with (from_option (λ x, x :: sleeps_of log) (sleeps_of log)
            (match e with Sleep ms => Some (t, ms) | _ => None end)).
  rewrite IH. destruct e; simpl in *; done.
Qed.

(** A step that dials nothing adds to the retry steps the waits it
    started. *)
Lemma no_dial_retries (s s' : Sys) (extra : list (Z * Z)) :
  no_dial s s' →
  sleeps_of (effects s'.2) = sleeps_of (effects s.2) ++ extra →
  retries_of (effects s'.2)
  = retries_of (effects s.2) ++ ((λ w, Waited w.1 w.2) <$> extra).
Proof.
  intros [_ (log & E & F)] Hsleeps. rewrite E in *.
  unfold sleeps_of in Hsleeps. rewrite omap_app in Hsleeps.
  apply app_inv_head in Hsleeps.
  rewrite retries_of_app, (retries_of_no_dial log F). unfold sleeps_of. by rewrite Hsleeps.
Qed.

Lemma tryConnect_retries (env : Env) (to_port : Z) (s : Sys) :
  retries_of (effects (tryConnect env to_port s).2.2)
  = retries_of (effects s.2) ++ [Dialled (now s.2)].
Proof.
  destruct s as [c rt]. unfold tryConnect.
  set (rt1 := perform _ _).
  pose proof (no_dial_retries (c, rt1) (suspend env 0 (c, rt1)).2 []
                (callback_frame_no_dial _ _ (suspend_frame env 0 (c, rt1)))) as H.
  destruct (suspend_advances env 0 (c, rt1)) as [[_ _ H3 _ _] _]; [lia|].
  rewrite H3, app_nil_r in H. specialize (H eq_refl). rewrite app_nil_r in H.
  destruct (suspend env 0 (c, rt1)) as [t [c2 rt2]]. subst rt1. simpl in H.
  rewrite retries_of_app in H. simpl in H.
  destruct (turn_dial t); simpl; [|done].
  by rewrite retries_of_app, H, app_nil_r.
Qed.

Lemma sleep_retries (env : Env) (ms : Z) (s : Sys) :
  retries_of (effects (sleep env ms s).2)
  = retries_of (effects s.2) ++ [Waited (now s.2) ms].
Proof.
  destruct (sleep_advances env ms s) as (_ & _ & H & _).
  apply (no_dial_retries s (sleep env ms s) [(now s.2, ms)] (sleep_no_dial env ms s) H).
Qed.

Lemma launchGame_retries (env : Env) (path : string) (s : Sys) :
  retries_of (effects (launchGame env path s).2.2) = retries_of (effects s.2).
Proof.
  destruct (launchGame_advances env path s) as [_ _ H _ _].
  rewrite (no_dial_retries s (launchGame env path s).2 [] (launchGame_no_dial env path s)).
  - apply app_nil_r.
  - by rewrite app_nil_r.
Qed.

Lemma Sorted_le_lower (a b : Z) (l : list Z) :
  b ≤ a → Sorted Z.le (a :: l) → Sorted Z.le (b :: l).
Proof.
  intros Hle H. apply Sorted_inv in H as [Hl Hhd]. constructor; [done|].
  destruct Hhd; constructor. lia.
Qed.

(** The loop of [connect], step by step: with enough fuel it returns,
    and the dials and waits it performs form a schedule whose times are
    in order: each refused dial is followed by one backoff wait, computed
    from the time elapsed when the wait begins, and the next dial comes
    only when that wait is over and the budget is not used up. *)
Lemma connectLoop_schedule (fuel : nat) (env : Env) (path : string)
    (to_port timeoutMs startTime : Z) (lastError : option JsError) (s : Sys) :
  state s.1 ≠ connected →
  startTime ≤ now s.2 →
  Z.max 0 (timeoutMs - (now s.2 - startTime)) < Z.of_nat fuel →
  ∃ r s' rounds last,
    connectLoop fuel env path to_port timeoutMs startTime lastError s = Some (r, s')
    ∧ retries_of (effects s'.2)
      = retries_of (effects s.2) ++ schedule waitTime startTime rounds last
    ∧ Sorted Z.le ((now s.2 - startTime) :: schedule_times waitTime rounds last)
    ∧ Forall (λ d, d < timeoutMs) (rounds.*1 ++ option_list last)
    ∧ Forall (Z.le (now s.2 - startTime)) rounds.*2
    ∧ StronglySorted Z.le rounds.*2.
Proof.
  revert lastError s. induction fuel as [|fuel IH]; intros lastError s Hst Hnow Hfuel; [lia|].
  cbn [connectLoop]. destruct (now s.2 - startTime <? timeoutMs) eqn:Hcond.
  2:{ eexists _, _, [], None. split; [reflexivity|]. simpl.
      rewrite app_nil_r. split_and!; try done; repeat constructor. }
  apply Z.ltb_lt in Hcond.
  assert (Hone : ∀ (r : ConnectResult) (s' : Sys),
            retries_of (effects s'.2) = retries_of (effects s.2) ++ [Dialled (now s.2)] →
            ∃ r' s'' rounds last,
              Some (r, s') = Some (r', s'')
              ∧ retries_of (effects s''.2)
                = retries_of (effects s.2) ++ schedule waitTime startTime rounds last
              ∧ Sorted Z.le ((now s.2 - startTime) :: schedule_times waitTime rounds last)
              ∧ Forall (λ d, d < timeoutMs) (rounds.*1 ++ option_list last)
              ∧ Forall (Z.le (now s.2 - startTime)) rounds.*2
              ∧ StronglySorted Z.le rounds.*2).
  { intros r s' H. exists r, s', [], (Some (now s.2 - startTime)).
    split; [done|]. unfold schedule, schedule_times. simpl. split_and!.
    - rewrite H. do 3 f_equal. lia.
    - repeat constructor. lia.
    - by repeat constructor.
    - constructor.
    - constructor. }
  pose proof (tryConnect_advances env to_port s) as [A1 A2 _ _ _].
  pose proof (tryConnect_retries env to_port s) as A3.
  destruct (tryConnect env to_port s) as [dialled s1]. cbn [snd] in *.
  destruct dialled as [err|].
  2:{ rewrite fetchCommands_not_connected by auto. destruct s1 as [c1 rt1].
      simpl. by apply Hone. }
  case_bool_decide.
  2:{ by apply Hone. }
  assert (∃ launched s2,
            match gameProcess s1.1 with
            | Some _ => (None, s1)
            | None => launchGame env path s1
            end = (launched, s2) ∧ advances s1 s2
            ∧ retries_of (effects s2.2) = retries_of (effects s1.2))
    as (launched & s2 & -> & [B1 B2 _ _ _] & B3).
  { destruct (gameProcess s1.1).
    - eexists _, _. split; [reflexivity|]. split; [apply advances_refl|done].
    - pose proof (launchGame_advances env path s1).
      pose proof (launchGame_retries env path s1).
      destruct (launchGame env path s1). by eexists _, _. }
  destruct launched as [msg|].
  { apply Hone. by rewrite B3. }
  set (elapsed := now s2.2 - startTime).
  destruct (sleep_advances env (waitTime elapsed) s2) as (C1 & C2 & _).
  pose proof (sleep_retries env (waitTime elapsed) s2) as C3.
  assert (100 ≤ waitTime elapsed ≤ 1000) by (apply waitTime_bounds; lia).
  destruct (IH (Some err) (sleep env (waitTime elapsed) s2))
    as (r & s' & rounds & last & Hrun & Hsched & Htimes & Hdials & Hlow & Hsorted);
    [auto|lia|lia|].
  exists r, s', ((now s.2 - startTime, elapsed) :: rounds), last.
  split; [exact Hrun|]. split_and!.
  - rewrite Hsched, C3, B3, A3. unfold schedule. simpl.
    rewrite <- !app_assoc. simpl. do 2 f_equal; [f_equal; lia|].
    f_equal. f_equal. subst elapsed. lia.
  - unfold schedule_times in *. simpl.
    constructor; [|constructor; lia]. constructor; [|constructor; lia].
    constructor; [|constructor; lia].
    eapply Sorted_le_lower; [|exact Htimes]. lia.
  - simpl. constructor; [lia|done].
  - simpl. constructor; [lia|]. eapply Forall_impl; [exact Hlow|]. simpl. lia.
  - simpl. constructor; [exact Hsorted|]. eapply Forall_impl; [exact Hlow|]. simpl. lia.
Qed.

(** C8. One [connect] call always returns, and the dials and waits it
    performs form, after the 500ms grace period a restart may add, a
    retry schedule: every dial but the last is followed by exactly one
    backoff wait, and every dial but the first is preceded by one. The
    wait that begins [e] ms after the loop started lasts
    [min(100 * 2^floor(e / 1000), 1000)] ms. The times are in order: a
    dial, then the begin of its wait, then the end of that wait, then the
    next dial; so no retry is made before its wait is over. Every dial is
    made while the budget [timeoutMs] is not used up. Hence the waits do
    not decrease from one retry to the next, and each lasts between 100
    and 1000 ms. *)
Theorem connect_backoff (env : Env) (options : ConnectOptions) (s : Sys) :
  let timeoutMs := or_number (opt_timeoutMs options) (connectTimeoutMs (config s.1)) in
  let wait := λ e, Z.min (100 * 2 ^ (e / 1000)) 1000 in
  ∃ (res : ConnectResult * Sys) (start : Z) (grace : list RetryStep)
    (rounds : list (Z * Z)) (last : option Z),
    connect env options s = Some res
    ∧ retries_of (effects res.2.2)
      = retries_of (effects s.2) ++ grace ++ schedule wait start rounds last
    ∧ (grace = [] ∨ opt_restart options = Some true ∧ ∃ t, grace = [Waited t 500])
    ∧ now s.2 ≤ start
    ∧ Sorted Z.le (0 :: schedule_times wait rounds last)
    ∧ Forall (λ d, d < timeoutMs) (rounds.*1 ++ option_list last)
    ∧ Sorted Z.le (wait <$> rounds.*2)
    ∧ Forall (λ w, 100 ≤ w ≤ 1000) (wait <$> rounds.*2).
Proof.
  cbv zeta. change (λ e, Z.min (100 * 2 ^ (e / 1000)) 1000) with waitTime.
  assert (Hnone : ∀ (res : ConnectResult * Sys) start grace,
            retries_of (effects res.2.2) = retries_of (effects s.2) ++ grace →
            grace = [] ∨ opt_restart options = Some true ∧ (∃ t, grace = [Waited t 500]) →
            now s.2 ≤ start →
            ∃ (res' : ConnectResult * Sys) (start : Z) (grace : list RetryStep)
              (rounds : list (Z * Z)) (last : option Z),
              Some res = Some res'
              ∧ retries_of (effects res'.2.2)
                = retries_of (effects s.2) ++ grace ++ schedule waitTime start rounds last
              ∧ (grace = [] ∨ opt_restart options = Some true ∧ ∃ t, grace = [Waited t 500])
              ∧ now s.2 ≤ start
              ∧ Sorted Z.le (0 :: schedule_times waitTime rounds last)
              ∧ Forall (λ d, d < or_number (opt_timeoutMs options)
                                   (connectTimeoutMs (config s.1)))
                  (rounds.*1 ++ option_list last)
              ∧ Sorted Z.le (waitTime <$> rounds.*2)
              ∧ Forall (λ w, 100 ≤ w ≤ 1000) (waitTime <$> rounds.*2)).
  { intros res start grace H1 H2 H3. exists res, start, grace, [], None.
    unfold schedule, schedule_times. simpl. rewrite app_nil_r.
    split_and!; try done; repeat constructor. }
  destruct (nonempty (or_string (opt_projectPath options) (projectPath (config s.1))))
    as [path|] eqn:Hpath.
  2:{ unfold connect. rewrite Hpath.
      apply (Hnone _ (now s.2) []); [by rewrite app_nil_r|by left|done]. }
  rewrite (connect_unfold env options s path Hpath). cbv zeta.
  set (s0 := if bool_decide _ then _ else _).
  assert (∃ grace,
            (grace = [] ∨ opt_restart options = Some true ∧ ∃ t, grace = [Waited t 500])
            ∧ retries_of (effects s0.2) = retries_of (effects s.2) ++ grace
            ∧ now s.2 ≤ now s0.2)
    as (grace & Hg & Hs0 & Hnow).
  { subst s0. case_bool_decide as Hr.
    - destruct (killGame_spec env s)
        as (_ & _ & _ & _ & _ & _ & Hn & grace & Hgrace & Hs).
      exists ((λ w, Waited w.1 w.2) <$> grace). split_and!.
      + destruct Hgrace as [-> | [t ->]]; [by left|]. right. split; [done|by exists t].
      + by apply no_dial_retries; [apply killGame_no_dial|].
      + done.
    - exists []. rewrite app_nil_r. split_and!; auto; lia. }
  destruct (isConnected s0.1).
  { by apply (Hnone (_, s0) (now s0.2) grace). }
  destruct (connectLoop_schedule
              (loop_fuel (or_number (opt_timeoutMs options) (connectTimeoutMs (config s.1))))
              env path
              (or_number (opt_port options) (port (config s.1)))
              (or_number (opt_timeoutMs options) (connectTimeoutMs (config s.1)))
              (now s0.2) None (set_state connecting s0.1, s0.2))
    as (r & s' & rounds & last & -> & Hsched & Htimes & Hdials & Hlow & Hsorted).
  { done. }
  { simpl. lia. }
  { unfold loop_fuel. simpl. lia. }
  simpl in Hsched, Htimes, Hlow. rewrite Z.sub_diag in Htimes, Hlow.
  exists (r, s'), (now s0.2), grace, rounds, last. split_and!.
  - done.
  - simpl. by rewrite Hsched, Hs0, <- app_assoc.
  - done.
  - done.
  - done.
  - done.
  - by apply StronglySorted_Sorted, waits_sorted.
  - apply Forall_fmap. eapply Forall_impl; [exact Hlow|].
    intros e He. simpl. by apply waitTime_bounds.
Qed.

(** The schedule when nothing ever listens, with the default 5000ms
    budget and every suspension 3ms late: the first dial is refused and
    the game launched, then wait and dial take turns; 19 rounds, and no
    dial after the last wait, which ends beyond the budget. *)
Example retries_when_always_refused :
  retries_of (effects (after fresh_client
                         (connect env_always_refused no_options fresh_client)).2)
  = schedule waitTime 0
      [(0, 106); (209, 212); (315, 318); (421, 424); (527, 530); (633, 636);
       (739, 742); (845, 848); (951, 954); (1057, 1060); (1263, 1266); (1469, 1472);
       (1675, 1678); (1881, 1884); (2087, 2090); (2493, 2496); (2899, 2902);
       (3305, 3308); (4111, 4114)]
      None
  ∧ take 5 (retries_of (effects (after fresh_client
                                   (connect env_always_refused no_options fresh_client)).2))
    = [Dialled 0; Waited 106 100; Dialled 209; Waited 212 100; Dialled 315].
Proof. vm_compute. split; reflexivity. Qed.

(** X13. [killGame] escalates to SIGKILL only when SIGTERM could not be
    delivered. When the client holds a child process and [kill("SIGTERM")]
    reports delivery, the child's [killed] flag is set, so after the grace
    period the test [!this.gameProcess.killed] fails: SIGTERM is sent, and
    no SIGKILL follows, whether or not the process has exited. *)
Theorem delivered_SIGTERM_is_not_escalated (env : Env) (s : Sys) (pid : nat) :
  gameProcess s.1 = Some pid →
  is_Some (children s.2 !! pid) →
  turn_kill (turn env (tick s.2)) = Some true →
  ∃ log, effects (killGame env s).2 = effects s.2 ++ log
         ∧ (∃ t, (t, Kill pid SIGTERM) ∈ log)
         ∧ Forall (λ te, ∀ pid', te.2 ≠ Kill pid' SIGKILL) log.
Proof.
  destruct s as [c rt]. simpl. intros Hproc [ch Hch] Hkill. unfold killGame.
  set (s1 := match socket c with
             | Some sock => (set_socket None c, perform (SocketDestroy sock) rt)
             | None => (c, rt)
             end).
  assert (H1 : gameProcess s1.1 = Some pid ∧ tick s1.2 = tick rt
               ∧ children s1.2 = children rt
               ∧ ∃ l1, effects s1.2 = effects rt ++ l1
                       ∧ Forall (λ te, ∀ pid', te.2 ≠ Kill pid' SIGKILL) l1).
  { subst s1. destruct (socket c); simpl; split_and!; try done.
    - eexists [_]. split; [reflexivity|]. by repeat constructor.
    - exists []. split; [by rewrite app_nil_r|constructor]. }
  destruct s1 as [c1 rt1]. simpl in H1. destruct H1 as (Hp1 & Htick & Hchildren & l1 & E1 & F1).
  rewrite Hp1.
  set (rt2 := set_children (alter set_killed pid (children rt1))
                (perform (Kill pid SIGTERM) rt1)).
  assert (Hk : kill env pid SIGTERM rt1 = (true, rt2)).
  { unfold kill. simpl. by rewrite Htick, Hkill. }
  rewrite Hk. cbv beta iota.
  assert (Hflag : is_killed pid rt2 = true).
  { subst rt2. unfold is_killed. simpl. rewrite lookup_alter_eq, Hchildren, Hch. done. }
  unfold sleep. cbn [fst snd].
  pose proof (suspend_frame env (Z.max 0 500) (c1, perform (Sleep 500) rt2))
    as [(l3 & E3 & F3) _ P3 K3].
  destruct (suspend env (Z.max 0 500) (c1, perform (Sleep 500) rt2)).2 as [c3 rt3].
  simpl in E3, P3, K3. specialize (K3 pid Hflag).
  assert (Hafter : ∀ s4 : Sys,
            s4 = match gameProcess c3 with
                 | Some pid' =>
                     if is_killed pid' rt3 then (c3, rt3)
                     else (c3, (kill env pid' SIGKILL rt3).2)
                 | None => (c3, rt3)
                 end →
            effects s4.2 = effects rt3).
  { intros s4 ->. destruct P3 as [-> | ->]; [|done]. rewrite Hp1. by rewrite K3. }
  specialize (Hafter _ eq_refl).
  destruct (match gameProcess c3 with Some _ => _ | None => _ end) as [c4 rt4].
  simpl in *. rewrite Hafter, E3. subst rt2. simpl. rewrite E1.
  exists (l1 ++ [(now rt1, Kill pid SIGTERM)] ++ [(now rt1, Sleep 500)] ++ l3).
  split; [by rewrite <- !app_assoc|]. split.
  - exists (now rt1). apply elem_of_app. right. by left.
  - apply Forall_app. split; [done|]. repeat constructor; try done.
    eapply Forall_impl; [exact F3|]. intros te [text ->]. done.
Qed.

Lemma delivered_SIGTERM_is_not_escalated_witness :
  ∃ log, effects (killGame env_listening sys_launched).2 = effects sys_launched.2 ++ log
         ∧ (∃ t, (t, Kill 1 SIGTERM) ∈ log)
         ∧ Forall (λ te, ∀ pid', te.2 ≠ Kill pid' SIGKILL) log.
Proof.
  apply (delivered_SIGTERM_is_not_escalated env_listening sys_launched 1).
  - vm_compute. reflexivity.
  - vm_compute. by eexists.
  - vm_compute. reflexivity.
Defined.

(** ** The tool layer *)

(** What a [sendCommand] call leaves when the client is connected. *)
Lemma sendCommand_registers (env : Env) (command : string) (args : gmap string Json)
    (timeoutMs : option Z) (s : Sys) :
  isConnected s.1 = true →
  let p := fresh s.2 in
  let h := S (fresh s.2) in
  let i := randomUUID env (fresh s.2) in
  ∃ s1 w,
    sendCommand env command args timeoutMs s = (Pending p h, s1)
    ∧ pendingRequests s1.1 !! i = Some {| promise := p; timeoutHandle := h |}
    ∧ timers s1.2 !! h
      = Some {| timer_id := i; timer_promise := p;
                timer_timeout := or_number timeoutMs (commandTimeoutMs (config s.1)) |}
    ∧ promises s1.2 = promises s.2
    ∧ tick s1.2 = tick s.2
    ∧ w ∈ writes s1.2 ∧ write_promise w = p ∧ write_timer w = h.
Proof.
  intros Hconn. destruct s as [c rt]. simpl in *. unfold sendCommand. rewrite Hconn.
  apply isConnected_true in Hconn as [_ Hsock].
  destruct (socket c) as [sock|]; [|done].
  eexists _, _. split; [reflexivity|]. simpl.
  split_and!; try done; try apply lookup_insert_eq.
  - apply elem_of_app. right. by left.
  - done.
  - done.
Qed.

Lemma coherent_fresh_open (s : Sys) : Coherent s → promises s.2 !! fresh s.2 = None.
Proof.
  intros Hcoh. destruct (promises s.2 !! fresh s.2) eqn:E; [|done].
  pose proof (coh_allocated _ _ _ _ _ Hcoh (fresh s.2) (mk_is_Some _ _ E)). lia.
Qed.

(** A registered call that is awaited always resumes. *)
Lemma awaitSettled_returns (env : Env) (p h : nat) (s : Sys) (w : Write) :
  Coherent s → w ∈ writes s.2 → write_promise w = p → write_timer w = h →
  ∃ res, awaitSettled env p h s = Some res.
Proof.
  intros Hcoh Hw Hp Hh. unfold awaitSettled.
  pose proof (suspend_keeps env 0 s) as [_ Hwr _ Hcoh2].
  specialize (Hcoh2 Hcoh).
  set (s2 := (suspend env 0 s).2) in *.
  assert (Hw2 : w ∈ writes s2.2) by (by eapply elem_of_prefix).
  destruct (promises s2.2 !! p) eqn:Hopen; [by eexists|].
  destruct s2 as [c2 rt2]. unfold Coherent in Hcoh2. simpl in *.
  destruct (timers rt2 !! h) as [t|] eqn:Ht.
  - simpl.
    destruct (coh_timers _ _ _ _ _ Hcoh2 _ _ Ht) as [Hpair _].
    destruct (coh_writes _ _ _ _ _ Hcoh2 _ Hw2) as [Hpair' _].
    assert (timer_promise t = p) as -> by lia.
    destruct (settle_is_Some p
                (Resolved (failure (timer_id t) (timeout_message (timer_timeout t))))
                (promises rt2)) as [v ->].
    by eexists.
  - subst h. destruct (coh_settles _ _ _ _ _ Hcoh2 _ Hw2 Ht) as [v Hv].
    rewrite Hp in Hv. congruence.
Qed.

(** X14. The tool answers every call. In a state reached by any history,
    the [game_command] handler returns a result, and the result has
    content: the awaited command is settled by a response, a write
    failure, a disconnect or, at the latest, its timer. *)
Theorem game_command_answers (env : Env) (platform : Platform) (cfg : Config)
    (history : list Call) (params : GameCommandParams) :
  ∃ result s', game_command env platform params (run env cfg history) = Some (result, s')
               ∧ content result ≠ [].
Proof.
  pose proof (run_coherent env cfg history) as Hcoh.
  set (s := run env cfg history) in *. unfold game_command.
  destruct (isConnected s.1) eqn:Hconn; [|by eexists _, _].
  destruct (sendCommand_registers env (param_command params)
              (default ∅ (param_args params)) (param_timeout_ms params) s Hconn)
    as (s1 & w & Hsend & _ & _ & _ & _ & Hw & Hp & Hh).
  pose proof (sendCommand_keeps env (param_command params)
                (default ∅ (param_args params)) (param_timeout_ms params) s) as [_ _ _ Hcoh1].
  rewrite Hsend in Hcoh1 |- *. cbn [snd] in Hcoh1.
  destruct (awaitSettled_returns env _ _ s1 w (Hcoh1 Hcoh) Hw Hp Hh) as [[outcome s2] ->].
  simpl. destruct outcome as [response|reason]; [|by eexists _, _].
  destruct (success response); [|by eexists _, _].
  eexists _, _. split; [reflexivity|]. simpl. unfold success_content.
  destruct (_ ++ _) eqn:E; done.
Qed.

(** X15. A disconnect during a command surfaces as an error result. When
    the client is connected and the socket closes while the handler
    awaits the command (before anything else happens), the rejection of
    [sendCommand] is caught and the tool returns the error result with
    the text "Command failed: Connection lost during command execution". *)
Theorem game_command_connection_lost (env : Env) (platform : Platform)
    (params : GameCommandParams) (s : Sys) (rest : list Event) :
  isConnected s.1 = true →
  Coherent s →
  turn_events (turn env (tick s.2)) = SocketClose :: rest →
  result_of (game_command env platform params s)
  = Some {| isError := true;
            content := [TextContent
                          "Command failed: Connection lost during command execution"] |}.
Proof.
  intros Hconn Hcoh Hevents. unfold game_command. rewrite Hconn.
  destruct (sendCommand_registers env (param_command params)
              (default ∅ (param_args params)) (param_timeout_ms params) s Hconn)
    as (s1 & w & -> & Hpending & _ & Hpromises & Htick & _).
  assert (Hlost : promises (suspend env 0 s1).2.2 !! fresh s.2
                  = Some (Rejected connection_lost)).
  { unfold suspend. cbn [snd]. rewrite Htick, Hevents. cbn [foldl handleEvent].
    eapply lookup_weaken; [|apply events_keeps].
    destruct s1 as [c1 rt1]. unfold handleDisconnect. simpl in *.
    apply (reject_all_rejects _ _ (randomUUID env (fresh s.2))
             {| promise := fresh s.2; timeoutHandle := S (fresh s.2) |}).
    - apply elem_of_map_to_list. exact Hpending.
    - simpl. rewrite Hpromises. by apply coherent_fresh_open. }
  unfold awaitSettled. rewrite Hlost. done.
Qed.

Lemma game_command_connection_lost_witness :
  result_of (game_command env_closing sample_platform screenshot_params
               (run env_closing sample_config [CallConnect no_options]))
  = Some {| isError := true;
            content := [TextContent
                          "Command failed: Connection lost during command execution"] |}.
Proof.
  apply (game_command_connection_lost env_closing sample_platform screenshot_params
           (run env_closing sample_config [CallConnect no_options]) []).
  - vm_compute. reflexivity.
  - apply run_coherent.
  - vm_compute. reflexivity.
Defined.

(** X16. A command that gets no answer surfaces as a timeout error. When
    the client is connected and nothing happens while the handler awaits
    the command, the timer fires and the tool returns the error result
    with the text "Command timeout after <timeout>ms", [timeout] being the
    [timeout_ms] parameter or, if that is absent or 0, the configured
    command timeout. *)
Theorem game_command_times_out (env : Env) (platform : Platform)
    (params : GameCommandParams) (s : Sys) :
  isConnected s.1 = true →
  Coherent s →
  turn_events (turn env (tick s.2)) = [] →
  result_of (game_command env platform params s)
  = Some {| isError := true;
            content :=
              [TextContent
                 ("Command timeout after "
                  +:+ pretty (or_number (param_timeout_ms params)
                                (commandTimeoutMs (config s.1)))
                  +:+ "ms")] |}.
Proof.
  intros Hconn Hcoh Hevents. unfold game_command. rewrite Hconn.
  destruct (sendCommand_registers env (param_command params)
              (default ∅ (param_args params)) (param_timeout_ms params) s Hconn)
    as (s1 & w & -> & _ & Htimer & Hpromises & Htick & _).
  unfold awaitSettled, suspend. cbn [snd]. rewrite Htick, Hevents. cbn [foldl].
  destruct s1 as [c1 rt1]. simpl in Htimer, Hpromises. simpl.
  rewrite Hpromises, (coherent_fresh_open s Hcoh). unfold timerFired. simpl.
  rewrite Htimer. simpl. rewrite Hpromises.
  unfold settle. rewrite (coherent_fresh_open s Hcoh), lookup_insert_eq. simpl.
  reflexivity.
Qed.

Lemma game_command_times_out_witness :
  result_of (game_command env_listening sample_platform screenshot_params
               (run env_listening sample_config [CallConnect no_options]))
  = Some {| isError := true;
            content :=
              [TextContent
                 ("Command timeout after "
                  +:+ pretty (or_number (param_timeout_ms screenshot_params)
                                (commandTimeoutMs
                                   (config (run env_listening sample_config
                                              [CallConnect no_options]).1)))
                  +:+ "ms")] |}.
Proof.
  apply (game_command_times_out env_listening sample_platform screenshot_params
           (run env_listening sample_config [CallConnect no_options])).
  - vm_compute. reflexivity.
  - apply run_coherent.
  - vm_compute. reflexivity.
Defined.

Lemma is_png_signature (decoded : list Z) :
  is_png decoded = true → take 4 decoded = [137; 80; 78; 71].
Proof.
  destruct decoded as [|b0 [|b1 [|b2 [|b3 more]]]]; try done. simpl.
  rewrite !andb_true_iff, !Z.eqb_eq. by intros [[[-> ->] ->] ->].
Qed.

(** X17. The tool shows an image only when it carries the PNG signature.
    Whenever a result of [game_command] contains an image, the result is
    not an error, the image is the first content, its MIME type is
    "image/png", its data is the response's base64 text, and the first
    four decoded bytes are 89 50 4E 47. *)
Theorem game_command_image_is_png (env : Env) (platform : Platform)
    (params : GameCommandParams) (s : Sys) (result : ToolResult) (s' : Sys)
    (img mime : string) :
  game_command env platform params s = Some (result, s') →
  ImageContent img mime ∈ content result →
  isError result = false
  ∧ mime = "image/png"
  ∧ (∃ more, content result = ImageContent img mime :: more)
  ∧ ∃ decoded, Buffer_from_base64 platform img = inl decoded
               ∧ take 4 decoded = [137; 80; 78; 71].
Proof.
  assert (Herr : ∀ text, ImageContent img mime ∈ content (error_result text) → False).
  { intros text H. simpl in H. apply list_elem_of_singleton in H. done. }
  unfold game_command. intros Hrun Hin.
  destruct (isConnected s.1); [|injection Hrun as <- <-; by destruct (Herr _ Hin)].
  destruct (sendCommand _ _ _ _ s) as [sent s1].
  destruct (match sent with Immediate _ => _ | Pending _ _ => _ end)
    as [[outcome s2]|]; [|done].
  simpl in Hrun. destruct outcome as [response|reason];
    [|injection Hrun as <- <-; by destruct (Herr _ Hin)].
  destruct (success response); [|injection Hrun as <- <-; by destruct (Herr _ Hin)].
  injection Hrun as <- <-. simpl in *. unfold success_content in *.
  assert (Htexts : ∀ texts : list Content,
            texts = match data response with
                    | Some (JString text) => [TextContent text]
                    | Some d => [TextContent (JSON_stringify platform d)]
                    | None => []
                    end →
            (ImageContent img mime ∉ texts)
            ∧ (ImageContent img mime ∉ [TextContent "Command executed successfully."])).
  { intros texts ->. split.
    - destruct (data response) as [[]|]; intros H;
        try apply list_elem_of_singleton in H; try done; by apply not_elem_of_nil in H.
    - intros H. by apply list_elem_of_singleton in H. }
  destruct (Htexts _ eq_refl) as [Hnot Hnot'].
  destruct (image response) as [text|].
  2:{ simpl in Hin. destruct (match data response with Some _ => _ | None => _ end); done. }
  destruct (String.eqb text "").
  { simpl in Hin. destruct (match data response with Some _ => _ | None => _ end); done. }
  simpl in Hin |- *. apply elem_of_cons in Hin as [Hhere | Hlater]; [|done].
  unfold image_content in *.
  destruct (Buffer_from_base64 platform text) as [decoded|msg] eqn:Hdec; [|done].
  destruct (is_png decoded) eqn:Hpng; [|done].
  injection Hhere as -> ->. split_and!; try done; [by eexists|].
  exists decoded. split; [done|by apply is_png_signature].
Qed.

Lemma game_command_image_is_png_witness :
  ∃ result s',
    game_command env_png sample_platform screenshot_params
      (run env_png sample_config [CallConnect no_options]) = Some (result, s')
    ∧ isError result = false
    ∧ (∃ more, content result = ImageContent "iVBORw0KGgo=" "image/png" :: more)
    ∧ ∃ decoded, Buffer_from_base64 sample_platform "iVBORw0KGgo=" = inl decoded
                 ∧ take 4 decoded = [137; 80; 78; 71].
Proof.
  destruct (game_command env_png sample_platform screenshot_params
              (run env_png sample_config [CallConnect no_options]))
    as [[result s']|] eqn:Hrun; [|vm_compute in Hrun; discriminate Hrun].
  exists result, s'. split; [reflexivity|].
  assert (Hin : ImageContent "iVBORw0KGgo=" "image/png" ∈ content result).
  { vm_compute in Hrun. injection Hrun as <- _. apply list_elem_of_here. }
  destruct (game_command_image_is_png env_png sample_platform screenshot_params
              _ result s' "iVBORw0KGgo=" "image/png" Hrun Hin) as (H1 & _ & H3 & H4).
  done.
Defined.
